(** * BlackJack: wire codec, deck and round engine

    A shallow embedding of [blackjack_protocol.py], [blackjack_server.py]
    and the hand arithmetic of [blackjack_client.py], with the properties
    of the natural-language specification stated and proved over it.

    Conventions
    - Python [bytes] are [list byte]; Python [int]s are [Z]; a Python
      [str] is the list of its code points.
    - A Python call that can raise returns in the [exc] monad; a bare
      [try: ... except: return None] is [try_except].
    - [random.shuffle] is the standard in-place Fisher-Yates loop; the
      integers it asks for are read from a tape [nat -> nat].
    - The socket is a pair of queues: the list of events still to be
      received and the list of messages already sent. [sendall] is
      taken to succeed; a [recv] on an exhausted queue times out.
    - The one loop with no evident bound, the dealer's, runs on fuel; the
      properties give the fuel that is enough. *)

From Stdlib Require Import ZArith Lia List Bool.
From Stdlib Require Import Strings.Byte Strings.Ascii Strings.String.
From stdpp Require Import base list.
Import ListNotations.

Open Scope Z_scope.

(* ================================================================== *)
(** * Exceptions *)
(* ================================================================== *)

Module Exc.

(** The exception classes the modelled code can meet. *)
Inductive exn : Type :=
| StructError          (* struct.error *)
| UnicodeEncodeError   (* str.encode on a lone surrogate *)
| TypeError            (* unpacking None *)
| IndexError.          (* list index out of range *)

Inductive exc (A : Type) : Type :=
| Ret (a : A)
| Raise (e : exn).
Arguments Ret {A} a.
Arguments Raise {A} e.

Definition bind {A B} (m : exc A) (k : A -> exc B) : exc B :=
  match m with
  | Ret a => k a
  | Raise e => Raise e
  end.

(** [try: body  except: handler] with a bare [except]. *)
Definition try_except {A} (body : exc A) (handler : A) : exc A :=
  match body with
  | Ret a => Ret a
  | Raise _ => Ret handler
  end.

Definition returns {A} (m : exc A) : Prop := exists a, m = Ret a.

End Exc.
Export Exc.

#[global] Instance exc_ret : MRet exc := @Ret.
#[global] Instance exc_bind : MBind exc := fun A B k m => Exc.bind m k.

(* ================================================================== *)
(** * Bytes and Python strings *)
(* ================================================================== *)

Module Bytes.

Abbreviation bytes := (list byte).

#[global] Instance byte_eq_dec : EqDecision byte := Byte.byte_eq_dec.

Definition Z_of_byte (b : byte) : Z := Z.of_N (Byte.to_N b).

(** The C cast [(char) v] of a value already in 0..255. *)
Definition byte_of_Z (v : Z) : byte :=
  match Byte.of_N (Z.to_N v) with
  | Some b => b
  | None => x00
  end.

(** Big-endian value of a byte field. *)
Definition be_decode (l : bytes) : Z :=
  fold_left (fun acc b => acc * 256 + Z_of_byte b) l 0.

(** [b.ljust(n, fill)] *)
Definition ljust (n : nat) (fill : byte) (b : bytes) : bytes :=
  b ++ repeat fill (n - length b)%nat.

(** [b.rstrip(bytes([c]))], and [s.rstrip(c)] on a [str]: drop the
    longest suffix made of [c]. *)
Definition rstrip {A} `{EqDecision A} (c : A) (b : list A) : list A :=
  fold_right
    (fun x acc =>
       match acc with
       | [] => if decide (x = c) then [] else [x]
       | _ :: _ => x :: acc
       end) [] b.

(** [b[i:j]] for 0 <= i <= j. *)
Definition slice (i j : nat) (b : bytes) : bytes := take (j - i) (drop i b).

End Bytes.
Export Bytes.

Module PyStr.

(** A Python [str]: its code points, each in 0..0x10FFFF. *)
Abbreviation str := (list Z).

Definition valid_str (s : str) : Prop :=
  Forall (fun ch => 0 <= ch <= 0x10FFFF) s.

(** A literal: the code points of an ASCII string. *)
Fixpoint lit (s : string) : str :=
  match s with
  | EmptyString => []
  | String a s' => Z.of_N (N_of_ascii a) :: lit s'
  end.

End PyStr.
Export PyStr.

(* ================================================================== *)
(** * The UTF-8 codec of CPython *)
(* ================================================================== *)

Module Utf8.

Definition is_surrogate (ch : Z) : bool :=
  (0xD800 <=? ch) && (ch <=? 0xDFFF).

(** One character of [str.encode('utf-8')] (strict error handling). *)
Definition encode_char (ch : Z) : exc bytes :=
  if ch <? 0x80 then
    Ret [byte_of_Z ch]
  else if ch <? 0x800 then
    Ret [byte_of_Z (Z.lor 0xc0 (Z.shiftr ch 6));
         byte_of_Z (Z.lor 0x80 (Z.land ch 0x3f))]
  else if is_surrogate ch then
    Raise UnicodeEncodeError
  else if ch <? 0x10000 then
    Ret [byte_of_Z (Z.lor 0xe0 (Z.shiftr ch 12));
         byte_of_Z (Z.lor 0x80 (Z.land (Z.shiftr ch 6) 0x3f));
         byte_of_Z (Z.lor 0x80 (Z.land ch 0x3f))]
  else
    Ret [byte_of_Z (Z.lor 0xf0 (Z.shiftr ch 18));
         byte_of_Z (Z.lor 0x80 (Z.land (Z.shiftr ch 12) 0x3f));
         byte_of_Z (Z.lor 0x80 (Z.land (Z.shiftr ch 6) 0x3f));
         byte_of_Z (Z.lor 0x80 (Z.land ch 0x3f))].

(** [s.encode('utf-8')] *)
Fixpoint encode (s : str) : exc bytes :=
  match s with
  | [] => Ret []
  | ch :: s' =>
      b ← encode_char ch;
      bs ← encode s';
      Ret (b ++ bs)
  end.

Definition is_continuation (ch : Z) : bool := (0x80 <=? ch) && (ch <? 0xC0).

(** [b.decode('utf-8', errors='ignore')]: the decoder stops at each
    ill-formed sequence, the handler drops the offending bytes (one
    invalid start byte, the one to three bytes before an invalid
    continuation byte, or everything left when the data ends inside a
    sequence) and decoding resumes after them. *)
Fixpoint decode_ignore (s : bytes) : str :=
  match s with
  | [] => []
  | b1 :: r1 =>
      let ch := Z_of_byte b1 in
      if ch <? 0x80 then ch :: decode_ignore r1
      else if ch <? 0xE0 then
        if ch <? 0xC2 then decode_ignore r1
        else
          match r1 with
          | [] => []
          | b2 :: r2 =>
              let ch2 := Z_of_byte b2 in
              if negb (is_continuation ch2) then decode_ignore r1
              else (Z.shiftl ch 6 + ch2 - (Z.shiftl 0xC0 6 + 0x80))
                     :: decode_ignore r2
          end
      else if ch <? 0xF0 then
        match r1 with
        | [] => []
        | b2 :: r2 =>
            let ch2 := Z_of_byte b2 in
            if negb (is_continuation ch2)
               || (if ch2 <? 0xA0 then ch =? 0xE0 else ch =? 0xED)
            then decode_ignore r1
            else
              match r2 with
              | [] => []
              | b3 :: r3 =>
                  let ch3 := Z_of_byte b3 in
                  if negb (is_continuation ch3) then decode_ignore r2
                  else (Z.shiftl ch 12 + Z.shiftl ch2 6 + ch3
                        - (Z.shiftl 0xE0 12 + Z.shiftl 0x80 6 + 0x80))
                         :: decode_ignore r3
              end
        end
      else if ch <? 0xF5 then
        match r1 with
        | [] => []
        | b2 :: r2 =>
            let ch2 := Z_of_byte b2 in
            if negb (is_continuation ch2)
               || (if ch2 <? 0x90 then ch =? 0xF0 else ch =? 0xF4)
            then decode_ignore r1
            else
              match r2 with
              | [] => []
              | b3 :: r3 =>
                  let ch3 := Z_of_byte b3 in
                  if negb (is_continuation ch3) then decode_ignore r2
                  else
                    match r3 with
                    | [] => []
                    | b4 :: r4 =>
                        let ch4 := Z_of_byte b4 in
                        if negb (is_continuation ch4) then decode_ignore r3
                        else (Z.shiftl ch 18 + Z.shiftl ch2 12
                              + Z.shiftl ch3 6 + ch4
                              - (Z.shiftl 0xF0 18 + Z.shiftl 0x80 12
                                 + Z.shiftl 0x80 6 + 0x80))
                               :: decode_ignore r4
                    end
              end
        end
      else decode_ignore r1
  end.

(** ** Vocabulary for the properties of the codec *)

(** The characters [str.encode] accepts. *)
Definition encodable_char (ch : Z) : Prop :=
  0 <= ch <= 0x10FFFF /\ is_surrogate ch = false.

Definition encodable (s : str) : Prop := Forall encodable_char s.

(** Number of bytes a character takes. *)
Definition char_len (ch : Z) : nat :=
  if ch <? 0x80 then 1 else if ch <? 0x800 then 2
  else if ch <? 0x10000 then 3 else 4.

Definition utf8_len (s : str) : nat := sum_list (map char_len s).

(** The bytes of an encodable character, with the shifts and masks of
    [encode_char] written as divisions and remainders. *)
Definition char_bytes (ch : Z) : bytes :=
  if ch <? 0x80 then [byte_of_Z ch]
  else if ch <? 0x800 then
    [byte_of_Z (192 + ch / 64); byte_of_Z (128 + ch mod 64)]
  else if ch <? 0x10000 then
    [byte_of_Z (224 + ch / 4096); byte_of_Z (128 + (ch / 64) mod 64);
     byte_of_Z (128 + ch mod 64)]
  else
    [byte_of_Z (240 + ch / 262144); byte_of_Z (128 + (ch / 4096) mod 64);
     byte_of_Z (128 + (ch / 64) mod 64); byte_of_Z (128 + ch mod 64)].

Abbreviation encoded s := (concat (map char_bytes s)).

(** The longest prefix of [s] whose encoding fits in [n] bytes. *)
Fixpoint fit (n : nat) (s : str) : str :=
  match s with
  | [] => []
  | ch :: s' =>
      if (char_len ch <=? n)%nat then ch :: fit (n - char_len ch) s'
      else []
  end.

End Utf8.

(* ================================================================== *)
(** * [struct]: fixed network-order layouts *)
(* ================================================================== *)

Module Struct.

(** The [n] low-order bytes of [v], most significant first. *)
Fixpoint be_encode (n : nat) (v : Z) : bytes :=
  match n with
  | O => []
  | S n' => be_encode n' (v / 256) ++ [byte_of_Z (v mod 256)]
  end.

(** One unsigned field of [struct.pack]: [struct.error] when the value
    does not fit. *)
Definition pack_uint (n : nat) (v : Z) : exc bytes :=
  if (0 <=? v) && (v <? 256 ^ Z.of_nat n) then Ret (be_encode n v)
  else Raise StructError.

(** [struct.pack('!IB', a, b)] *)
Definition pack_IB (a b : Z) : exc bytes :=
  x ← pack_uint 4 a; y ← pack_uint 1 b; Ret (x ++ y).

(** [struct.pack('!IBH', a, b, c)] *)
Definition pack_IBH (a b c : Z) : exc bytes :=
  x ← pack_uint 4 a; y ← pack_uint 1 b; z ← pack_uint 2 c;
  Ret (x ++ y ++ z).

(** [struct.pack('!IBB', a, b, c)] *)
Definition pack_IBB (a b c : Z) : exc bytes :=
  x ← pack_uint 4 a; y ← pack_uint 1 b; z ← pack_uint 1 c;
  Ret (x ++ y ++ z).

(** [struct.pack('!IBBHB', a, b, c, d, e)] *)
Definition pack_IBBHB (a b c d e : Z) : exc bytes :=
  x ← pack_uint 4 a; y ← pack_uint 1 b; z ← pack_uint 1 c;
  u ← pack_uint 2 d; w ← pack_uint 1 e;
  Ret (x ++ y ++ z ++ u ++ w).

(** [struct.unpack] raises [struct.error] unless the buffer has exactly
    the size of the format. *)
Definition unpack_IB (buf : bytes) : exc (Z * Z) :=
  if (length buf =? 5)%nat then
    Ret (be_decode (slice 0 4 buf), be_decode (slice 4 5 buf))
  else Raise StructError.

Definition unpack_IBH (buf : bytes) : exc (Z * Z * Z) :=
  if (length buf =? 7)%nat then
    Ret (be_decode (slice 0 4 buf), be_decode (slice 4 5 buf),
         be_decode (slice 5 7 buf))
  else Raise StructError.

Definition unpack_IBB (buf : bytes) : exc (Z * Z * Z) :=
  if (length buf =? 6)%nat then
    Ret (be_decode (slice 0 4 buf), be_decode (slice 4 5 buf),
         be_decode (slice 5 6 buf))
  else Raise StructError.

Definition unpack_IBBHB (buf : bytes) : exc (Z * Z * Z * Z * Z) :=
  if (length buf =? 9)%nat then
    Ret (be_decode (slice 0 4 buf), be_decode (slice 4 5 buf),
         be_decode (slice 5 6 buf), be_decode (slice 6 8 buf),
         be_decode (slice 8 9 buf))
  else Raise StructError.

End Struct.

(* ================================================================== *)
(** * blackjack_protocol.py *)
(* ================================================================== *)

Module Protocol.
Import Struct.

Definition MAGIC_COOKIE : Z := 0xabcddcba.

Definition MSG_TYPE_OFFER : Z := 0x2.
Definition MSG_TYPE_REQUEST : Z := 0x3.
Definition MSG_TYPE_PAYLOAD : Z := 0x4.

Definition RESULT_NOT_OVER : Z := 0x0.
Definition RESULT_TIE : Z := 0x1.
Definition RESULT_LOSS : Z := 0x2.
Definition RESULT_WIN : Z := 0x3.

Definition DECISION_HIT : str := lit "Hittt".
Definition DECISION_STAND : str := lit "Stand".

Definition NAME_SIZE : nat := 32.

Definition SUIT_HEART : Z := 0.
Definition SUIT_DIAMOND : Z := 1.
Definition SUIT_CLUB : Z := 2.
Definition SUIT_SPADE : Z := 3.

Definition get_card_value (rank : Z) : Z :=
  if rank =? 1 then 11
  else if 11 <=? rank then 10
  else rank.

Definition pad_name (name : str) : exc bytes :=
  name_bytes ← Utf8.encode name;
  if (NAME_SIZE <? length name_bytes)%nat then Ret (take NAME_SIZE name_bytes)
  else Ret (ljust NAME_SIZE x00 name_bytes).

Definition unpad_name (name_bytes : bytes) : str :=
  Utf8.decode_ignore (rstrip x00 name_bytes).

(** ** Offer: magic(4) + type(1) + port(2) + name(32) = 39 bytes *)

Definition create_offer_message (tcp_port : Z) (server_name : str)
  : exc bytes :=
  header ← pack_IBH MAGIC_COOKIE MSG_TYPE_OFFER tcp_port;
  name ← pad_name server_name;
  Ret (header ++ name).

Definition parse_offer_message (data : bytes) : exc (option (Z * str)) :=
  if (length data <? 39)%nat then Ret None
  else
    try_except
      ('(magic, msg_type, tcp_port) ← unpack_IBH (slice 0 7 data);
       if negb (magic =? MAGIC_COOKIE) || negb (msg_type =? MSG_TYPE_OFFER)
       then Ret None
       else
         let server_name := unpad_name (slice 7 39 data) in
         Ret (Some (tcp_port, server_name)))
      None.

(** ** Request: magic(4) + type(1) + rounds(1) + name(32) = 38 bytes *)

Definition create_request_message (num_rounds : Z) (client_name : str)
  : exc bytes :=
  header ← pack_IBB MAGIC_COOKIE MSG_TYPE_REQUEST num_rounds;
  name ← pad_name client_name;
  Ret (header ++ name).

Definition parse_request_message (data : bytes) : exc (option (Z * str)) :=
  if (length data <? 38)%nat then Ret None
  else
    try_except
      ('(magic, msg_type, num_rounds) ← unpack_IBB (slice 0 6 data);
       if negb (magic =? MAGIC_COOKIE) || negb (msg_type =? MSG_TYPE_REQUEST)
       then Ret None
       else
         let client_name := unpad_name (slice 6 38 data) in
         Ret (Some (num_rounds, client_name)))
      None.

(** ** Payloads: client magic(4) + type(1) + decision(5) = 10 bytes,
       server magic(4) + type(1) + result(1) + rank(2) + suit(1) = 9 bytes *)

Definition create_client_payload (decision : str) : exc bytes :=
  encoded ← Utf8.encode decision;
  let decision_bytes := ljust 5 x00 (take 5 encoded) in
  header ← pack_IB MAGIC_COOKIE MSG_TYPE_PAYLOAD;
  Ret (header ++ decision_bytes).

Definition create_server_payload (result rank suit : Z) : exc bytes :=
  pack_IBBHB MAGIC_COOKIE MSG_TYPE_PAYLOAD result rank suit.

Definition parse_client_payload (data : bytes) : exc (option str) :=
  if (length data <? 10)%nat then Ret None
  else
    try_except
      ('(magic, msg_type) ← unpack_IB (slice 0 5 data);
       if negb (magic =? MAGIC_COOKIE) || negb (msg_type =? MSG_TYPE_PAYLOAD)
       then Ret None
       else
         let decision := Utf8.decode_ignore (rstrip x00 (slice 5 10 data)) in
         Ret (Some decision))
      None.

Definition parse_server_payload (data : bytes)
  : exc (option (Z * Z * Z)) :=
  if (length data <? 9)%nat then Ret None
  else
    try_except
      ('(magic, msg_type, result, rank, suit) ← unpack_IBBHB (slice 0 9 data);
       if negb (magic =? MAGIC_COOKIE) || negb (msg_type =? MSG_TYPE_PAYLOAD)
       then Ret None
       else Ret (Some (result, rank, suit)))
      None.

(** ** Vocabulary for the properties of the codec *)

(** The magic cookie as it travels. *)
Definition MAGIC_BYTES : bytes := [xab; xcd; xdc; xba].

(** The three things a parser looks at before it reads the fields: the
    buffer holds at least [size] bytes, starts with the magic cookie,
    and carries the type tag [tag]. *)
Definition framed (size : nat) (tag : byte) (data : bytes) : Prop :=
  (size <= length data)%nat /\ take 4 data = MAGIC_BYTES /\
  data !! 4%nat = Some tag.

#[global] Instance framed_dec size tag data : Decision (framed size tag data).
Proof. unfold framed. apply _. Defined.

(** The four messages as byte strings, for fields that fit. *)
Definition offer_bytes (tcp_port : Z) (name : str) : bytes :=
  (MAGIC_BYTES ++ [x02]) ++ Struct.be_encode 2 tcp_port
    ++ ljust NAME_SIZE x00 (take NAME_SIZE (Utf8.encoded name)).

Definition request_bytes (num_rounds : Z) (name : str) : bytes :=
  (MAGIC_BYTES ++ [x03]) ++ Struct.be_encode 1 num_rounds
    ++ ljust NAME_SIZE x00 (take NAME_SIZE (Utf8.encoded name)).

Definition client_bytes (decision : str) : bytes :=
  (MAGIC_BYTES ++ [x04]) ++ ljust 5 x00 (take 5 (Utf8.encoded decision)) ++ [].

Definition server_bytes (result rank suit : Z) : bytes :=
  (MAGIC_BYTES ++ [x04]) ++ Struct.be_encode 1 result
    ++ Struct.be_encode 2 rank ++ Struct.be_encode 1 suit.

(** The ServerCard message for a card still in play, and the one that
    closes a round. *)
Definition card_msg (c : Z * Z) : bytes :=
  server_bytes RESULT_NOT_OVER c.1 c.2.

Definition result_msg (result : Z) : bytes := server_bytes result 0 0.

(** What a string becomes on its way through a zero-padded field of
    [n] bytes: the characters that fit in the field, less the trailing
    U+0000 when the field ends on a character boundary. *)
Definition field_trip (n : nat) (s : str) : str :=
  let kept := Utf8.fit n s in
  if (Utf8.utf8_len s <=? n)%nat || (Utf8.utf8_len kept =? n)%nat
  then rstrip 0 kept else kept.

End Protocol.

(* ================================================================== *)
(** * [random.shuffle] *)
(* ================================================================== *)

Module Random.

(** The integers the generator hands out, in the order they are asked
    for: the [k]-th call [randbelow(n)] answers [rnd k mod n]. *)
Definition tape := nat -> nat.

Section Shuffle.
Context {A : Type}.

(** [x[i], x[j] = x[j], x[i]]: both reads, then the two stores. An
    index out of range leaves the list alone; the loop below never
    produces one. *)
Definition swap (i j : nat) (x : list A) : list A :=
  match x !! j, x !! i with
  | Some xj, Some xi => <[j:=xi]> (<[i:=xj]> x)
  | _, _ => x
  end.

(** [for i in reversed(range(1, len(x))): j = randbelow(i + 1); swap],
    entered with [i] the largest index still to be placed. *)
Fixpoint shuffle_from (rnd : tape) (pos : nat) (i : nat) (x : list A)
  : list A * nat :=
  match i with
  | O => (x, pos)
  | S i' =>
      let j := (rnd pos mod (i + 1))%nat in
      shuffle_from rnd (S pos) i' (swap i j x)
  end.

Definition shuffle (rnd : tape) (pos : nat) (x : list A) : list A * nat :=
  shuffle_from rnd pos (length x - 1)%nat x.

End Shuffle.

End Random.

(* ================================================================== *)
(** * blackjack_server.py: Deck *)
(* ================================================================== *)

Abbreviation card := (Z * Z)%type.   (* (rank, suit) *)

Module Deck.
Import Random.

(** The [Deck] object has the single attribute [cards]. *)
Record t : Type := mk { cards : list card }.

(** The two nested [for] loops of [reset], before the shuffle. *)
Definition fresh_cards : list card :=
  flat_map (fun suit => map (fun rank => (rank, suit)) (seqZ 1 13))
           (seqZ 0 4).

(** A card of the pack: rank 1..13, suit 0..3. *)
Definition valid_card (c : card) : Prop :=
  (1 <= c.1 <= 13) /\ (0 <= c.2 <= 3).

(** A deck all of whose cards are cards of the pack. *)
Definition ok (d : t) : Prop := Forall valid_card (cards d).

Section WithTape.
Variable rnd : tape.

(** Each operation takes the position on the tape and returns the new
    one. *)
Definition reset (pos : nat) (d : t) : t * nat :=
  let '(cs, pos') := shuffle rnd pos fresh_cards in
  (mk cs, pos').

(** [Deck()] *)
Definition init (pos : nat) : t * nat := reset pos (mk []).

(** [self.cards.pop() if self.cards else None] *)
Definition pop (d : t) : option card * t :=
  match last (cards d) with
  | Some c => (Some c, mk (removelast (cards d)))
  | None => (None, d)
  end.

Definition draw (pos : nat) (d : t) : option card * t * nat :=
  let '(d1, pos1) :=
    match cards d with
    | [] => reset pos d
    | _ :: _ => (d, pos)
    end in
  let '(c, d2) := pop d1 in
  (c, d2, pos1).

(** [n] successive calls of [draw]: the results in order, and the
    final state. *)
Fixpoint draws (n : nat) (pos : nat) (d : t)
  : list (option card) * t * nat :=
  match n with
  | O => ([], d, pos)
  | S n' =>
      let '(c, d1, pos1) := draw pos d in
      let '(cs, d2, pos2) := draws n' pos1 d1 in
      (c :: cs, d2, pos2)
  end.

(** A client of the deck calls [draw] and [reset] in any order. *)
Inductive op : Type := OpDraw | OpReset.

Fixpoint run (ops : list op) (pos : nat) (d : t)
  : list (option card) * t * nat :=
  match ops with
  | [] => ([], d, pos)
  | OpDraw :: ops' =>
      let '(c, d1, pos1) := draw pos d in
      let '(cs, d2, pos2) := run ops' pos1 d1 in
      (c :: cs, d2, pos2)
  | OpReset :: ops' =>
      let '(d1, pos1) := reset pos d in
      run ops' pos1 d1
  end.

End WithTape.

End Deck.

(* ================================================================== *)
(** * blackjack_server.py: BlackjackGame *)
(* ================================================================== *)

Module Server.
Import Random Protocol.

(** What one call of [client_socket.recv(10)] can do. *)
Inductive recv_event : Type :=
| RecvData (data : bytes)   (* [b''] when the peer has closed *)
| RecvTimeout               (* socket.timeout *)
| RecvError.                (* any other exception *)

(** The attributes of a game that the round engine touches, the
    position on the random tape and the messages handed to
    [sendall], oldest first. *)
Record Game : Type := mkGame {
  deck : Deck.t;
  rpos : nat;
  player_hand : list card;
  dealer_hand : list card;
  sent : list bytes
}.

(** A method body: it may raise, and it leaves a state either way. *)
Definition M (A : Type) : Type := Game -> exc A * Game.

#[global] Instance M_ret : MRet M := fun A a g => (Ret a, g).
#[global] Instance M_bind : MBind M := fun A B k m g =>
  match m g with
  | (Ret a, g') => k a g'
  | (Raise e, g') => (Raise e, g')
  end.

Definition raise {A} (e : exn) : M A := fun g => (Raise e, g).
Definition lift {A} (m : exc A) : M A := fun g => (m, g).
Definition gets {A} (f : Game -> A) : M A := fun g => (Ret (f g), g).
Definition modify (f : Game -> Game) : M unit := fun g => (Ret tt, f g).

Definition sum (l : list Z) : Z := foldr Z.add 0 l.

Definition calculate_hand_value (hand : list card) : Z :=
  let total := sum (map (fun '(rank, suit) => get_card_value rank) hand) in
  total.

(** [receive_decision] when [recv] behaves as the event says. *)
Definition receive_decision (ev : recv_event) : option str :=
  match ev with
  | RecvData [] => None
  | RecvData data =>
      match parse_client_payload data with
      | Ret r => r
      | Raise _ => None
      end
  | RecvTimeout => None
  | RecvError => None
  end.

(** [l[i]] *)
Definition index {A} (l : list A) (i : nat) : M A :=
  match l !! i with
  | Some x => mret x
  | None => raise IndexError
  end.

Section WithTape.
Variable rnd : tape.

(** [self.send_card(rank, suit, result)]; [sendall] is taken to
    succeed. *)
Definition send_card (rank suit result : Z) : M unit :=
  message ← lift (create_server_payload result rank suit);
  modify (fun g => mkGame (deck g) (rpos g) (player_hand g)
                          (dealer_hand g) (sent g ++ [message])).

(** [card = self.deck.draw()], followed by the unpacking [*card] that
    every caller applies to it: [None] cannot be unpacked. *)
Definition draw_card : M card :=
  fun g =>
    let '(c, d, pos) := Deck.draw rnd (rpos g) (deck g) in
    let g' := mkGame d pos (player_hand g) (dealer_hand g) (sent g) in
    match c with
    | Some c => (Ret c, g')
    | None => (Raise TypeError, g')
    end.

Definition append_player (c : card) : M unit :=
  modify (fun g => mkGame (deck g) (rpos g) (player_hand g ++ [c])
                          (dealer_hand g) (sent g)).

Definition append_dealer (c : card) : M unit :=
  modify (fun g => mkGame (deck g) (rpos g) (player_hand g)
                          (dealer_hand g ++ [c]) (sent g)).

Definition reset_hands : M unit :=
  modify (fun g => mkGame (deck g) (rpos g) [] [] (sent g)).

(** One pass of the first dealing loop. *)
Definition deal_player : M unit :=
  c ← draw_card;
  _ ← append_player c;
  send_card c.1 c.2 RESULT_NOT_OVER.

(** One pass of the second dealing loop. *)
Definition deal_dealer : M unit :=
  c ← draw_card;
  append_dealer c.

(** How the [while True] of the player's turn is left. *)
Inductive loop_exit : Type :=
| Break (player_value : Z)
| Return (result : string).

(** The player's turn. Every pass starts with one [recv]; once the
    peer has nothing more to say the next [recv] times out. *)
Fixpoint player_turn (player_value : Z) (inbox : list recv_event)
  : M (loop_exit * list recv_event) :=
  match inbox with
  | [] => mret (Return "loss", [])
  | ev :: rest =>
      match receive_decision ev with
      | None => mret (Return "loss", rest)
      | Some decision =>
          if decide (decision = DECISION_STAND) then
            mret (Break player_value, rest)
          else if decide (decision = DECISION_HIT) then
            c ← draw_card;
            _ ← append_player c;
            _ ← send_card c.1 c.2 RESULT_NOT_OVER;
            hand ← gets player_hand;
            let player_value := calculate_hand_value hand in
            if 21 <? player_value then
              _ ← send_card 0 0 RESULT_LOSS;
              mret (Return "loss", rest)
            else player_turn player_value rest
          else player_turn player_value rest
      end
  end.

(** [while dealer_value < 17: ...]; [None] when [fuel] passes were
    not enough to leave the loop. *)
Fixpoint dealer_loop (fuel : nat) (dealer_value : Z) : M (option Z) :=
  if dealer_value <? 17 then
    match fuel with
    | O => mret None
    | S fuel' =>
        c ← draw_card;
        _ ← append_dealer c;
        _ ← send_card c.1 c.2 RESULT_NOT_OVER;
        hand ← gets dealer_hand;
        dealer_loop fuel' (calculate_hand_value hand)
    end
  else mret (Some dealer_value).

(** The initial deal of [play_round], up to the first computation of
    [player_value]. *)
Definition initial_deal : M Z :=
  _ ← reset_hands;
  _ ← deal_player;
  _ ← deal_player;
  _ ← deal_dealer;
  _ ← deal_dealer;
  hand ← gets dealer_hand;
  c ← index hand 0;
  _ ← send_card c.1 c.2 RESULT_NOT_OVER;
  hand ← gets player_hand;
  mret (calculate_hand_value hand).

(** The dealer's turn: the hidden card is revealed, then the dealer
    draws. *)
Definition dealer_turn (fuel : nat) : M (option Z) :=
  hand ← gets dealer_hand;
  c ← index hand 1;
  _ ← send_card c.1 c.2 RESULT_NOT_OVER;
  hand ← gets dealer_hand;
  let dealer_value := calculate_hand_value hand in
  dealer_loop fuel dealer_value.

(** The last [if] chain of [play_round]. *)
Definition determine_winner (player_value dealer_value : Z) : M string :=
  if 21 <? dealer_value then
    _ ← send_card 0 0 RESULT_WIN;
    mret "win"%string
  else if dealer_value <? player_value then
    _ ← send_card 0 0 RESULT_WIN;
    mret "win"%string
  else if player_value <? dealer_value then
    _ ← send_card 0 0 RESULT_LOSS;
    mret "loss"%string
  else
    _ ← send_card 0 0 RESULT_TIE;
    mret "tie"%string.

(** [play_round]: the result string ([None] if the dealer's loop ran
    out of fuel) and the events not yet received. *)
Definition play_round (fuel : nat) (inbox : list recv_event)
  : M (option string * list recv_event) :=
  player_value ← initial_deal;
  '(exit, inbox') ← player_turn player_value inbox;
  match exit with
  | Return result => mret (Some result, inbox')
  | Break player_value =>
      looped ← dealer_turn fuel;
      match looped with
      | None => mret (None, inbox')
      | Some dealer_value =>
          result ← determine_winner player_value dealer_value;
          mret (Some result, inbox')
      end
  end.

(** The counters of [play_all_rounds]. *)
Record stats : Type := mkStats { wins : Z; losses : Z; ties : Z }.

Definition count (result : string) (st : stats) : stats :=
  if String.eqb result "win" then mkStats (wins st + 1) (losses st) (ties st)
  else if String.eqb result "loss" then mkStats (wins st) (losses st + 1) (ties st)
  else mkStats (wins st) (losses st) (ties st + 1).

(** The [for] loop of [play_all_rounds] over the rounds still to
    play: an exception in a round leaves the loop; [None] if a round
    ran out of fuel. *)
Fixpoint play_rounds (fuel : nat) (rounds : nat) (st : stats)
         (inbox : list recv_event) (g : Game) : option stats * Game :=
  match rounds with
  | O => (Some st, g)
  | S rounds' =>
      match play_round fuel inbox g with
      | (Ret (Some result, inbox'), g') =>
          play_rounds fuel rounds' (count result st) inbox' g'
      | (Ret (None, _), g') => (None, g')
      | (Raise _, g') => (Some st, g')
      end
  end.

Definition play_all_rounds (fuel : nat) (num_rounds : Z)
           (inbox : list recv_event) (g : Game) : option stats * Game :=
  play_rounds fuel (Z.to_nat num_rounds) (mkStats 0 0 0) inbox g.

(** [BlackjackGame(...)]: a fresh shuffled deck and empty hands. *)
Definition new_game (pos : nat) : Game :=
  let '(d, pos') := Deck.init rnd pos in
  mkGame d pos' [] [] [].

End WithTape.

End Server.

(* ================================================================== *)
(** * blackjack_client.py: hand arithmetic *)
(* ================================================================== *)

Module Client.
Import Protocol.

(** [while total > 21 and num_aces > 0: total -= 10; num_aces -= 1] *)
Fixpoint adjust_aces (num_aces : nat) (total : Z) : Z :=
  if 21 <? total then
    match num_aces with
    | O => total
    | S num_aces' => adjust_aces num_aces' (total - 10)
    end
  else total.

Definition calculate_hand_value (hand : list card) : Z :=
  let total :=
    Server.sum (map (fun '(rank, suit) => get_card_value rank) hand) in
  let num_aces :=
    length (filter (fun '(rank, suit) => rank = 1) hand) in
  adjust_aces num_aces total.

End Client.

(* ================================================================== *)
(** * The specification's words *)
(* ================================================================== *)

Module Spec.

(** Per-card values: Ace=11, J/Q/K=10, numeric cards=face value. *)
Definition card_value (rank : Z) : Z :=
  if decide (rank = 1) then 11
  else if decide (rank = 11 \/ rank = 12 \/ rank = 13) then 10
  else rank.

Definition raw_sum (hand : list card) : Z :=
  foldr Z.add 0 (map (fun c => card_value c.1) hand).

Definition aces (hand : list card) : nat :=
  length (filter (fun c => c.1 = 1) hand).

(** HandValue: the sum of the per-card values, from which 10 is taken
    once per Ace while the sum exceeds 21 and an Ace is still counted
    as 11. [v] is the value of [hand] when it is the sum after [k] such
    steps, each of them taken because the sum exceeded 21, and no
    further step applies. *)
Definition is_hand_value (hand : list card) (v : Z) : Prop :=
  exists k : nat,
    (k <= aces hand)%nat /\
    v = raw_sum hand - 10 * Z.of_nat k /\
    (forall j : nat, (j < k)%nat -> 21 < raw_sum hand - 10 * Z.of_nat j) /\
    (v <= 21 \/ k = aces hand).

(** RoundOutcome, from the player's side, with its wire code and the
    string [play_round] returns for it. *)
Inductive outcome : Type := not_over | tie | loss | win.

Definition code (o : outcome) : Z :=
  match o with not_over => 0 | tie => 1 | loss => 2 | win => 3 end.

Definition name (o : outcome) : string :=
  match o with
  | not_over => "not_over" | tie => "tie" | loss => "loss" | win => "win"
  end.

(** RESOLVED: dealer value > 21, player wins; else player value >
    dealer value, player wins; dealer value > player value, player
    loses; equal, tie. *)
Definition resolved (player_value dealer_value : Z) : outcome :=
  if decide (21 < dealer_value) then win
  else if decide (dealer_value < player_value) then win
  else if decide (player_value < dealer_value) then loss
  else tie.

End Spec.

(* ================================================================== *)
(** * Scenarios *)
(* ================================================================== *)

Module Scenario.
Import Random Protocol Server.

(** A tape whose first shuffle leaves the ace of spades on top of the
    deck and the ten of diamonds under it. *)
Definition natural_tape : tape :=
  fun k => match k with 0%nat => 39%nat | 1%nat => 22%nat | _ => 0%nat end.

(** The game [BlackjackGame(...)] builds on that tape. *)
Definition natural_game : Game := new_game natural_tape 0.

(** The dealer holds the seven of diamonds and the five of spades, the
    nine of clubs is on top of the deck; the player has stood on 19. *)
Definition dealer_12_game : Game :=
  mkGame (Deck.mk [(9, SUIT_CLUB)]) 0
         [(10, SUIT_CLUB); (9, SUIT_HEART)]
         [(7, SUIT_DIAMOND); (5, SUIT_SPADE)] [].

(** The dealer holds the ten of spades and the seven of hearts. *)
Definition dealer_17_game : Game :=
  mkGame (Deck.mk [(9, SUIT_CLUB)]) 0
         [(10, SUIT_CLUB); (9, SUIT_HEART)]
         [(10, SUIT_SPADE); (7, SUIT_HEART)] [].

(** The player holds the five of hearts and the five of diamonds; the
    six of clubs is on top of the deck, the nine of spades under it. *)
Definition player_10_game : Game :=
  mkGame (Deck.mk [(9, SUIT_SPADE); (6, SUIT_CLUB)]) 0
         [(5, SUIT_HEART); (5, SUIT_DIAMOND)]
         [(10, SUIT_SPADE); (7, SUIT_HEART)] [].

(** A decision as the client sends it. *)
Definition decision_event (decision : str) : recv_event :=
  RecvData (client_bytes decision).

End Scenario.

(* ================================================================== *)
(** * blackjack_server.py: handle_client *)
(* ================================================================== *)

Module Session.
Import Random Protocol Server.


End Session.

(* ================================================================== *)
(** * Vocabulary for the properties of a round *)
(* ================================================================== *)

Module Trace.
Import Protocol Server.

(** The receives that brought the decision "Hittt". *)
Definition hits (events : list recv_event) : nat :=
  length (filter (fun ev => receive_decision ev = Some DECISION_HIT) events).

(** A hand without an ace: the two sides' [calculate_hand_value]
    agree on it. *)
Definition no_ace (hand : list card) : Prop :=
  Forall (fun c => c.1 <> 1) hand.

End Trace.

(* ================================================================== *)
(** * blackjack_client.py: BlackjackClient *)
(* ================================================================== *)

Module ClientGame.
Import Protocol Server.

(** The attributes of a client that a round touches, and the messages
    handed to [sendall], oldest first. *)
Record t : Type := mk {
  player_hand : list card;
  dealer_hand : list card;
  wins : Z;
  losses : Z;
  ties : Z;
  sent : list bytes
}.

(** What [get_user_decision] returns once the user has typed a valid
    answer. *)
Inductive choice : Type := Hit | Stand.

Definition decision_of (ch : choice) : str :=
  match ch with Hit => DECISION_HIT | Stand => DECISION_STAND end.

(** [receive_card] when [recv(9)] behaves as the event says. *)
Definition receive_card (ev : recv_event) : option (Z * Z * Z) :=
  match ev with
  | RecvData [] => None
  | RecvData data =>
      match parse_server_payload data with
      | Ret r => r
      | Raise _ => None
      end
  | RecvTimeout => None
  | RecvError => None
  end.

(** One call of [self.receive_card()] on the queue of receives; on an
    exhausted queue the receive times out. *)
Definition recv (inbox : list recv_event)
  : option (Z * Z * Z) * list recv_event :=
  match inbox with
  | [] => (None, [])
  | ev :: rest => (receive_card ev, rest)
  end.

(** The keys of the dict [SUIT_COLORS]. *)
Definition SUIT_COLORS : list (Z * string) :=
  [(SUIT_HEART, "red"); (SUIT_DIAMOND, "red");
   (SUIT_CLUB, "black"); (SUIT_SPADE, "black")]%string.

(** [d[k]] on a dict given by its items: [None] for a [KeyError]. *)
Fixpoint getitem {V} (d : list (Z * V)) (k : Z) : option V :=
  match d with
  | [] => None
  | (k', v) :: d' => if k' =? k then Some v else getitem d' k
  end.

(** [self.format_hand(hand)] builds the picture of every card with
    [draw_card_art], which indexes [SUIT_COLORS] with the suit. The
    text is not modelled, only whether building it raises
    [KeyError]. *)
Definition format_hand_raises (hand : list card) : bool :=
  existsb (fun '(rank, suit) =>
             match getitem SUIT_COLORS suit with
             | Some _ => false
             | None => true
             end) hand.

Definition append_player (c : card) (s : t) : t :=
  mk (player_hand s ++ [c]) (dealer_hand s) (wins s) (losses s) (ties s)
     (sent s).

Definition append_dealer (c : card) (s : t) : t :=
  mk (player_hand s) (dealer_hand s ++ [c]) (wins s) (losses s) (ties s)
     (sent s).

Definition add_win (s : t) : t :=
  mk (player_hand s) (dealer_hand s) (wins s + 1) (losses s) (ties s) (sent s).

Definition add_loss (s : t) : t :=
  mk (player_hand s) (dealer_hand s) (wins s) (losses s + 1) (ties s) (sent s).

Definition add_tie (s : t) : t :=
  mk (player_hand s) (dealer_hand s) (wins s) (losses s) (ties s + 1) (sent s).

Definition reset_hands (s : t) : t :=
  mk [] [] (wins s) (losses s) (ties s) (sent s).

(** [self.tcp_socket.sendall(message)], taken to succeed. *)
Definition sendall (message : bytes) (s : t) : t :=
  mk (player_hand s) (dealer_hand s) (wins s) (losses s) (ties s)
     (sent s ++ [message]).

(** What can leave [play_round] as an exception. *)
Inductive error : Type :=
| KeyError                (* SUIT_COLORS[suit] *)
| CodecError (e : exn).   (* from create_client_payload *)

(** How [play_round] ends: it returns, it waits for an answer of the
    user that never comes, or an exception leaves it. *)
Inductive ending : Type :=
| Returns (ok : bool)
| Waits
| Raises (e : error).

(** How the [while True] of the player's turn is left. *)
Inductive loop_exit : Type :=
| Break
| Leave (e : ending).

(** The player's turn; [choices] are the answers the user will give,
    one for each call of [get_user_decision]. *)
Fixpoint player_loop (choices : list choice) (inbox : list recv_event)
         (s : t) : loop_exit * list choice * list recv_event * t :=
  let player_value := Client.calculate_hand_value (player_hand s) in
  if format_hand_raises (player_hand s) then
    (Leave (Raises KeyError), choices, inbox, s)
  else if 21 <? player_value then
    let s := add_loss s in
    let '(card_data, inbox) := recv inbox in
    (Leave (Returns true), choices, inbox, s)
  else
    match choices with
    | [] => (Leave Waits, [], inbox, s)
    | ch :: choices' =>
        let decision := decision_of ch in
        match create_client_payload decision with
        | Raise e => (Leave (Raises (CodecError e)), choices', inbox, s)
        | Ret message =>
            let s := sendall message s in
            if decide (decision = DECISION_STAND) then
              (Break, choices', inbox, s)
            else
              let '(card_data, inbox) := recv inbox in
              match card_data with
              | None => (Leave (Returns false), choices', inbox, s)
              | Some (result, rank, suit) =>
                  if rank =? 0 then
                    let s :=
                      if result =? RESULT_LOSS then add_loss s else s in
                    (Leave (Returns true), choices', inbox, s)
                  else
                    player_loop choices' inbox (append_player (rank, suit) s)
              end
        end
    end.

(** How the loop that receives the dealer's cards is left. *)
Inductive dealer_exit : Type :=
| Result (result : Z)
| Stop (e : ending).

Fixpoint dealer_loop (inbox : list recv_event) (s : t)
  : dealer_exit * list recv_event * t :=
  match inbox with
  | [] => (Stop (Returns false), [], s)
  | ev :: inbox' =>
      match receive_card ev with
      | None => (Stop (Returns false), inbox', s)
      | Some (result, rank, suit) =>
          if rank =? 0 then (Result result, inbox', s)
          else
            let s := append_dealer (rank, suit) s in
            let dealer_value :=
              Client.calculate_hand_value (dealer_hand s) in
            if format_hand_raises (dealer_hand s) then
              (Stop (Raises KeyError), inbox', s)
            else if 17 <=? dealer_value then
              let '(card_data, inbox'') := recv inbox' in
              match card_data with
              | None => (Stop (Returns false), inbox'', s)
              | Some (result, rank, suit) => (Result result, inbox'', s)
              end
            else dealer_loop inbox' s
      end
  end.

(** The last [if] chain of [play_round]. *)
Definition count_result (result : Z) (s : t) : t :=
  if result =? RESULT_WIN then add_win s
  else if result =? RESULT_LOSS then add_loss s
  else if result =? RESULT_TIE then add_tie s
  else s.

(** The dealer's turn and the end of [play_round]: the card held back
    arrives, then the dealer's cards, then the result is counted. *)
Definition dealer_turn (choices : list choice) (inbox : list recv_event)
           (s : t) : ending * list choice * list recv_event * t :=
  let '(card_data, inbox) := recv inbox in
  match card_data with
  | None => (Returns false, choices, inbox, s)
  | Some (result, rank, suit) =>
      let s := append_dealer (rank, suit) s in
      if format_hand_raises (dealer_hand s) then
        (Raises KeyError, choices, inbox, s)
      else
        match dealer_loop inbox s with
        | (Stop e, inbox, s) => (e, choices, inbox, s)
        | (Result result, inbox, s) =>
            if format_hand_raises (player_hand s)
               || format_hand_raises (dealer_hand s)
            then (Raises KeyError, choices, inbox, s)
            else (Returns true, choices, inbox, count_result result s)
        end
  end.

(** [play_round] from the check for a blackjack on. *)
Definition after_deal (choices : list choice) (inbox : list recv_event)
           (s : t) : ending * list choice * list recv_event * t :=
  let player_value := Client.calculate_hand_value (player_hand s) in
  if player_value =? 21 then
    let '(card_data, inbox) := recv inbox in
    let s :=
      match card_data with
      | Some (result, rank, suit) =>
          if result =? RESULT_WIN then add_win s else s
      | None => s
      end in
    (Returns true, choices, inbox, s)
  else
    match player_loop choices inbox s with
    | (Leave e, choices, inbox, s) => (e, choices, inbox, s)
    | (Break, choices, inbox, s) => dealer_turn choices inbox s
    end.

Definition play_round (choices : list choice) (inbox : list recv_event)
           (s : t) : ending * list choice * list recv_event * t :=
  let s := reset_hands s in
  (* player's first card *)
  let '(card_data, inbox) := recv inbox in
  match card_data with
  | None => (Returns false, choices, inbox, s)
  | Some (result, rank, suit) =>
  let s := append_player (rank, suit) s in
  (* player's second card *)
  let '(card_data, inbox) := recv inbox in
  match card_data with
  | None => (Returns false, choices, inbox, s)
  | Some (result, rank, suit) =>
  let s := append_player (rank, suit) s in
  (* dealer's visible card *)
  let '(card_data, inbox) := recv inbox in
  match card_data with
  | None => (Returns false, choices, inbox, s)
  | Some (result, rank, suit) =>
  let s := append_dealer (rank, suit) s in
  after_deal choices inbox s
  end end end.

(** The [for] loop of [play_all_rounds] over the rounds still to
    play. *)
Fixpoint play_rounds (rounds : nat) (choices : list choice)
         (inbox : list recv_event) (s : t)
  : ending * list choice * list recv_event * t :=
  match rounds with
  | O => (Returns true, choices, inbox, s)
  | S rounds' =>
      match play_round choices inbox s with
      | (Returns true, choices, inbox, s) =>
          play_rounds rounds' choices inbox s
      | r => r
      end
  end.

(** [play_all_rounds] with [self.num_rounds = num_rounds]; the range
    of the loop is empty when [num_rounds] is not positive. *)
Definition play_all_rounds (num_rounds : Z) (choices : list choice)
           (inbox : list recv_event) (s : t)
  : ending * list choice * list recv_event * t :=
  play_rounds (Z.to_nat num_rounds) choices inbox s.

End ClientGame.

(* ================================================================== *)
(** * A table without aces *)
(* ================================================================== *)

Module Table.
Import Protocol Server.

(** A game whose deck has, from the top, the ten of clubs and the six
    of hearts, the nine of diamonds and the five of spades, then the
    four of clubs and the eight of hearts. *)
Definition ace_free_game : Game :=
  mkGame (Deck.mk [(8, SUIT_HEART); (4, SUIT_CLUB); (5, SUIT_SPADE);
                   (9, SUIT_DIAMOND); (6, SUIT_HEART); (10, SUIT_CLUB)])
         0 [] [] [].

(** [BlackjackClient(...)]: empty hands, counters at zero. *)
Definition new_client : ClientGame.t := ClientGame.mk [] [] 0 0 0 [].

End Table.

(* ================================================================== *)
(** * Cards as text *)
(* ================================================================== *)

Module Display.
Import Protocol.

(** U+2665, U+2666, U+2663 and U+2660. *)
Definition SUIT_NAMES : list (Z * str) :=
  [(SUIT_HEART, [0x2665]); (SUIT_DIAMOND, [0x2666]);
   (SUIT_CLUB, [0x2663]); (SUIT_SPADE, [0x2660])].

Definition RANK_NAMES : list (Z * str) :=
  [(1, lit "A"); (2, lit "2"); (3, lit "3"); (4, lit "4"); (5, lit "5");
   (6, lit "6"); (7, lit "7"); (8, lit "8"); (9, lit "9"); (10, lit "10");
   (11, lit "J"); (12, lit "Q"); (13, lit "K")].

(** [d.get(k, default)]. *)
Definition get {V} (d : list (Z * V)) (k : Z) (default : V) : V :=
  match ClientGame.getitem d k with
  | Some v => v
  | None => default
  end.

Definition format_card (rank suit : Z) : str :=
  let rank_name := get RANK_NAMES rank (lit "?") in
  let suit_symbol := get SUIT_NAMES suit (lit "?") in
  rank_name ++ suit_symbol.

(** [sep.join(items)]. *)
Fixpoint join (sep : str) (items : list str) : str :=
  match items with
  | [] => []
  | [x] => x
  | x :: items' => x ++ sep ++ join sep items'
  end.

(** The card back, U+1F0A0. *)
Definition CARD_BACK : str := [0x1F0A0].

(** [BlackjackGame.format_hand]; [hand[0]] is read only when the hand
    has more than one card. *)
Definition format_hand (hand : list card) (hide_second : bool) : str :=
  let cards :=
    match hand with
    | c :: _ :: _ =>
        if hide_second then [format_card c.1 c.2; CARD_BACK]
        else map (fun '(rank, suit) => format_card rank suit) hand
    | _ => map (fun '(rank, suit) => format_card rank suit) hand
    end in
  join (lit " ") cards.

End Display.

(* ================================================================== *)
(** * Properties *)
(* ================================================================== *)

Module BytesFacts.

Lemma Z_of_byte_range b : 0 <= Z_of_byte b < 256.
Proof.
  unfold Z_of_byte. pose proof (Byte.to_N_bounded b). lia.
Qed.

Lemma Z_of_byte_of_Z v : 0 <= v < 256 -> Z_of_byte (byte_of_Z v) = v.
Proof.
  intros Hv. unfold Z_of_byte, byte_of_Z.
  destruct (Byte.of_N (Z.to_N v)) as [b|] eqn:E.
  - apply Byte.to_of_N in E. lia.
  - pose proof (Byte.to_of_N_option_map (Z.to_N v)) as H.
    rewrite E in H. simpl in H.
    destruct (N.leb_spec (Z.to_N v) 255); [discriminate | lia].
Qed.

Lemma byte_of_Z_of_byte b : byte_of_Z (Z_of_byte b) = b.
Proof.
  unfold Z_of_byte, byte_of_Z. rewrite N2Z.id, Byte.of_to_N. reflexivity.
Qed.

Lemma Z_of_byte_inj a b : Z_of_byte a = Z_of_byte b -> a = b.
Proof.
  intros H. rewrite <- (byte_of_Z_of_byte a), <- (byte_of_Z_of_byte b).
  now rewrite H.
Qed.

Lemma Z_of_byte_zero b : Z_of_byte b = 0 <-> b = x00.
Proof.
  split; [| intros ->; reflexivity].
  intros H. apply Z_of_byte_inj. rewrite H. reflexivity.
Qed.

(** ** Big-endian fields *)

Lemma be_decode_snoc l b : be_decode (l ++ [b]) = be_decode l * 256 + Z_of_byte b.
Proof. unfold be_decode. rewrite fold_left_app. reflexivity. Qed.

Lemma be_decode_range l : 0 <= be_decode l < 256 ^ Z.of_nat (length l).
Proof.
  induction l as [|b l IH] using rev_ind; [unfold be_decode; simpl; lia|].
  rewrite be_decode_snoc, length_app. simpl length.
  replace (Z.of_nat (length l + 1)) with (Z.succ (Z.of_nat (length l))) by lia.
  rewrite Z.pow_succ_r by lia.
  pose proof (Z_of_byte_range b). lia.
Qed.

Lemma length_be_encode n v : length (Struct.be_encode n v) = n.
Proof.
  revert v. induction n as [|n IH]; intros v; simpl; [reflexivity|].
  rewrite length_app, IH. simpl. lia.
Qed.

Lemma be_decode_encode n v :
  0 <= v < 256 ^ Z.of_nat n -> be_decode (Struct.be_encode n v) = v.
Proof.
  revert v. induction n as [|n IH]; intros v Hv.
  - change (256 ^ Z.of_nat 0) with 1 in Hv. unfold be_decode. simpl. lia.
  - cbn [Struct.be_encode]. rewrite be_decode_snoc.
    replace (Z.of_nat (S n)) with (Z.succ (Z.of_nat n)) in Hv by lia.
    rewrite Z.pow_succ_r in Hv by lia.
    rewrite IH, Z_of_byte_of_Z.
    + pose proof (Z.div_mod v 256). lia.
    + apply Z.mod_pos_bound. lia.
    + split; [apply Z.div_pos; lia|].
      apply Z.div_lt_upper_bound; lia.
Qed.

Lemma be_encode_decode l : Struct.be_encode (length l) (be_decode l) = l.
Proof.
  induction l as [|b l IH] using rev_ind; [reflexivity|].
  rewrite length_app, be_decode_snoc. simpl length.
  replace (length l + 1)%nat with (S (length l)) by lia.
  cbn [Struct.be_encode].
  pose proof (Z_of_byte_range b).
  replace ((be_decode l * 256 + Z_of_byte b) / 256) with (be_decode l).
  2:{ symmetry. rewrite Z.add_comm, Z.div_add by lia.
      rewrite Z.div_small by lia. lia. }
  replace ((be_decode l * 256 + Z_of_byte b) mod 256) with (Z_of_byte b).
  2:{ symmetry. rewrite Z.add_comm, Z.mod_add by lia.
      apply Z.mod_small. lia. }
  rewrite IH, byte_of_Z_of_byte. reflexivity.
Qed.

(** Two fields of the same width with the same value are the same
    bytes. *)
Lemma be_decode_inj l1 l2 :
  length l1 = length l2 -> be_decode l1 = be_decode l2 -> l1 = l2.
Proof.
  intros Hl Hd. rewrite <- (be_encode_decode l1), <- (be_encode_decode l2).
  now rewrite Hl, Hd.
Qed.

Lemma be_decode_singleton b : be_decode [b] = Z_of_byte b.
Proof. unfold be_decode. simpl. lia. Qed.

(** ** [rstrip] *)

Section Rstrip.
Context {A : Type} `{EqDecision A}.
Implicit Types (c x b : A) (l : list A).

Lemma rstrip_cons c x l :
rstrip c (x :: l) =
match rstrip c l with
| [] => if decide (x = c) then [] else [x]
| _ :: _ => x :: rstrip c l
end.
Proof. reflexivity. Qed.

Lemma rstrip_repeat c k : rstrip c (repeat c k) = [].
Proof.
induction k as [|k IH]; [reflexivity|].
simpl repeat. rewrite rstrip_cons, IH. now rewrite decide_True.
Qed.

(** A last byte other than [c] protects everything before it. *)
Lemma rstrip_snoc_ne c l b : b <> c -> rstrip c (l ++ [b]) = l ++ [b].
Proof.
intros Hb. induction l as [|x l IH].
- unfold rstrip. cbn. now rewrite decide_False.
- rewrite <- app_comm_cons, rstrip_cons, IH.
  destruct (l ++ [b]) eqn:E; [destruct l; discriminate | reflexivity].
Qed.

Lemma rstrip_snoc_eq c l : rstrip c (l ++ [c]) = rstrip c l.
Proof.
induction l as [|x l IH].
- unfold rstrip. cbn. now rewrite decide_True.
- rewrite <- app_comm_cons, !rstrip_cons, IH. reflexivity.
Qed.

(** The padding added by [ljust] is removed again. *)
Lemma rstrip_app_repeat c l k : rstrip c (l ++ repeat c k) = rstrip c l.
Proof.
induction k as [|k IH]; [now rewrite app_nil_r|].
cbn [repeat]. rewrite repeat_cons, app_assoc, rstrip_snoc_eq. exact IH.
Qed.

Lemma rstrip_id c l : last l <> Some c -> rstrip c l = l.
Proof.
destruct l as [|b l _] using rev_ind; [reflexivity|].
rewrite last_snoc. intros H. apply rstrip_snoc_ne. congruence.
Qed.

End Rstrip.

Lemma length_ljust n c l : (length l <= n)%nat -> length (ljust n c l) = n.
Proof. intros H. unfold ljust. rewrite length_app, repeat_length. lia. Qed.

End BytesFacts.

Module Utf8Facts.
Import Utf8 BytesFacts.

(** ** Bit operations as arithmetic *)

Lemma lor_disjoint k c y :
  0 <= k -> 0 <= y < 2 ^ k -> Z.land c (Z.ones k) = 0 -> Z.lor c y = c + y.
Proof.
  intros Hk Hy Hc. symmetry. apply Z.add_nocarry_lor.
  rewrite <- (Z.mod_small y (2 ^ k)) by lia.
  rewrite <- Z.land_ones by lia.
  rewrite (Z.land_comm y), Z.land_assoc, Hc. apply Z.land_0_l.
Qed.

Lemma land_3f x : Z.land x 0x3f = x mod 64.
Proof. change 0x3f with (Z.ones 6). rewrite Z.land_ones by lia. reflexivity. Qed.

Lemma shiftr_6 x : Z.shiftr x 6 = x / 64.
Proof. rewrite Z.shiftr_div_pow2 by lia. reflexivity. Qed.

Lemma shiftr_12 x : Z.shiftr x 12 = x / 4096.
Proof. rewrite Z.shiftr_div_pow2 by lia. reflexivity. Qed.

Lemma shiftr_18 x : Z.shiftr x 18 = x / 262144.
Proof. rewrite Z.shiftr_div_pow2 by lia. reflexivity. Qed.

Lemma shiftl_6 x : Z.shiftl x 6 = x * 64.
Proof. rewrite Z.shiftl_mul_pow2 by lia. reflexivity. Qed.

Lemma shiftl_12 x : Z.shiftl x 12 = x * 4096.
Proof. rewrite Z.shiftl_mul_pow2 by lia. reflexivity. Qed.

Lemma shiftl_18 x : Z.shiftl x 18 = x * 262144.
Proof. rewrite Z.shiftl_mul_pow2 by lia. reflexivity. Qed.

Lemma lor_80 y : 0 <= y < 64 -> Z.lor 0x80 y = 128 + y.
Proof. intros. apply (lor_disjoint 6); [lia | simpl; lia | reflexivity]. Qed.

Lemma lor_c0 y : 0 <= y < 64 -> Z.lor 0xc0 y = 192 + y.
Proof. intros. apply (lor_disjoint 6); [lia | simpl; lia | reflexivity]. Qed.

Lemma lor_e0 y : 0 <= y < 32 -> Z.lor 0xe0 y = 224 + y.
Proof. intros. apply (lor_disjoint 5); [lia | simpl; lia | reflexivity]. Qed.

Lemma lor_f0 y : 0 <= y < 16 -> Z.lor 0xf0 y = 240 + y.
Proof. intros. apply (lor_disjoint 4); [lia | simpl; lia | reflexivity]. Qed.

(** Continuation byte number [k] (from the right) of [ch]. *)
Lemma cont_byte x : Z.lor 0x80 (Z.land x 0x3f) = 128 + x mod 64.
Proof.
  rewrite land_3f. apply lor_80. apply Z.mod_pos_bound. lia.
Qed.

(** ** The encoder, in arithmetic *)

Ltac zb :=
  repeat match goal with
    | |- context [?a <? ?b] => destruct (Z.ltb_spec a b); try lia
    | |- context [?a <=? ?b] => destruct (Z.leb_spec a b); try lia
    | |- context [?a =? ?b] => destruct (Z.eqb_spec a b); try lia
    | H : context [?a <? ?b] |- _ => destruct (Z.ltb_spec a b); try lia
    | H : context [?a <=? ?b] |- _ => destruct (Z.leb_spec a b); try lia
    end.

Lemma encode_char_bytes ch :
  encodable_char ch -> encode_char ch = Ret (char_bytes ch).
Proof.
  intros [Hr Hs]. unfold encode_char, char_bytes.
  rewrite !cont_byte, !shiftr_6, !shiftr_12, !shiftr_18.
  destruct (Z.ltb_spec ch 0x80); [reflexivity|].
  destruct (Z.ltb_spec ch 0x800).
  { rewrite lor_c0; [reflexivity|]. Z.div_mod_to_equations. lia. }
  rewrite Hs.
  destruct (Z.ltb_spec ch 0x10000).
  { rewrite lor_e0; [reflexivity|]. Z.div_mod_to_equations. lia. }
  rewrite lor_f0; [reflexivity|]. Z.div_mod_to_equations. lia.
Qed.

Lemma length_char_bytes ch : length (char_bytes ch) = char_len ch.
Proof. unfold char_bytes, char_len. zb; reflexivity. Qed.

Lemma encode_char_raises ch :
  is_surrogate ch = true -> encode_char ch = Raise UnicodeEncodeError.
Proof.
  intros Hs. unfold encode_char. rewrite Hs.
  unfold is_surrogate in Hs. apply andb_true_iff in Hs as [H1 H2].
  zb. reflexivity.
Qed.

Lemma encode_ret s :
  encodable s -> encode s = Ret (concat (map char_bytes s)).
Proof.
  induction 1 as [|ch s Hch _ IH]; [reflexivity|].
  cbn [encode map concat]. rewrite encode_char_bytes, IH by assumption.
  reflexivity.
Qed.

End Utf8Facts.

Module DecoderFacts.
Import Utf8 BytesFacts Utf8Facts.

(** One pass of the decoder's loop, leaving the calls on the rest of
    the input folded. *)
Ltac decode_step :=
  match goal with
  | |- context [decode_ignore (?b :: ?r)] =>
      let r1 := fresh "r" in
      let E := fresh "E" in
      remember r as r1 eqn:E in |- *;
      cbn [decode_ignore]; subst r1;
      repeat (cbv beta iota zeta; unfold is_continuation;
              rewrite ?shiftl_6, ?shiftl_12, ?shiftl_18;
              zb; cbn [negb andb orb])
  end.

(** ** One step of the decoder on well-formed input *)

Lemma decode_1 b r :
  Z_of_byte b < 0x80 ->
  decode_ignore (b :: r) = Z_of_byte b :: decode_ignore r.
Proof. intros. decode_step; reflexivity. Qed.

Lemma decode_2 b1 b2 r :
  0xC2 <= Z_of_byte b1 < 0xE0 -> 0x80 <= Z_of_byte b2 < 0xC0 ->
  decode_ignore (b1 :: b2 :: r) =
  (Z_of_byte b1 * 64 + Z_of_byte b2 - 12416) :: decode_ignore r.
Proof.
  intros. decode_step; f_equal; lia.
Qed.

Lemma decode_3 b1 b2 b3 r :
  0xE0 <= Z_of_byte b1 < 0xF0 ->
  0x80 <= Z_of_byte b2 < 0xC0 -> 0x80 <= Z_of_byte b3 < 0xC0 ->
  (Z_of_byte b1 = 0xE0 -> 0xA0 <= Z_of_byte b2) ->
  (Z_of_byte b1 = 0xED -> Z_of_byte b2 < 0xA0) ->
  decode_ignore (b1 :: b2 :: b3 :: r) =
  (Z_of_byte b1 * 4096 + Z_of_byte b2 * 64 + Z_of_byte b3 - 925824)
    :: decode_ignore r.
Proof.
  intros. decode_step; f_equal; lia.
Qed.

Lemma decode_4 b1 b2 b3 b4 r :
  0xF0 <= Z_of_byte b1 < 0xF5 ->
  0x80 <= Z_of_byte b2 < 0xC0 -> 0x80 <= Z_of_byte b3 < 0xC0 ->
  0x80 <= Z_of_byte b4 < 0xC0 ->
  (Z_of_byte b1 = 0xF0 -> 0x90 <= Z_of_byte b2) ->
  (Z_of_byte b1 = 0xF4 -> Z_of_byte b2 < 0x90) ->
  decode_ignore (b1 :: b2 :: b3 :: b4 :: r) =
  (Z_of_byte b1 * 262144 + Z_of_byte b2 * 4096 + Z_of_byte b3 * 64
   + Z_of_byte b4 - 63447168) :: decode_ignore r.
Proof.
  intros. decode_step; f_equal; lia.
Qed.

(** ** Data that ends inside a sequence *)

Lemma decode_cut_1 b1 :
  0xC2 <= Z_of_byte b1 < 0xF5 -> decode_ignore [b1] = [].
Proof. intros. decode_step; reflexivity. Qed.

Lemma decode_cut_2 b1 b2 :
  0xE0 <= Z_of_byte b1 < 0xF5 -> 0x80 <= Z_of_byte b2 < 0xC0 ->
  (Z_of_byte b1 = 0xE0 -> 0xA0 <= Z_of_byte b2) ->
  (Z_of_byte b1 = 0xED -> Z_of_byte b2 < 0xA0) ->
  (Z_of_byte b1 = 0xF0 -> 0x90 <= Z_of_byte b2) ->
  (Z_of_byte b1 = 0xF4 -> Z_of_byte b2 < 0x90) ->
  decode_ignore [b1; b2] = [].
Proof.
  intros. decode_step; reflexivity.
Qed.

Lemma decode_cut_3 b1 b2 b3 :
  0xF0 <= Z_of_byte b1 < 0xF5 ->
  0x80 <= Z_of_byte b2 < 0xC0 -> 0x80 <= Z_of_byte b3 < 0xC0 ->
  (Z_of_byte b1 = 0xF0 -> 0x90 <= Z_of_byte b2) ->
  (Z_of_byte b1 = 0xF4 -> Z_of_byte b2 < 0x90) ->
  decode_ignore [b1; b2; b3] = [].
Proof.
  intros. decode_step; reflexivity.
Qed.

(** ** Decoding what the encoder wrote *)

Ltac dm := Z.div_mod_to_equations; lia.

Lemma surrogate_false ch :
  is_surrogate ch = false -> ch < 0xD800 \/ 0xDFFF < ch.
Proof.
  unfold is_surrogate. intros H. apply andb_false_iff in H as [H|H].
  - apply Z.leb_gt in H. lia.
  - apply Z.leb_gt in H. lia.
Qed.

Lemma decode_char ch r :
  encodable_char ch ->
  decode_ignore (char_bytes ch ++ r) = ch :: decode_ignore r.
Proof.
  intros [Hr Hs]. apply surrogate_false in Hs. unfold char_bytes.
  destruct (Z.ltb_spec ch 0x80).
  { cbn [app]. rewrite decode_1; rewrite Z_of_byte_of_Z; (reflexivity || lia). }
  destruct (Z.ltb_spec ch 0x800).
  { cbn [app].
    assert (0 <= ch / 64 < 32) by dm. assert (2 <= ch / 64) by dm.
    assert (0 <= ch mod 64 < 64) by dm.
    rewrite decode_2; rewrite ?Z_of_byte_of_Z; try lia.
    f_equal. dm. }
  destruct (Z.ltb_spec ch 0x10000).
  { cbn [app].
    assert (0 <= ch / 4096 < 16) by dm.
    assert (0 <= (ch / 64) mod 64 < 64) by dm.
    assert (0 <= ch mod 64 < 64) by dm.
    rewrite decode_3; rewrite ?Z_of_byte_of_Z; try lia; try dm.
    f_equal. dm. }
  cbn [app].
  assert (0 <= ch / 262144 < 5) by dm.
  assert (0 <= (ch / 4096) mod 64 < 64) by dm.
  assert (0 <= (ch / 64) mod 64 < 64) by dm.
  assert (0 <= ch mod 64 < 64) by dm.
  rewrite decode_4; rewrite ?Z_of_byte_of_Z; try lia; try dm.
  f_equal. dm.
Qed.

Lemma decode_concat s r :
  encodable s ->
  decode_ignore (concat (map char_bytes s) ++ r) = s ++ decode_ignore r.
Proof.
  induction 1 as [|ch s Hch _ IH]; [reflexivity|].
  cbn [map concat]. rewrite <- app_assoc, decode_char by assumption.
  rewrite IH. reflexivity.
Qed.

(** [decode(encode(s)) = s] *)
Lemma decode_encode s b :
  encodable s -> encode s = Ret b -> decode_ignore b = s.
Proof.
  intros Hs He. rewrite encode_ret in He by assumption.
  injection He as <-.
  rewrite <- (app_nil_r (concat _)), decode_concat by assumption.
  apply app_nil_r.
Qed.

(** A proper, non-empty prefix of one character's bytes decodes to
    nothing, and does not end in a zero byte. *)
Lemma decode_cut_char ch k :
  encodable_char ch -> (0 < k < char_len ch)%nat ->
  decode_ignore (take k (char_bytes ch)) = [] /\
  last (take k (char_bytes ch)) <> Some x00.
Proof.
  intros [Hr Hs] Hk. apply surrogate_false in Hs.
  unfold char_len in Hk. unfold char_bytes.
  assert (Hnz : forall v, 0 < v < 256 -> byte_of_Z v <> x00).
  { intros v Hv E. apply (f_equal Z_of_byte) in E.
    rewrite Z_of_byte_of_Z in E by lia. change (Z_of_byte x00) with 0 in E. lia. }
  destruct (Z.ltb_spec ch 0x80); [lia|].
  destruct (Z.ltb_spec ch 0x800).
  { assert (k = 1%nat) as -> by lia. cbn [take].
    assert (0 <= ch / 64 < 32) by dm. assert (2 <= ch / 64) by dm.
    split.
    - apply decode_cut_1. rewrite Z_of_byte_of_Z; lia.
    - cbn. intros [= E]. revert E. apply Hnz. lia. }
  destruct (Z.ltb_spec ch 0x10000).
  { assert (0 <= ch / 4096 < 16) by dm.
    assert (0 <= (ch / 64) mod 64 < 64) by dm.
    assert (k = 1 \/ k = 2)%nat as [-> | ->] by lia; cbn [take].
    - split.
      + apply decode_cut_1. rewrite Z_of_byte_of_Z; lia.
      + cbn. intros [= E]. revert E. apply Hnz. lia.
    - split.
      + apply decode_cut_2; rewrite ?Z_of_byte_of_Z; try lia; try dm.
      + cbn. intros [= E]. revert E. apply Hnz. lia. }
  assert (0 <= ch / 262144 < 5) by dm.
  assert (0 <= (ch / 4096) mod 64 < 64) by dm.
  assert (0 <= (ch / 64) mod 64 < 64) by dm.
  assert (k = 1 \/ k = 2 \/ k = 3)%nat as [-> | [-> | ->]] by lia; cbn [take].
  - split.
    + apply decode_cut_1. rewrite Z_of_byte_of_Z; lia.
    + cbn. intros [= E]. revert E. apply Hnz. lia.
  - split.
    + apply decode_cut_2; rewrite ?Z_of_byte_of_Z; try lia; try dm.
    + cbn. intros [= E]. revert E. apply Hnz. lia.
  - split.
    + apply decode_cut_3; rewrite ?Z_of_byte_of_Z; try lia; try dm.
    + cbn. intros [= E]. revert E. apply Hnz. lia.
Qed.

End DecoderFacts.

Module NameFacts.
Import Utf8 BytesFacts Utf8Facts DecoderFacts Protocol.

#[local] Abbreviation enc s := (encoded s).

Lemma utf8_len_cons ch s : utf8_len (ch :: s) = (char_len ch + utf8_len s)%nat.
Proof. reflexivity. Qed.

Lemma length_enc s : length (enc s) = utf8_len s.
Proof.
  induction s as [|ch s IH]; [reflexivity|].
  cbn [map concat]. rewrite length_app, length_char_bytes, IH, utf8_len_cons.
  reflexivity.
Qed.

Lemma char_len_pos ch : (0 < char_len ch)%nat.
Proof. unfold char_len. repeat case_match; lia. Qed.

Lemma fit_encodable n s : encodable s -> encodable (fit n s).
Proof.
  intros Hs. revert n. induction Hs as [|ch s Hch _ IH]; intros n; cbn [fit].
  - constructor.
  - case_match; [constructor; [assumption | apply IH] | constructor].
Qed.

Lemma fit_all n s : (utf8_len s <= n)%nat -> fit n s = s.
Proof.
  revert n. induction s as [|ch s IH]; intros n Hn; [reflexivity|].
  rewrite utf8_len_cons in Hn. cbn [fit].
  destruct (Nat.leb_spec (char_len ch) n); [|lia].
  rewrite IH by lia. reflexivity.
Qed.

Lemma fit_len n s : (utf8_len (fit n s) <= n)%nat.
Proof.
  revert n. induction s as [|ch s IH]; intros n; cbn [fit].
  - change (utf8_len []) with 0%nat. lia.
  - destruct (Nat.leb_spec (char_len ch) n);
      [|change (utf8_len []) with 0%nat; lia].
    rewrite utf8_len_cons. specialize (IH (n - char_len ch)%nat). lia.
Qed.

(** Cutting an encoded string after [n] bytes keeps the characters that
    fit and, possibly, the first bytes of the next one. *)
Lemma take_encoded n s :
  encodable s ->
  exists partial,
    take n (enc s) = enc (fit n s) ++ partial /\
    (partial = [] \/
     (partial <> [] /\ decode_ignore partial = [] /\
      last partial <> Some x00)).
Proof.
  intros Hs. revert n. induction Hs as [|ch s Hch Hs IH]; intros n.
  - exists []. split; [destruct n; reflexivity | now left].
  - cbn [map concat fit].
    destruct (Nat.leb_spec (char_len ch) n) as [Hle|Hgt].
    + destruct (IH (n - char_len ch)%nat) as (p & Hp & Hcase).
      exists p. split; [|exact Hcase].
      rewrite take_app_ge by (rewrite length_char_bytes; lia).
      rewrite length_char_bytes, Hp. cbn [map concat].
      now rewrite app_assoc.
    + exists (take n (char_bytes ch)). split.
      * rewrite take_app_le by (rewrite length_char_bytes; lia). reflexivity.
      * destruct n as [|n]; [now left | right]. split.
        { pose proof (length_char_bytes ch) as Hl.
          pose proof (char_len_pos ch).
          destruct (char_bytes ch); [simpl in Hl; lia | discriminate]. }
        apply decode_cut_char; [assumption | lia].
Qed.

(** A zero byte in an encoding is the character U+0000. *)
Lemma last_char_bytes ch :
  encodable_char ch -> ch <> 0 -> exists l b,
    char_bytes ch = l ++ [b] /\ b <> x00.
Proof.
  intros [Hr Hs] Hnz. apply surrogate_false in Hs.
  assert (Hb : forall v, 0 < v < 256 -> byte_of_Z v <> x00).
  { intros v Hv E. apply (f_equal Z_of_byte) in E.
    rewrite Z_of_byte_of_Z in E by lia. change (Z_of_byte x00) with 0 in E. lia. }
  assert (0 <= ch mod 64 < 64) by (Z.div_mod_to_equations; lia).
  unfold char_bytes. repeat case_match.
  - exists [], (byte_of_Z ch). split; [reflexivity | apply Hb; lia].
  - eexists [_], _. split; [reflexivity | apply Hb; lia].
  - eexists [_; _], _. split; [reflexivity | apply Hb; lia].
  - eexists [_; _; _], _. split; [reflexivity | apply Hb; lia].
Qed.

Lemma rstrip_enc s :
  encodable s -> rstrip x00 (enc s) = enc (rstrip 0 s).
Proof.
  induction s as [|ch s IH] using rev_ind; intros Hs; [reflexivity|].
  apply Forall_app in Hs as [Hs Hch]. apply Forall_inv in Hch.
  rewrite map_app, concat_app. cbn [map concat]. rewrite app_nil_r.
  destruct (decide (ch = 0)) as [->|Hnz].
  - change (char_bytes 0) with [x00].
    rewrite !rstrip_snoc_eq. auto.
  - destruct (last_char_bytes ch Hch Hnz) as (l & b & El & Hb).
    rewrite (rstrip_snoc_ne 0 s ch Hnz), map_app, concat_app.
    cbn [map concat]. rewrite app_nil_r, El, app_assoc.
    apply rstrip_snoc_ne. exact Hb.
Qed.

Lemma rstrip_encodable s : encodable s -> encodable (rstrip 0 s).
Proof.
  induction s as [|ch s IH] using rev_ind; intros Hs; [constructor|].
  destruct (decide (ch = 0)) as [->|Hnz].
  - rewrite rstrip_snoc_eq. apply IH. now apply Forall_app in Hs as [Hs _].
  - now rewrite rstrip_snoc_ne.
Qed.

(** Writing a field: cut to [n] bytes, pad with zeros. *)
Lemma length_field n (b : bytes) : length (ljust n x00 (take n b)) = n.
Proof. apply length_ljust. rewrite length_take. lia. Qed.

(** Reading it back. *)
Lemma field_decode n s :
  encodable s ->
  decode_ignore (rstrip x00 (ljust n x00 (take n (enc s)))) = field_trip n s.
Proof.
  intros Hs. unfold ljust, field_trip. rewrite rstrip_app_repeat.
  destruct (take_encoded n s Hs) as (p & Hp & Hcase).
  assert (Hlen : (Nat.min n (utf8_len s) = utf8_len (fit n s) + length p)%nat).
  { apply (f_equal length) in Hp.
    rewrite length_take, length_app, !length_enc in Hp. lia. }
  rewrite Hp.
  destruct Hcase as [-> | (Hne & Hd & Hl)].
  - rewrite app_nil_r. simpl in Hlen.
    assert ((utf8_len s <=? n)%nat || (utf8_len (fit n s) =? n)%nat = true)
      as ->.
    { apply orb_true_iff.
      destruct (Nat.le_gt_cases (utf8_len s) n);
        [left; apply Nat.leb_le | right; apply Nat.eqb_eq]; lia. }
    rewrite rstrip_enc by (now apply fit_encodable).
    rewrite <- (app_nil_r (enc _)), decode_concat, app_nil_r; [reflexivity|].
    apply rstrip_encodable. now apply fit_encodable.
  - assert (0 < length p)%nat by (destruct p; [contradiction | simpl; lia]).
    assert ((utf8_len s <=? n)%nat || (utf8_len (fit n s) =? n)%nat = false)
      as ->.
    { apply orb_false_iff. split; [apply Nat.leb_gt | apply Nat.eqb_neq].
      - destruct (Nat.le_gt_cases (utf8_len s) n) as [Hle|]; [|assumption].
        rewrite (fit_all _ _ Hle) in Hlen. lia.
      - pose proof (fit_len n s). lia. }
    assert (Hr : rstrip x00 (enc (fit n s) ++ p) = enc (fit n s) ++ p).
    { clear Hd Hp Hlen. destruct p as [|b p' _] using rev_ind; [contradiction|].
      rewrite last_snoc in Hl. rewrite app_assoc.
      apply rstrip_snoc_ne. congruence. }
    rewrite Hr, decode_concat, Hd, app_nil_r by (now apply fit_encodable).
    reflexivity.
Qed.

(** A string that fits and does not end in U+0000 comes back whole. *)
Lemma field_trip_id n s :
  (utf8_len s <= n)%nat -> last s <> Some 0 -> field_trip n s = s.
Proof.
  intros Hn Hl. unfold field_trip. rewrite fit_all by assumption.
  destruct (Nat.leb_spec (utf8_len s) n); [|lia]. cbn [orb].
  now apply rstrip_id.
Qed.

Lemma pad_name_ret name :
  encodable name ->
  pad_name name = Ret (ljust NAME_SIZE x00 (take NAME_SIZE (enc name))).
Proof.
  intros Hs. unfold pad_name. rewrite encode_ret by assumption.
  cbn [mbind exc_bind Exc.bind]. rewrite length_enc.
  destruct (Nat.ltb_spec NAME_SIZE (utf8_len name)) as [Hlong|Hshort].
  - f_equal. unfold ljust. rewrite length_take, length_enc.
    replace (_ - _)%nat with 0%nat by lia. now rewrite app_nil_r.
  - rewrite take_ge by (rewrite length_enc; lia). reflexivity.
Qed.

Lemma unpad_pad name b :
  encodable name -> pad_name name = Ret b ->
  length b = NAME_SIZE /\ unpad_name b = field_trip NAME_SIZE name.
Proof.
  intros Hs Hp. rewrite pad_name_ret in Hp by assumption.
  injection Hp as <-. split; [apply length_field|].
  now apply field_decode.
Qed.

End NameFacts.

Module ProtocolFacts.
Import Utf8 Struct Protocol BytesFacts Utf8Facts DecoderFacts NameFacts.

(** ** Slices *)

Lemma length_slice i j (l : bytes) :
  (j <= length l)%nat -> length (slice i j l) = (j - i)%nat.
Proof. intros. unfold slice. rewrite length_take, length_drop. lia. Qed.

Lemma slice_take i j k (l : bytes) :
  (j <= k)%nat -> slice i j (take k l) = slice i j l.
Proof.
  intros. unfold slice. rewrite skipn_firstn_comm, take_take.
  f_equal. lia.
Qed.

Lemma slice_slice0 i j k (l : bytes) :
  (j <= k)%nat -> slice i j (slice 0 k l) = slice i j l.
Proof.
  intros. unfold slice at 2. rewrite drop_0, Nat.sub_0_r. now apply slice_take.
Qed.

Lemma slice_app_l i j (l1 l2 : bytes) :
  (j <= length l1)%nat -> slice i j (l1 ++ l2) = slice i j l1.
Proof.
  intros. unfold slice.
  destruct (Nat.le_gt_cases i j).
  - rewrite drop_app_le by lia. rewrite take_app_le; [reflexivity|].
    rewrite length_drop. lia.
  - replace (j - i)%nat with 0%nat by lia. reflexivity.
Qed.

Lemma slice_0 j (l : bytes) : slice 0 j l = take j l.
Proof. unfold slice. now rewrite drop_0, Nat.sub_0_r. Qed.

Lemma slice_one i (l : bytes) b : l !! i = Some b -> slice i (S i) l = [b].
Proof.
  intros H. unfold slice. replace (S i - i)%nat with 1%nat by lia.
  revert i H. induction l as [|x l IH]; intros [|i] H; try discriminate.
  - injection H as ->. reflexivity.
  - cbn [drop]. apply IH. exact H.
Qed.

Lemma slice_one_inv i (l : bytes) b :
  (i < length l)%nat -> slice i (S i) l = [b] -> l !! i = Some b.
Proof.
  intros Hi H. destruct (lookup_lt_is_Some_2 l i Hi) as [x Hx].
  rewrite (slice_one _ _ _ Hx) in H. injection H as <-. exact Hx.
Qed.

(** ** Reading the frame *)

Lemma magic_bytes_eq : be_encode 4 MAGIC_COOKIE = MAGIC_BYTES.
Proof. reflexivity. Qed.

Lemma magic_field (l : bytes) :
  length l = 4%nat -> (be_decode l =? MAGIC_COOKIE) = bool_decide (l = MAGIC_BYTES).
Proof.
  intros Hl. destruct (Z.eqb_spec (be_decode l) MAGIC_COOKIE) as [E|E].
  - symmetry. apply bool_decide_eq_true. apply be_decode_inj; [exact Hl | exact E].
  - symmetry. apply bool_decide_eq_false. intros ->. apply E. reflexivity.
Qed.

Lemma tag_field (l : bytes) (tag : byte) :
  length l = 1%nat -> (be_decode l =? Z_of_byte tag) = bool_decide (l = [tag]).
Proof.
  intros Hl. destruct l as [|b [|]]; try discriminate.
  rewrite be_decode_singleton.
  destruct (Z.eqb_spec (Z_of_byte b) (Z_of_byte tag)) as [E|E].
  - apply Z_of_byte_inj in E as ->. symmetry. now apply bool_decide_eq_true.
  - symmetry. apply bool_decide_eq_false. intros [= ->]. now apply E.
Qed.

(** The test every parser makes on the unpacked magic and type. *)
Lemma frame_test size tag (data : bytes) :
  (5 <= size)%nat -> (size <= length data)%nat ->
  negb (be_decode (slice 0 4 data) =? MAGIC_COOKIE)
  || negb (be_decode (slice 4 5 data) =? Z_of_byte tag)
  = negb (bool_decide (framed size tag data)).
Proof.
  intros Hs Hl.
  rewrite magic_field, (tag_field _ tag) by (rewrite length_slice; lia).
  rewrite <- negb_andb. f_equal. rewrite slice_0.
  destruct (decide (take 4 data = MAGIC_BYTES)) as [Em|Em].
  - rewrite (bool_decide_eq_true_2 _ Em). cbn [andb].
    destruct (decide (slice 4 5 data = [tag])) as [Et|Et].
    + rewrite (bool_decide_eq_true_2 _ Et). symmetry.
      apply bool_decide_eq_true. repeat split; try assumption.
      apply slice_one_inv; [lia | assumption].
    + rewrite (bool_decide_eq_false_2 _ Et). symmetry.
      apply bool_decide_eq_false. intros (_ & _ & Ht).
      apply Et. now apply slice_one.
  - rewrite (bool_decide_eq_false_2 _ Em). symmetry.
    apply bool_decide_eq_false. now intros (_ & ? & _).
Qed.

(** ** What each parser computes *)

Lemma parse_offer_message_eq data :
  parse_offer_message data =
  Ret (if bool_decide (framed 39 x02 data)
       then Some (be_decode (slice 5 7 data), unpad_name (slice 7 39 data))
       else None).
Proof.
  unfold parse_offer_message.
  destruct (Nat.ltb_spec (length data) 39) as [Hlt|Hge].
  { rewrite bool_decide_eq_false_2; [reflexivity|]. intros (? & _). lia. }
  unfold unpack_IBH. rewrite length_slice by lia. cbn [Nat.eqb Nat.sub].
  rewrite !slice_slice0 by lia.
  cbn [mbind exc_bind Exc.bind].
  change MSG_TYPE_OFFER with (Z_of_byte x02).
  rewrite (frame_test 39) by lia.
  now destruct (bool_decide _).
Qed.

Lemma parse_request_message_eq data :
  parse_request_message data =
  Ret (if bool_decide (framed 38 x03 data)
       then Some (be_decode (slice 5 6 data), unpad_name (slice 6 38 data))
       else None).
Proof.
  unfold parse_request_message.
  destruct (Nat.ltb_spec (length data) 38) as [Hlt|Hge].
  { rewrite bool_decide_eq_false_2; [reflexivity|]. intros (? & _). lia. }
  unfold unpack_IBB. rewrite length_slice by lia. cbn [Nat.eqb Nat.sub].
  rewrite !slice_slice0 by lia.
  cbn [mbind exc_bind Exc.bind].
  change MSG_TYPE_REQUEST with (Z_of_byte x03).
  rewrite (frame_test 38) by lia.
  now destruct (bool_decide _).
Qed.

Lemma parse_client_payload_eq data :
  parse_client_payload data =
  Ret (if bool_decide (framed 10 x04 data)
       then Some (decode_ignore (rstrip x00 (slice 5 10 data)))
       else None).
Proof.
  unfold parse_client_payload.
  destruct (Nat.ltb_spec (length data) 10) as [Hlt|Hge].
  { rewrite bool_decide_eq_false_2; [reflexivity|]. intros (? & _). lia. }
  unfold unpack_IB. rewrite length_slice by lia. cbn [Nat.eqb Nat.sub].
  rewrite !slice_slice0 by lia.
  cbn [mbind exc_bind Exc.bind].
  change MSG_TYPE_PAYLOAD with (Z_of_byte x04).
  rewrite (frame_test 10) by lia.
  now destruct (bool_decide _).
Qed.

Lemma parse_server_payload_eq data :
  parse_server_payload data =
  Ret (if bool_decide (framed 9 x04 data)
       then Some (be_decode (slice 5 6 data), be_decode (slice 6 8 data),
                  be_decode (slice 8 9 data))
       else None).
Proof.
  unfold parse_server_payload.
  destruct (Nat.ltb_spec (length data) 9) as [Hlt|Hge].
  { rewrite bool_decide_eq_false_2; [reflexivity|]. intros (? & _). lia. }
  unfold unpack_IBBHB. rewrite length_slice by lia. cbn [Nat.eqb Nat.sub].
  rewrite !slice_slice0 by lia.
  cbn [mbind exc_bind Exc.bind].
  change MSG_TYPE_PAYLOAD with (Z_of_byte x04).
  rewrite (frame_test 9) by lia.
  now destruct (bool_decide _).
Qed.

(** Bytes after the fixed size play no part. *)
Lemma framed_app size tag data extra :
  (5 <= size)%nat -> (size <= length data)%nat ->
  framed size tag (data ++ extra) <-> framed size tag data.
Proof.
  intros Hs Hl. unfold framed.
  rewrite take_app_le by lia. rewrite lookup_app_l by lia.
  rewrite length_app. intuition lia.
Qed.

End ProtocolFacts.

Module CodecFacts.
Import Utf8 Struct Protocol BytesFacts Utf8Facts DecoderFacts NameFacts ProtocolFacts.

(** ** Writing the fields *)

Lemma pack_uint_ret n v :
  0 <= v < 256 ^ Z.of_nat n -> pack_uint n v = Ret (be_encode n v).
Proof.
  intros Hv. unfold pack_uint.
  destruct (Z.leb_spec 0 v); [|lia].
  destruct (Z.ltb_spec v (256 ^ Z.of_nat n)); [|lia]. reflexivity.
Qed.

Lemma pack_uint_raise n v :
  ~ (0 <= v < 256 ^ Z.of_nat n) -> pack_uint n v = Raise StructError.
Proof.
  intros Hv. unfold pack_uint.
  destruct (Z.leb_spec 0 v); destruct (Z.ltb_spec v (256 ^ Z.of_nat n));
    try reflexivity. lia.
Qed.

Lemma slice_mid i j (pre a post : bytes) :
  length pre = i -> length a = (j - i)%nat ->
  slice i j (pre ++ a ++ post) = a.
Proof.
  intros <- Ha. unfold slice. rewrite drop_app_length, <- Ha.
  apply take_app_length.
Qed.

Lemma create_offer_message_ret tcp_port name :
  0 <= tcp_port <= 65535 -> encodable name ->
  create_offer_message tcp_port name = Ret (offer_bytes tcp_port name).
Proof.
  intros Hp Hn. unfold create_offer_message, pack_IBH.
  rewrite !pack_uint_ret, pad_name_ret by (assumption || (simpl; lia) || (vm_compute; split; congruence)).
  reflexivity.
Qed.

Lemma create_request_message_ret num_rounds name :
  0 <= num_rounds <= 255 -> encodable name ->
  create_request_message num_rounds name = Ret (request_bytes num_rounds name).
Proof.
  intros Hp Hn. unfold create_request_message, pack_IBB.
  rewrite !pack_uint_ret, pad_name_ret by (assumption || (simpl; lia) || (vm_compute; split; congruence)).
  reflexivity.
Qed.

Lemma create_client_payload_ret decision :
  encodable decision ->
  create_client_payload decision = Ret (client_bytes decision).
Proof.
  intros Hd. unfold create_client_payload, pack_IB.
  rewrite encode_ret by assumption.
  rewrite !pack_uint_ret by (vm_compute; split; congruence).
  unfold client_bytes. rewrite app_nil_r. reflexivity.
Qed.

Lemma create_server_payload_ret result rank suit :
  0 <= result <= 255 -> 0 <= rank <= 65535 -> 0 <= suit <= 255 ->
  create_server_payload result rank suit = Ret (server_bytes result rank suit).
Proof.
  intros Hr Hk Hs. unfold create_server_payload, pack_IBBHB.
  rewrite !pack_uint_ret by ((simpl; lia) || (vm_compute; split; congruence)).
  reflexivity.
Qed.

Lemma framed_prefix size tag rest :
  (size <= 5 + length rest)%nat -> framed size tag ((MAGIC_BYTES ++ [tag]) ++ rest).
Proof.
  intros Hl. repeat split. rewrite length_app. simpl. lia.
Qed.

(** ** Reading them back *)

Lemma parse_offer_bytes tcp_port name extra :
  0 <= tcp_port <= 65535 -> encodable name ->
  parse_offer_message (offer_bytes tcp_port name ++ extra) =
  Ret (Some (tcp_port, field_trip NAME_SIZE name)).
Proof.
  intros Hp Hn. rewrite parse_offer_message_eq. unfold offer_bytes.
  rewrite <- !app_assoc.
  rewrite bool_decide_eq_true_2.
  2:{ rewrite app_assoc. apply framed_prefix.
      rewrite !length_app, length_be_encode, length_field. simpl. lia. }
  rewrite (app_assoc MAGIC_BYTES).
  rewrite (slice_mid 5 7) by (reflexivity || apply length_be_encode).
  rewrite (app_assoc _ (be_encode 2 tcp_port)).
  rewrite (slice_mid 7 39)
    by (rewrite ?length_app, ?length_be_encode; (reflexivity || apply length_field)).
  unfold unpad_name. rewrite field_decode, be_decode_encode by (assumption || (simpl; lia)).
  reflexivity.
Qed.

Lemma parse_request_bytes num_rounds name extra :
  0 <= num_rounds <= 255 -> encodable name ->
  parse_request_message (request_bytes num_rounds name ++ extra) =
  Ret (Some (num_rounds, field_trip NAME_SIZE name)).
Proof.
  intros Hp Hn. rewrite parse_request_message_eq. unfold request_bytes.
  rewrite <- !app_assoc.
  rewrite bool_decide_eq_true_2.
  2:{ rewrite app_assoc. apply framed_prefix.
      rewrite !length_app, length_be_encode, length_field. simpl. lia. }
  rewrite (app_assoc MAGIC_BYTES).
  rewrite (slice_mid 5 6) by (reflexivity || apply length_be_encode).
  rewrite (app_assoc _ (be_encode 1 num_rounds)).
  rewrite (slice_mid 6 38)
    by (rewrite ?length_app, ?length_be_encode; (reflexivity || apply length_field)).
  unfold unpad_name. rewrite field_decode, be_decode_encode by (assumption || (simpl; lia)).
  reflexivity.
Qed.

Lemma parse_client_bytes decision extra :
  encodable decision ->
  parse_client_payload (client_bytes decision ++ extra) =
  Ret (Some (field_trip 5 decision)).
Proof.
  intros Hd. rewrite parse_client_payload_eq. unfold client_bytes.
  rewrite <- !app_assoc.
  rewrite bool_decide_eq_true_2.
  2:{ rewrite app_assoc. apply framed_prefix.
      rewrite !length_app, length_field. simpl. lia. }
  rewrite (app_assoc MAGIC_BYTES).
  rewrite (slice_mid 5 10) by (reflexivity || apply length_field).
  rewrite field_decode by assumption. reflexivity.
Qed.

Lemma parse_server_bytes result rank suit extra :
  0 <= result <= 255 -> 0 <= rank <= 65535 -> 0 <= suit <= 255 ->
  parse_server_payload (server_bytes result rank suit ++ extra) =
  Ret (Some (result, rank, suit)).
Proof.
  intros Hr Hk Hs. rewrite parse_server_payload_eq. unfold server_bytes.
  rewrite <- !app_assoc.
  rewrite bool_decide_eq_true_2.
  2:{ rewrite app_assoc. apply framed_prefix.
      rewrite !length_app, !length_be_encode. simpl. lia. }
  rewrite (app_assoc MAGIC_BYTES).
  rewrite (slice_mid 5 6) by (reflexivity || apply length_be_encode).
  rewrite (app_assoc _ (be_encode 1 result)).
  rewrite (slice_mid 6 8)
    by (rewrite ?length_app, ?length_be_encode; reflexivity).
  rewrite (app_assoc _ (be_encode 2 rank)).
  rewrite (slice_mid 8 9)
    by (rewrite ?length_app, ?length_be_encode; reflexivity).
  rewrite !be_decode_encode by (simpl; lia). reflexivity.
Qed.

End CodecFacts.

Module CodecClaims.
Import Utf8 Struct Protocol BytesFacts Utf8Facts DecoderFacts NameFacts
       ProtocolFacts CodecFacts.

(** A [str] that [encode] accepts has no surrogate in it. *)
Lemma encodable_of_encode s b :
  valid_str s -> encode s = Ret b -> encodable s.
Proof.
  intros Hv. revert b. induction Hv as [|ch s Hch _ IH]; intros b He.
  - constructor.
  - cbn [encode] in He.
    destruct (is_surrogate ch) eqn:Hs.
    { rewrite encode_char_raises in He by assumption. discriminate. }
    destruct (encode_char ch); [|discriminate].
    destruct (encode s) as [bs|] eqn:Es; [|discriminate].
    constructor; [split; assumption | eapply IH; reflexivity].
Qed.

Lemma encode_length s b :
  valid_str s -> encode s = Ret b -> length b = utf8_len s.
Proof.
  intros Hv He. pose proof (encodable_of_encode s b Hv He) as Hs.
  rewrite encode_ret in He by assumption. injection He as <-.
  apply length_enc.
Qed.

(** C6, as amended: every message comes back from its parser with the
    fields it was created from, a name of at most 32 encoded bytes being
    returned unchanged provided it does not end in U+0000; a longer
    name is returned as what the first 32 encoded bytes decode to, which
    is the longest prefix of the name that fits (less its trailing
    U+0000 when the cut falls between two characters); decoding removes
    zero bytes at the end of a field only; the two decisions and every
    (result, rank, suit) that fits its field come back unchanged. *)
Theorem codec_round_trip
    (tcp_port num_rounds result rank suit : Z) (name : str) (b : bytes)
    (Hport : 0 <= tcp_port <= 65535) (Hrounds : 0 <= num_rounds <= 255)
    (Hresult : 0 <= result <= 255) (Hrank : 0 <= rank <= 65535)
    (Hsuit : 0 <= suit <= 255)
    (Hname : valid_str name) (Hb : encode name = Ret b) :
  (m ← create_offer_message tcp_port name; parse_offer_message m)
    = Ret (Some (tcp_port, field_trip NAME_SIZE name)) /\
  (m ← create_request_message num_rounds name; parse_request_message m)
    = Ret (Some (num_rounds, field_trip NAME_SIZE name)) /\
  ((length b <= 32)%nat -> last name <> Some 0 ->
   field_trip NAME_SIZE name = name) /\
  ((32 < length b)%nat ->
   field_trip NAME_SIZE name = decode_ignore (rstrip x00 (take 32 b)) /\
   field_trip NAME_SIZE name =
     if (utf8_len (fit 32 name) =? 32)%nat then rstrip 0 (fit 32 name)
     else fit 32 name) /\
  (forall (l : bytes) (c : byte) (k : nat),
      c <> x00 -> rstrip x00 (l ++ [c] ++ repeat x00 k) = l ++ [c]) /\
  (m ← create_client_payload DECISION_HIT; parse_client_payload m)
    = Ret (Some DECISION_HIT) /\
  (m ← create_client_payload DECISION_STAND; parse_client_payload m)
    = Ret (Some DECISION_STAND) /\
  (m ← create_server_payload result rank suit; parse_server_payload m)
    = Ret (Some (result, rank, suit)).
Proof.
  pose proof (encodable_of_encode name b Hname Hb) as Hs.
  pose proof (encode_length name b Hname Hb) as Hlen.
  split_and!.
  - rewrite create_offer_message_ret by assumption.
    cbn [mbind exc_bind Exc.bind].
    rewrite <- (app_nil_r (offer_bytes _ _)). now apply parse_offer_bytes.
  - rewrite create_request_message_ret by assumption.
    cbn [mbind exc_bind Exc.bind].
    rewrite <- (app_nil_r (request_bytes _ _)). now apply parse_request_bytes.
  - intros Hfit Hlast. apply field_trip_id; [unfold NAME_SIZE; lia | assumption].
  - intros Hlong. split.
    + rewrite <- (field_decode NAME_SIZE name Hs).
      rewrite encode_ret in Hb by assumption. injection Hb as <-.
      unfold ljust. now rewrite rstrip_app_repeat.
    + unfold field_trip, NAME_SIZE.
      destruct (Nat.leb_spec (utf8_len name) 32); [lia | reflexivity].
  - intros l c k Hc. rewrite app_assoc, rstrip_app_repeat.
    now apply rstrip_snoc_ne.
  - vm_compute. reflexivity.
  - vm_compute. reflexivity.
  - rewrite create_server_payload_ret by assumption.
    cbn [mbind exc_bind Exc.bind].
    rewrite <- (app_nil_r (server_bytes _ _ _)). now apply parse_server_bytes.
Qed.

(** C7: none of the four parsers raises, whatever the bytes, and each
    answers [None] when the buffer is shorter than its message, when it
    does not start with the magic cookie, or when the type tag is not
    the expected one. *)
Theorem parse_rejects_malformed (data : bytes) :
  (returns (parse_offer_message data) /\
   returns (parse_request_message data) /\
   returns (parse_client_payload data) /\
   returns (parse_server_payload data)) /\
  (((length data < 39)%nat \/ take 4 data <> MAGIC_BYTES
    \/ data !! 4%nat <> Some x02) ->
   parse_offer_message data = Ret None) /\
  (((length data < 38)%nat \/ take 4 data <> MAGIC_BYTES
    \/ data !! 4%nat <> Some x03) ->
   parse_request_message data = Ret None) /\
  (((length data < 10)%nat \/ take 4 data <> MAGIC_BYTES
    \/ data !! 4%nat <> Some x04) ->
   parse_client_payload data = Ret None) /\
  (((length data < 9)%nat \/ take 4 data <> MAGIC_BYTES
    \/ data !! 4%nat <> Some x04) ->
   parse_server_payload data = Ret None).
Proof.
  rewrite parse_offer_message_eq, parse_request_message_eq,
    parse_client_payload_eq, parse_server_payload_eq.
  split; [split_and!; eexists; reflexivity|].
  split_and!; intros H; rewrite bool_decide_eq_false_2; try reflexivity;
    intros (Hl & Hm & Ht); destruct H as [H | [H | H]];
    solve [lia | contradiction].
Qed.

(** C10: the parsers look at the length, the magic cookie and the type
    tag and at nothing else. A buffer that passes is accepted, the
    fields are returned as they are read, bytes after the fixed size are
    ignored; every result, rank and suit that fits its field is
    returned by [parse_server_payload], and [parse_client_payload]
    returns whatever the decision field decodes to. *)
Theorem parse_checks_frame_only (data extra : bytes) :
  (framed 39 x02 data ->
   parse_offer_message (data ++ extra) =
     Ret (Some (be_decode (slice 5 7 data), unpad_name (slice 7 39 data)))) /\
  (framed 38 x03 data ->
   parse_request_message (data ++ extra) =
     Ret (Some (be_decode (slice 5 6 data), unpad_name (slice 6 38 data)))) /\
  (framed 10 x04 data ->
   parse_client_payload (data ++ extra) =
     Ret (Some (decode_ignore (rstrip x00 (slice 5 10 data))))) /\
  (framed 9 x04 data ->
   parse_server_payload (data ++ extra) =
     Ret (Some (be_decode (slice 5 6 data), be_decode (slice 6 8 data),
                be_decode (slice 8 9 data)))) /\
  (forall result rank suit,
      0 <= result <= 255 -> 0 <= rank <= 65535 -> 0 <= suit <= 255 ->
      parse_server_payload (server_bytes result rank suit ++ extra)
        = Ret (Some (result, rank, suit))) /\
  (forall decision,
      encodable decision -> (utf8_len decision <= 5)%nat ->
      last decision <> Some 0 ->
      parse_client_payload (client_bytes decision ++ extra)
        = Ret (Some decision)).
Proof.
  split_and!.
  - intros H. pose proof H as (Hl & _).
    rewrite parse_offer_message_eq, bool_decide_eq_true_2
      by (apply framed_app; [lia | lia | assumption]).
    rewrite !slice_app_l by lia. reflexivity.
  - intros H. pose proof H as (Hl & _).
    rewrite parse_request_message_eq, bool_decide_eq_true_2
      by (apply framed_app; [lia | lia | assumption]).
    rewrite !slice_app_l by lia. reflexivity.
  - intros H. pose proof H as (Hl & _).
    rewrite parse_client_payload_eq, bool_decide_eq_true_2
      by (apply framed_app; [lia | lia | assumption]).
    rewrite !slice_app_l by lia. reflexivity.
  - intros H. pose proof H as (Hl & _).
    rewrite parse_server_payload_eq, bool_decide_eq_true_2
      by (apply framed_app; [lia | lia | assumption]).
    rewrite !slice_app_l by lia. reflexivity.
  - intros. now apply parse_server_bytes.
  - intros decision Hd Hlen Hlast.
    rewrite parse_client_bytes by assumption.
    now rewrite field_trip_id.
Qed.

End CodecClaims.

Module RandomFacts.
Import Random.

Section Shuffle.
Context {A : Type}.
Implicit Types (x l : list A).

Lemma insert_Permutation l (i : nat) (y : A) :
  (i < length l)%nat -> <[i:=y]> l ≡ₚ y :: delete i l.
Proof.
  intros Hi. rewrite insert_take_drop, delete_take_drop by assumption.
  symmetry. apply Permutation_middle.
Qed.

(** Exchanging two elements permutes the list. *)
Lemma swap_Permutation (i j : nat) x : swap i j x ≡ₚ x.
Proof.
  unfold swap.
  destruct (x !! j) as [xj|] eqn:Hj; [|reflexivity].
  destruct (x !! i) as [xi|] eqn:Hi; [|reflexivity].
  pose proof (lookup_lt_Some _ _ _ Hi) as Li.
  pose proof (lookup_lt_Some _ _ _ Hj) as Lj.
  destruct (decide (i = j)) as [->|Hne].
  - rewrite Hi in Hj. injection Hj as ->.
    rewrite (list_insert_id x j xj Hi). now rewrite (list_insert_id x j xj Hi).
  - set (y := <[i:=xj]> x).
    assert (Hyj : y !! j = Some xj)
      by (unfold y; rewrite list_lookup_insert_ne; assumption).
    assert (Ly : (j < length y)%nat) by (unfold y; now rewrite length_insert).
    rewrite (insert_Permutation y j xi Ly).
    pose proof (insert_Permutation x i xj Li) as HA. fold y in HA.
    pose proof (delete_Permutation y j xj Hyj) as HC.
    pose proof (delete_Permutation x i xi Hi) as HD.
    rewrite HD. apply Permutation_cons; [reflexivity|].
    apply (Permutation_cons_inv (a := xj)).
    rewrite <- HC. exact HA.
Qed.

Lemma shuffle_from_Permutation rnd pos i x :
  (shuffle_from rnd pos i x).1 ≡ₚ x.
Proof.
  revert pos x. induction i as [|i IH]; intros pos x; [reflexivity|].
  cbn [shuffle_from]. rewrite IH. apply swap_Permutation.
Qed.

Lemma shuffle_from_pos rnd pos i x :
  (shuffle_from rnd pos i x).2 = (pos + i)%nat.
Proof.
  revert pos x. induction i as [|i IH]; intros pos x; cbn [shuffle_from].
  - simpl. lia.
  - rewrite IH. lia.
Qed.

(** [random.shuffle] permutes its argument and asks for one integer
    per position but the first. *)
Lemma shuffle_Permutation rnd pos x : (shuffle rnd pos x).1 ≡ₚ x.
Proof. apply shuffle_from_Permutation. Qed.

Lemma shuffle_pos rnd pos x :
  (shuffle rnd pos x).2 = (pos + (length x - 1))%nat.
Proof. apply shuffle_from_pos. Qed.

End Shuffle.

End RandomFacts.

Module DeckFacts.
Import Random RandomFacts.

#[global] Instance valid_card_dec c : Decision (Deck.valid_card c).
Proof. unfold Deck.valid_card. apply _. Defined.

Lemma fresh_cards_length : length Deck.fresh_cards = 52%nat.
Proof. reflexivity. Qed.

Lemma fresh_cards_NoDup : NoDup Deck.fresh_cards.
Proof. apply (bool_decide_unpack _). vm_compute. exact I. Qed.

Lemma fresh_cards_valid : Forall Deck.valid_card Deck.fresh_cards.
Proof. apply (bool_decide_unpack _). vm_compute. exact I. Qed.

(** The pack is exactly the set of valid cards. *)
Lemma fresh_cards_all c : Deck.valid_card c -> c ∈ Deck.fresh_cards.
Proof.
  destruct c as [rank suit]. unfold Deck.valid_card. cbn [fst snd].
  intros [Hr Hs].
  assert (rank = 1 \/ rank = 2 \/ rank = 3 \/ rank = 4 \/ rank = 5
          \/ rank = 6 \/ rank = 7 \/ rank = 8 \/ rank = 9 \/ rank = 10
          \/ rank = 11 \/ rank = 12 \/ rank = 13) as Hrank by lia.
  assert (suit = 0 \/ suit = 1 \/ suit = 2 \/ suit = 3) as Hsuit by lia.
  apply list_elem_of_In.
  repeat (destruct Hrank as [-> | Hrank]);
    repeat (destruct Hsuit as [-> | Hsuit]); subst;
    vm_compute; tauto.
Qed.

Section WithTape.
Variable rnd : tape.

Lemma reset_spec pos d :
  exists cs, Deck.reset rnd pos d = (Deck.mk cs, (pos + 51)%nat)
             /\ cs ≡ₚ Deck.fresh_cards.
Proof.
  unfold Deck.reset.
  pose proof (shuffle_Permutation rnd pos Deck.fresh_cards) as Hp.
  pose proof (shuffle_pos rnd pos Deck.fresh_cards) as Hn.
  destruct (shuffle rnd pos Deck.fresh_cards) as [cs pos'].
  cbn [fst snd] in Hp, Hn. exists cs. split; [|exact Hp].
  rewrite Hn, fresh_cards_length. reflexivity.
Qed.

Lemma pop_snoc l c : Deck.pop (Deck.mk (l ++ [c])) = (Some c, Deck.mk l).
Proof.
  unfold Deck.pop. cbn [Deck.cards]. now rewrite last_snoc, removelast_last.
Qed.

Lemma draw_snoc pos l c :
  Deck.draw rnd pos (Deck.mk (l ++ [c])) = (Some c, Deck.mk l, pos).
Proof.
  unfold Deck.draw. cbn [Deck.cards].
  destruct (l ++ [c]) eqn:E; [destruct l; discriminate|].
  rewrite <- E, pop_snoc. reflexivity.
Qed.

(** On an empty deck [draw] shuffles a new pack and deals its last
    card. *)
Lemma draw_empty pos :
  exists l c,
    Deck.draw rnd pos (Deck.mk []) = (Some c, Deck.mk l, (pos + 51)%nat)
    /\ l ++ [c] ≡ₚ Deck.fresh_cards.
Proof.
  unfold Deck.draw. cbn [Deck.cards].
  destruct (reset_spec pos (Deck.mk [])) as (cs & -> & Hp).
  destruct cs as [|c l _] using rev_ind.
  - apply Permutation_length in Hp. discriminate.
  - exists l, c. now rewrite pop_snoc.
Qed.

(** [draw] always deals a card. *)
Lemma draw_Some pos d : exists c, (Deck.draw rnd pos d).1.1 = Some c.
Proof.
  destruct d as [cs]. destruct cs as [|c l _] using rev_ind.
  - destruct (draw_empty pos) as (l & c & -> & _). now exists c.
  - rewrite draw_snoc. now exists c.
Qed.

(** Dealing from a deck that holds enough cards: the top [n] cards
    leave in order, nothing is shuffled. *)
Lemma draws_app n pos l1 l2 :
  length l2 = n ->
  Deck.draws rnd n pos (Deck.mk (l1 ++ l2))
  = (map Some (rev l2), Deck.mk l1, pos).
Proof.
  revert l2. induction n as [|n IH]; intros l2 Hl.
  - destruct l2; [|discriminate]. now rewrite app_nil_r.
  - destruct l2 as [|c l2 _] using rev_ind; [discriminate|].
    rewrite length_app in Hl. simpl in Hl.
    cbn [Deck.draws]. rewrite app_assoc, draw_snoc, IH by lia.
    rewrite rev_unit. reflexivity.
Qed.

Lemma draw_ok pos d :
  Deck.ok d ->
  exists c d' pos',
    Deck.draw rnd pos d = (Some c, d', pos')
    /\ Deck.valid_card c /\ Deck.ok d'.
Proof.
  destruct d as [cs]. unfold Deck.ok. cbn [Deck.cards]. intros Hok.
  destruct cs as [|c l _] using rev_ind.
  - destruct (draw_empty pos) as (l & c & -> & Hp).
    exists c, (Deck.mk l), (pos + 51)%nat. split; [reflexivity|].
    pose proof fresh_cards_valid as Hv. rewrite <- Hp in Hv.
    apply Forall_app in Hv as [Hl Hc]. apply Forall_inv in Hc. now split.
  - rewrite draw_snoc. exists c, (Deck.mk l), pos. split; [reflexivity|].
    apply Forall_app in Hok as [Hl Hc]. apply Forall_inv in Hc. now split.
Qed.


End WithTape.

End DeckFacts.

Module DeckClaims.
Import Random RandomFacts DeckFacts.

(** C8: after [reset], 52 calls of [draw] deal 52 distinct cards, the
    whole pack once each, without shuffling in between; so do the first
    [n] of them for every [n]; the deck is then empty, and the 53rd
    call shuffles a new pack and deals from it. *)
Theorem deck_deals_each_card_once (rnd : tape) (pos : nat) (d : Deck.t) :
  let '(d0, p0) := Deck.reset rnd pos d in
  let '(dealt, d1, p1) := Deck.draws rnd 52 p0 d0 in
  let '(c53, d2, p2) := Deck.draw rnd p1 d1 in
  exists l,
    dealt = map Some l /\ length l = 52%nat /\ NoDup l
    /\ l ≡ₚ Deck.fresh_cards
    /\ (forall c, c ∈ l <-> Deck.valid_card c)
    /\ p1 = p0 /\ Deck.cards d1 = []
    /\ (forall n, (n <= 52)%nat ->
          Deck.draws rnd n p0 d0
          = (map Some (take n l), Deck.mk (rev (drop n l)), p0))
    /\ p2 = (p1 + 51)%nat
    /\ exists c, c53 = Some c /\ Deck.cards d2 ++ [c] ≡ₚ Deck.fresh_cards.
Proof.
  destruct (reset_spec rnd pos d) as (cs & -> & Hp).
  assert (Hlen : length cs = 52%nat)
    by (now rewrite (Permutation_length Hp), fresh_cards_length).
  pose proof (draws_app rnd 52 (pos + 51) [] cs Hlen) as Hd.
  cbn [app] in Hd. rewrite Hd.
  destruct (draw_empty rnd (pos + 51)) as (l2 & c & -> & Hp2).
  exists (rev cs).
  assert (Hperm : rev cs ≡ₚ Deck.fresh_cards)
    by (rewrite <- Hp; symmetry; apply Permutation_rev).
  split_and!; try reflexivity.
  - now rewrite length_rev.
  - rewrite Hperm. apply fresh_cards_NoDup.
  - exact Hperm.
  - intros c'. rewrite Hperm. split.
    + intros Hin. pose proof fresh_cards_valid as Hv.
      rewrite Forall_forall in Hv. apply Hv. exact Hin.
    + apply fresh_cards_all.
  - intros n Hn.
    rewrite <- (take_drop (52 - n) cs) at 1.
    rewrite (draws_app rnd n (pos + 51)) by (rewrite length_drop; lia).
    rewrite firstn_rev, skipn_rev, rev_involutive, Hlen. reflexivity.
  - exists c. split; [reflexivity | exact Hp2].
Qed.

(** C9: [draw] never returns [None]. Whatever calls of [draw] and
    [reset] a fresh deck has seen, every [draw] deals a card; so does a
    [draw] on any deck at all; and on an empty deck it first shuffles a
    new pack of 52, of which 51 cards are left after the deal. *)
Theorem draw_never_none (rnd : tape) (pos : nat) (ops : list (Deck.op))
    (d : Deck.t) :
  (let '(d0, p0) := Deck.init rnd pos in
   Forall (fun r => r <> None) (Deck.run rnd ops p0 d0).1.1) /\
  (Deck.draw rnd pos d).1.1 <> None /\
  (Deck.cards d = [] ->
   exists c rest,
     Deck.draw rnd pos d = (Some c, Deck.mk rest, (pos + 51)%nat)
     /\ length rest = 51%nat /\ rest ++ [c] ≡ₚ Deck.fresh_cards).
Proof.
  split_and!.
  - destruct (Deck.init rnd pos) as [d0 p0].
    revert d0 p0. induction ops as [|[|] ops IH]; intros d0 p0.
    + constructor.
    + cbn [Deck.run].
      destruct (draw_Some rnd p0 d0) as [c Hc].
      destruct (Deck.draw rnd p0 d0) as [[r d1] p1]. cbn [fst] in Hc. subst r.
      specialize (IH d1 p1).
      destruct (Deck.run rnd ops p1 d1) as [[rs d2] p2].
      cbn [fst] in *. constructor; [discriminate | exact IH].
    + cbn [Deck.run].
      destruct (Deck.reset rnd p0 d0) as [d1 p1]. apply IH.
  - destruct (draw_Some rnd pos d) as [c ->]. discriminate.
  - destruct d as [cs]. cbn [Deck.cards]. intros ->.
    destruct (draw_empty rnd pos) as (l & c & -> & Hp).
    exists c, l. split_and!; [reflexivity | | exact Hp].
    apply Permutation_length in Hp.
    rewrite length_app, fresh_cards_length in Hp. simpl in Hp. lia.
Qed.

End DeckClaims.

Module ServerFacts.
Import Random Protocol Server BytesFacts CodecFacts DeckFacts.

(** ** Hand values *)

Lemma calculate_hand_value_app h1 h2 :
  calculate_hand_value (h1 ++ h2)
  = calculate_hand_value h1 + calculate_hand_value h2.
Proof.
  unfold calculate_hand_value, sum. induction h1 as [|[r s] h1 IH]; cbn.
  - lia.
  - cbn in IH. rewrite IH. lia.
Qed.

Lemma calculate_hand_value_single c :
  calculate_hand_value [c] = get_card_value c.1.
Proof. destruct c. unfold calculate_hand_value, sum. cbn. lia. Qed.

Lemma get_card_value_valid c :
  Deck.valid_card c -> 2 <= get_card_value c.1 <= 11.
Proof.
  intros [Hr _]. unfold get_card_value.
  destruct (Z.eqb_spec c.1 1); [lia|].
  destruct (Z.leb_spec 11 c.1); lia.
Qed.

Lemma calculate_hand_value_nonneg h :
  Forall Deck.valid_card h -> 0 <= calculate_hand_value h.
Proof.
  induction 1 as [|c h Hc _ IH].
  - unfold calculate_hand_value, sum. cbn. lia.
  - change (c :: h) with ([c] ++ h).
    rewrite calculate_hand_value_app, calculate_hand_value_single.
    pose proof (get_card_value_valid c Hc). lia.
Qed.

(** ** Running a method body *)

Lemma bind_ret {A B} (m : M A) (k : A -> M B) g a g' :
  m g = (Ret a, g') -> (m ≫= k) g = k a g'.
Proof. intros H. unfold mbind, M_bind. now rewrite H. Qed.

Lemma bind_raise {A B} (m : M A) (k : A -> M B) g e g' :
  m g = (Raise e, g') -> (m ≫= k) g = (Raise e, g').
Proof. intros H. unfold mbind, M_bind. now rewrite H. Qed.

Section WithTape.
Variable rnd : tape.

Lemma send_card_run rank suit result g :
  0 <= result <= 255 -> 0 <= rank <= 65535 -> 0 <= suit <= 255 ->
  send_card rank suit result g
  = (Ret tt, mkGame (deck g) (rpos g) (player_hand g) (dealer_hand g)
                    (sent g ++ [server_bytes result rank suit])).
Proof.
  intros. unfold send_card, lift, modify, mbind, M_bind.
  rewrite create_server_payload_ret by assumption. reflexivity.
Qed.

Lemma send_card_valid c g :
  Deck.valid_card c ->
  send_card c.1 c.2 RESULT_NOT_OVER g
  = (Ret tt, mkGame (deck g) (rpos g) (player_hand g) (dealer_hand g)
                    (sent g ++ [card_msg c])).
Proof.
  intros [Hr Hs]. apply send_card_run; unfold RESULT_NOT_OVER; lia.
Qed.

Lemma send_result result g :
  0 <= result <= 255 ->
  send_card 0 0 result g
  = (Ret tt, mkGame (deck g) (rpos g) (player_hand g) (dealer_hand g)
                    (sent g ++ [result_msg result])).
Proof. intros. apply send_card_run; lia. Qed.

Lemma draw_card_run g :
  Deck.ok (deck g) ->
  exists c d pos,
    draw_card rnd g
    = (Ret c, mkGame d pos (player_hand g) (dealer_hand g) (sent g))
    /\ Deck.valid_card c /\ Deck.ok d.
Proof.
  intros Hok. unfold draw_card.
  destruct (draw_ok rnd (rpos g) (deck g) Hok) as (c & d & pos & -> & Hc & Hd).
  now exists c, d, pos.
Qed.

(** One pass of a dealing loop. *)
Lemma deal_player_run g :
  Deck.ok (deck g) ->
  exists c d pos,
    deal_player rnd g
    = (Ret tt, mkGame d pos (player_hand g ++ [c]) (dealer_hand g)
                      (sent g ++ [card_msg c]))
    /\ Deck.valid_card c /\ Deck.ok d.
Proof.
  intros Hok. unfold deal_player.
  destruct (draw_card_run g Hok) as (c & d & pos & Hdraw & Hc & Hd).
  exists c, d, pos. split; [|now split].
  rewrite (bind_ret _ _ _ _ _ Hdraw).
  unfold append_player, modify, mbind at 1, M_bind.
  now rewrite send_card_valid.
Qed.

Lemma deal_dealer_run g :
  Deck.ok (deck g) ->
  exists c d pos,
    deal_dealer rnd g
    = (Ret tt, mkGame d pos (player_hand g) (dealer_hand g ++ [c]) (sent g))
    /\ Deck.valid_card c /\ Deck.ok d.
Proof.
  intros Hok. unfold deal_dealer.
  destruct (draw_card_run g Hok) as (c & d & pos & Hdraw & Hc & Hd).
  exists c, d, pos. split; [|now split].
  rewrite (bind_ret _ _ _ _ _ Hdraw). reflexivity.
Qed.

(** The initial deal: two cards to the player, both sent; two to the
    dealer, the first sent. *)
Lemma initial_deal_run g :
  Deck.ok (deck g) ->
  exists c1 c2 c3 c4 d pos,
    initial_deal rnd g
    = (Ret (calculate_hand_value [c1; c2]),
       mkGame d pos [c1; c2] [c3; c4]
              (sent g ++ [card_msg c1; card_msg c2; card_msg c3]))
    /\ Forall Deck.valid_card [c1; c2; c3; c4] /\ Deck.ok d.
Proof.
  intros Hok. unfold initial_deal.
  unfold reset_hands, modify, mbind at 1, M_bind at 1.
  set (g0 := mkGame _ _ [] [] _).
  destruct (deal_player_run g0 Hok) as (c1 & d1 & p1 & E1 & V1 & O1).
  rewrite (bind_ret _ _ _ _ _ E1). clear E1.
  set (g1 := mkGame d1 _ _ _ _).
  destruct (deal_player_run g1 O1) as (c2 & d2 & p2 & E2 & V2 & O2).
  rewrite (bind_ret _ _ _ _ _ E2). clear E2.
  set (g2 := mkGame d2 _ _ _ _).
  destruct (deal_dealer_run g2 O2) as (c3 & d3 & p3 & E3 & V3 & O3).
  rewrite (bind_ret _ _ _ _ _ E3). clear E3.
  set (g3 := mkGame d3 _ _ _ _).
  destruct (deal_dealer_run g3 O3) as (c4 & d4 & p4 & E4 & V4 & O4).
  rewrite (bind_ret _ _ _ _ _ E4). clear E4.
  exists c1, c2, c3, c4, d4, p4.
  split; [|split; [repeat (apply List.Forall_cons; [assumption|]); apply List.Forall_nil | assumption]].
  subst g0 g1 g2 g3.
  unfold gets, index, mbind, M_bind.
  cbn [dealer_hand player_hand sent deck rpos app lookup list_lookup].
  unfold mret, M_ret. rewrite send_card_valid by assumption.
  cbn [dealer_hand player_hand sent deck rpos app].
  now rewrite <- !app_assoc.
Qed.

End WithTape.

End ServerFacts.

Module RoundFacts.
Import Random Protocol Server BytesFacts CodecFacts DeckFacts ServerFacts.

Section WithTape.
Variable rnd : tape.

(** ** The dealer's loop *)

(** With enough fuel the loop is left; the dealer has then drawn the
    cards [drawn], each while the value of the hand before it was
    below 17, each sent as it was drawn, and the hand is worth 17 or
    more. *)
Lemma dealer_loop_run fuel g :
  Deck.ok (deck g) ->
  (Z.to_nat (17 - calculate_hand_value (dealer_hand g)) <= fuel)%nat ->
  exists drawn d pos,
    let hand := dealer_hand g ++ drawn in
    dealer_loop rnd fuel (calculate_hand_value (dealer_hand g)) g
    = (Ret (Some (calculate_hand_value hand)),
       mkGame d pos (player_hand g) hand (sent g ++ map card_msg drawn))
    /\ Forall Deck.valid_card drawn /\ Deck.ok d
    /\ 17 <= calculate_hand_value hand
    /\ (forall k, (k < length drawn)%nat ->
          calculate_hand_value (dealer_hand g ++ take k drawn) < 17).
Proof.
  revert g. induction fuel as [|fuel IH]; intros g Hok Hfuel.
  - exists [], (deck g), (rpos g). cbn [dealer_loop map].
    destruct (Z.ltb_spec (calculate_hand_value (dealer_hand g)) 17); [lia|].
    cbn zeta. rewrite !app_nil_r.
    destruct g; cbn [deck rpos player_hand dealer_hand sent] in *.
    split_and!;
      [reflexivity | apply List.Forall_nil | exact Hok | lia
      | intros k Hk; cbn in Hk; lia].
  - cbn [dealer_loop].
    destruct (Z.ltb_spec (calculate_hand_value (dealer_hand g)) 17) as [Hlt|Hge].
    + destruct (draw_card_run rnd g Hok) as (c & d & pos & Hdraw & Hc & Hd).
      rewrite (bind_ret _ _ _ _ _ Hdraw).
      unfold append_dealer, modify, mbind at 1, M_bind at 1.
      cbn [deck rpos player_hand dealer_hand sent].
      rewrite (bind_ret _ _ _ _ _ (send_card_valid _ _ Hc)).
      cbn [deck rpos player_hand dealer_hand sent].
      unfold gets, mbind, M_bind. cbn [dealer_hand].
      set (g1 := mkGame d pos (player_hand g) (dealer_hand g ++ [c])
                        (sent g ++ [card_msg c])).
      pose proof (get_card_value_valid c Hc) as Hv.
      assert (Hval : calculate_hand_value (dealer_hand g1)
                     = calculate_hand_value (dealer_hand g) + get_card_value c.1)
        by (unfold g1; cbn [dealer_hand];
            now rewrite calculate_hand_value_app, calculate_hand_value_single).
      destruct (IH g1) as (drawn & d' & pos' & Hrun & Hvalid & Hok' & H17 & Hpre).
      { exact Hd. }
      { rewrite Hval. lia. }
      exists (c :: drawn), d', pos'.
      cbn zeta in Hrun |- *. unfold g1 in Hrun. cbn [dealer_hand player_hand sent] in Hrun.
      rewrite <- !app_assoc in Hrun. cbn [app] in Hrun.
      split_and!.
      * exact Hrun.
      * apply List.Forall_cons; assumption.
      * exact Hok'.
      * unfold g1 in H17. cbn [dealer_hand] in H17.
        now rewrite <- app_assoc in H17.
      * intros [|k] Hk.
        -- rewrite take_0, app_nil_r. exact Hlt.
        -- cbn [take]. specialize (Hpre k). unfold g1 in Hpre.
           cbn [dealer_hand] in Hpre. rewrite <- app_assoc in Hpre.
           apply Hpre. simpl in Hk. lia.
    + exists [], (deck g), (rpos g). cbn [map].
      cbn zeta. rewrite !app_nil_r.
      destruct g; cbn [deck rpos player_hand dealer_hand sent] in *.
      split_and!;
        [reflexivity | apply List.Forall_nil | exact Hok | lia
        | intros k Hk; cbn in Hk; lia].
Qed.

(** ** The last [if] chain *)

Lemma determine_winner_run player_value dealer_value g :
  let o := Spec.resolved player_value dealer_value in
  determine_winner player_value dealer_value g
  = (Ret (Spec.name o),
     mkGame (deck g) (rpos g) (player_hand g) (dealer_hand g)
            (sent g ++ [result_msg (Spec.code o)]))
  /\ o <> Spec.not_over.
Proof.
  unfold determine_winner, Spec.resolved.
  destruct (Z.ltb_spec 21 dealer_value);
    [rewrite decide_True by lia|rewrite decide_False by lia].
  { cbn zeta. rewrite (bind_ret _ _ _ _ _ (send_result RESULT_WIN g ltac:(unfold RESULT_WIN; lia))).
    now split. }
  destruct (Z.ltb_spec dealer_value player_value);
    [rewrite decide_True by lia|rewrite decide_False by lia].
  { cbn zeta. rewrite (bind_ret _ _ _ _ _ (send_result RESULT_WIN g ltac:(unfold RESULT_WIN; lia))).
    now split. }
  destruct (Z.ltb_spec player_value dealer_value);
    [rewrite decide_True by lia|rewrite decide_False by lia].
  { cbn zeta. rewrite (bind_ret _ _ _ _ _ (send_result RESULT_LOSS g ltac:(unfold RESULT_LOSS; lia))).
    now split. }
  cbn zeta. rewrite (bind_ret _ _ _ _ _ (send_result RESULT_TIE g ltac:(unfold RESULT_TIE; lia))).
  now split.
Qed.

(** ** The player's turn *)

(** However the turn ends, the player has been dealt the cards
    [drawn], each of them sent; on [break] the value carried out of
    the loop is the value of the hand; on [return] the result is
    "loss", after a bust (announced) or a failed receive (not
    announced). *)
Lemma player_turn_run inbox g :
  Deck.ok (deck g) ->
  exists exit inbox' drawn d pos tail,
    let hand := player_hand g ++ drawn in
    player_turn rnd (calculate_hand_value (player_hand g)) inbox g
    = (Ret (exit, inbox'),
       mkGame d pos hand (dealer_hand g)
              (sent g ++ map card_msg drawn ++ tail))
    /\ Forall Deck.valid_card drawn /\ Deck.ok d
    /\ match exit with
       | Break player_value =>
           player_value = calculate_hand_value hand /\ tail = []
       | Return result =>
           result = "loss"%string
           /\ (tail = [] \/
               (tail = [result_msg RESULT_LOSS]
                /\ 21 < calculate_hand_value hand))
       end.
Proof.
  revert g. induction inbox as [|ev rest IH]; intros g Hok.
  - exists (Return "loss"), [], [], (deck g), (rpos g), [].
    cbn [player_turn map app]. cbn zeta. rewrite !app_nil_r.
    destruct g; cbn [deck rpos player_hand dealer_hand sent] in *.
    split_and!;
      [reflexivity | apply List.Forall_nil | exact Hok | reflexivity
      | now left].
  - cbn [player_turn].
    destruct (receive_decision ev) as [decision|].
    2:{ exists (Return "loss"), rest, [], (deck g), (rpos g), [].
        cbn [map app]. cbn zeta. rewrite !app_nil_r.
        destruct g; cbn [deck rpos player_hand dealer_hand sent] in *.
        split_and!;
          [reflexivity | apply List.Forall_nil | exact Hok | reflexivity
          | now left]. }
    destruct (decide (decision = DECISION_STAND)).
    { exists (Break (calculate_hand_value (player_hand g))), rest, [],
        (deck g), (rpos g), [].
      cbn [map app]. cbn zeta. rewrite !app_nil_r.
      destruct g; cbn [deck rpos player_hand dealer_hand sent] in *.
      split_and!;
        [reflexivity | apply List.Forall_nil | exact Hok | reflexivity
        | reflexivity]. }
    destruct (decide (decision = DECISION_HIT)).
    2:{ apply IH. exact Hok. }
    destruct (draw_card_run rnd g Hok) as (c & d & pos & Hdraw & Hc & Hd).
    rewrite (bind_ret _ _ _ _ _ Hdraw).
    unfold append_player, modify, mbind at 1, M_bind at 1.
    cbn [deck rpos player_hand dealer_hand sent].
    rewrite (bind_ret _ _ _ _ _ (send_card_valid _ _ Hc)).
    cbn [deck rpos player_hand dealer_hand sent].
    unfold gets, mbind at 1, M_bind at 1. cbn [player_hand].
    set (g1 := mkGame d pos (player_hand g ++ [c]) (dealer_hand g)
                      (sent g ++ [card_msg c])).
    destruct (Z.ltb_spec 21 (calculate_hand_value (player_hand g ++ [c])))
      as [Hbust|Hfine].
    + rewrite (bind_ret _ _ _ _ _ (send_result RESULT_LOSS g1 ltac:(unfold RESULT_LOSS; lia))).
      exists (Return "loss"), rest, [c], d, pos, [result_msg RESULT_LOSS].
      unfold g1. cbn [deck rpos player_hand dealer_hand sent map].
      rewrite <- !app_assoc. cbn [app].
      split_and!;
        [reflexivity | apply List.Forall_cons; [assumption | apply List.Forall_nil]
        | exact Hd | reflexivity | right; now split].
    + destruct (IH g1 Hd)
        as (exit & inbox' & drawn & d' & pos' & tail & Hrun & Hv & Hok' & Hexit).
      exists exit, inbox', (c :: drawn), d', pos', tail.
      cbn zeta in Hrun, Hexit |- *. unfold g1 in Hrun, Hexit.
      cbn [dealer_hand player_hand sent] in Hrun, Hexit.
      rewrite <- app_assoc in Hexit. cbn [app] in Hexit.
      split_and!.
      * fold g1 in Hrun. rewrite Hrun. cbn [map].
        now rewrite <- !app_assoc.
      * now apply List.Forall_cons.
      * exact Hok'.
      * exact Hexit.
Qed.

End WithTape.

End RoundFacts.

Module HandFacts.
Import Protocol.

Lemma card_value_valid rank :
  1 <= rank <= 13 -> get_card_value rank = Spec.card_value rank.
Proof.
  intros Hr. unfold get_card_value, Spec.card_value.
  destruct (Z.eqb_spec rank 1).
  - now rewrite decide_True.
  - rewrite decide_False by assumption.
    destruct (Z.leb_spec 11 rank).
    + rewrite decide_True by lia. reflexivity.
    + rewrite decide_False by lia. reflexivity.
Qed.

Lemma raw_sum_valid hand :
  Forall Deck.valid_card hand ->
  Server.sum (map (fun '(rank, suit) => get_card_value rank) hand)
  = Spec.raw_sum hand.
Proof.
  induction 1 as [|[rank suit] hand [Hr _] _ IH]; [reflexivity|].
  unfold Server.sum, Spec.raw_sum in *. cbn [map foldr fst] in *.
  rewrite IH, card_value_valid by assumption. reflexivity.
Qed.

Lemma aces_count (hand : list card) :
  length (filter (fun '(rank, suit) => rank = 1) hand) = Spec.aces hand.
Proof.
  unfold Spec.aces. induction hand as [|[rank suit] hand IH]; [reflexivity|].
  rewrite !filter_cons. cbn [fst].
  destruct (decide (rank = 1)); cbn [length]; now rewrite IH.
Qed.

(** The server adds the card values and stops there. *)
Lemma server_value_is_raw_sum hand :
  Forall Deck.valid_card hand ->
  Server.calculate_hand_value hand = Spec.raw_sum hand.
Proof. apply raw_sum_valid. Qed.

Lemma adjust_aces_spec n total :
  exists k : nat,
    (k <= n)%nat /\
    Client.adjust_aces n total = total - 10 * Z.of_nat k /\
    (forall j : nat, (j < k)%nat -> 21 < total - 10 * Z.of_nat j) /\
    (Client.adjust_aces n total <= 21 \/ k = n).
Proof.
  revert total. induction n as [|n IH]; intros total; cbn [Client.adjust_aces].
  - exists 0%nat. split_and!; [lia | destruct (21 <? total); lia | lia | now right].
  - destruct (Z.ltb_spec 21 total) as [Hgt|Hle].
    + destruct (IH (total - 10)) as (k & Hk & Hv & Hpre & Hstop).
      exists (S k). split_and!.
      * lia.
      * rewrite Hv. lia.
      * intros [|j] Hj; [lia|]. specialize (Hpre j). lia.
      * destruct Hstop; [now left | right; lia].
    + exists 0%nat. split_and!; [lia | lia | lia | now left].
Qed.

(** The client computes the specification's HandValue. *)
Lemma client_value_is_hand_value hand :
  Forall Deck.valid_card hand ->
  Spec.is_hand_value hand (Client.calculate_hand_value hand).
Proof.
  intros Hv. unfold Client.calculate_hand_value, Spec.is_hand_value.
  rewrite raw_sum_valid, aces_count by assumption.
  destruct (adjust_aces_spec (Spec.aces hand) (Spec.raw_sum hand))
    as (k & Hk & Hval & Hpre & Hstop).
  exists k. split_and!; assumption.
Qed.

(** A hand has one value. *)
Lemma is_hand_value_unique hand v1 v2 :
  Spec.is_hand_value hand v1 -> Spec.is_hand_value hand v2 -> v1 = v2.
Proof.
  intros (k1 & Hk1 & -> & Hp1 & Hs1) (k2 & Hk2 & -> & Hp2 & Hs2).
  destruct (Nat.lt_total k1 k2) as [Hlt | [-> | Hlt]]; [| reflexivity |].
  - specialize (Hp2 k1 Hlt). destruct Hs1; lia.
  - specialize (Hp1 k2 Hlt). destruct Hs2; lia.
Qed.

End HandFacts.

Module HandClaims.
Import Random Protocol Server Scenario.
Import BytesFacts CodecFacts DeckFacts ServerFacts RoundFacts HandFacts.

(** C1 (the server's side fails it): on the hand of two aces the
    server's [calculate_hand_value] answers 22, where the hand value of
    the specification, which the client's [calculate_hand_value]
    computes, is 12. *)
Theorem server_counts_every_ace_as_11 :
  let hand := [(1, SUIT_SPADE); (1, SUIT_HEART)] in
  Server.calculate_hand_value hand = 22 /\
  Client.calculate_hand_value hand = 12 /\
  Spec.is_hand_value hand 12 /\
  ~ Spec.is_hand_value hand 22.
Proof.
  cbn zeta. split_and!.
  - reflexivity.
  - reflexivity.
  - exists 1%nat. split_and!.
    + vm_compute. lia.
    + reflexivity.
    + intros j Hj. assert (j = 0%nat) as -> by lia. vm_compute. reflexivity.
    + left. lia.
  - intros H.
    assert (H12 : Spec.is_hand_value [(1, SUIT_SPADE); (1, SUIT_HEART)] 12).
    { exists 1%nat. split_and!.
      + vm_compute. lia.
      + reflexivity.
      + intros j Hj. assert (j = 0%nat) as -> by lia. vm_compute. reflexivity.
      + left. lia. }
    pose proof (is_hand_value_unique _ _ _ H H12). lia.
Qed.

(** C2 (the server fails it): the player is dealt the ace of spades and
    the ten of diamonds, 21 on both sides' count; the client, which
    waits for the win, sends nothing; the server sends the three cards
    of the deal and no result, and returns "loss". Had the client
    answered "Stand", the dealer would have played and tied. *)
Theorem natural_21_is_not_paid :
  let silent := play_round natural_tape 17 [] natural_game in
  let stand :=
    play_round natural_tape 17 [decision_event DECISION_STAND] natural_game in
  player_hand silent.2 = [(1, SUIT_SPADE); (10, SUIT_DIAMOND)] /\
  Server.calculate_hand_value (player_hand silent.2) = 21 /\
  Client.calculate_hand_value (player_hand silent.2) = 21 /\
  silent.1 = Ret (Some "loss"%string, []) /\
  sent silent.2 = [card_msg (1, SUIT_SPADE); card_msg (10, SUIT_DIAMOND);
                   card_msg (1, SUIT_HEART)] /\
  (result_msg RESULT_WIN ∉ sent silent.2) /\
  stand.1 = Ret (Some "tie"%string, []) /\
  sent stand.2 = [card_msg (1, SUIT_SPADE); card_msg (10, SUIT_DIAMOND);
                  card_msg (1, SUIT_HEART); card_msg (11, SUIT_SPADE);
                  result_msg RESULT_TIE].
Proof.
  cbn zeta. split_and!; try (vm_compute; reflexivity).
  apply (bool_decide_unpack _). vm_compute. exact I.
Qed.

End HandClaims.

Module RoundClaims.
Import Random Protocol Server Scenario.
Import BytesFacts CodecFacts DeckFacts ServerFacts RoundFacts HandFacts.

(** The dealer's turn starts by sending the card held back. *)
Lemma dealer_turn_reveal (rnd : tape) (fuel : nat) (g : Game) (c1 c2 : card) :
  dealer_hand g = [c1; c2] -> Deck.valid_card c2 ->
  dealer_turn rnd fuel g
  = dealer_loop rnd fuel (calculate_hand_value [c1; c2])
      (mkGame (deck g) (rpos g) (player_hand g) [c1; c2]
              (sent g ++ [card_msg c2])).
Proof.
  intros Hhand Hc2.
  unfold dealer_turn, gets, index, mbind at 1 2, M_bind at 1 2.
  rewrite Hhand. cbn [lookup list_lookup]. unfold mret at 1, M_ret at 1.
  rewrite (bind_ret _ _ _ _ _ (send_card_valid _ _ Hc2)).
  unfold mbind at 1, M_bind at 1. cbn [dealer_hand]. now rewrite Hhand.
Qed.

Lemma two_cards_fuel (fuel : nat) (c1 c2 : card) :
  Deck.valid_card c1 -> Deck.valid_card c2 -> (17 <= fuel)%nat ->
  (Z.to_nat (17 - calculate_hand_value [c1; c2]) <= fuel)%nat.
Proof.
  intros Hc1 Hc2 Hfuel.
  pose proof (calculate_hand_value_nonneg [c1; c2]
                ltac:(repeat (apply List.Forall_cons; [assumption|]);
                      apply List.Forall_nil)).
  lia.
Qed.

(** What the rest of the round needs to know of the dealer's turn. *)
Lemma dealer_turn_run (rnd : tape) (fuel : nat) (g : Game) (c1 c2 : card) :
  Deck.ok (deck g) -> dealer_hand g = [c1; c2] ->
  Deck.valid_card c1 -> Deck.valid_card c2 -> (17 <= fuel)%nat ->
  exists drawn d pos,
    dealer_turn rnd fuel g
    = (Ret (Some (calculate_hand_value ([c1; c2] ++ drawn))),
       mkGame d pos (player_hand g) ([c1; c2] ++ drawn)
              (sent g ++ card_msg c2 :: map card_msg drawn))
    /\ Forall Deck.valid_card drawn.
Proof.
  intros Hdeck Hhand Hc1 Hc2 Hfuel.
  rewrite (dealer_turn_reveal rnd fuel g c1 c2 Hhand Hc2).
  set (g1 := mkGame _ _ _ _ _).
  destruct (dealer_loop_run rnd fuel g1 Hdeck
              (two_cards_fuel fuel c1 c2 Hc1 Hc2 Hfuel))
    as (drawn & d & pos & Hrun & Hv & _).
  exists drawn, d, pos. split; [|exact Hv].
  cbn zeta in Hrun. unfold g1 in Hrun |- *.
  cbn [dealer_hand player_hand sent] in Hrun. rewrite Hrun.
  now rewrite <- app_assoc.
Qed.


(** Whatever is dealt, the server sends the three cards of the deal
    and then waits for a decision: left without one it returns "loss"
    and has sent no result. *)
Lemma nothing_follows_the_deal (rnd : tape) (fuel : nat) (g : Game) :
  Deck.ok (deck g) ->
  exists c1 c2 c3 g1,
    play_round rnd fuel [] g = (Ret (Some "loss"%string, []), g1)
    /\ player_hand g1 = [c1; c2]
    /\ sent g1 = sent g ++ [card_msg c1; card_msg c2; card_msg c3].
Proof.
  intros Hdeck.
  destruct (initial_deal_run rnd g Hdeck)
    as (c1 & c2 & c3 & c4 & d1 & p1 & Hdeal & _).
  eexists c1, c2, c3, _. split_and!.
  - unfold play_round. rewrite (bind_ret _ _ _ _ _ Hdeal). reflexivity.
  - reflexivity.
  - reflexivity.
Qed.

(** With 17 draws of fuel a round on a deck of valid cards always
    comes to a result, one of "win", "loss" and "tie". *)
Lemma play_round_returns (rnd : tape) (fuel : nat)
    (inbox : list recv_event) (g : Game) :
  Deck.ok (deck g) -> (17 <= fuel)%nat ->
  exists result inbox' g',
    play_round rnd fuel inbox g = (Ret (Some result, inbox'), g')
    /\ (result = "win" \/ result = "loss" \/ result = "tie")%string.
Proof.
  intros Hdeck Hfuel.
  destruct (initial_deal_run rnd g Hdeck)
    as (c1 & c2 & c3 & c4 & d1 & p1 & Hdeal & Hv1 & Hok1).
  set (g1 := mkGame d1 p1 [c1; c2] [c3; c4] _) in *.
  destruct (player_turn_run rnd inbox g1 Hok1)
    as (exit & inbox2 & pdrawn & d2 & p2 & tail & Hturn & Hv2 & Hok2 & Hexit).
  cbn zeta in Hturn, Hexit. change (player_hand g1) with [c1; c2] in Hturn, Hexit.
  unfold play_round. rewrite (bind_ret _ _ _ _ _ Hdeal).
  rewrite (bind_ret _ _ _ _ _ Hturn).
  destruct exit as [player_value | result].
  - apply Forall_cons in Hv1 as [_ Hv1]. apply Forall_cons in Hv1 as [_ Hv1].
    apply Forall_cons in Hv1 as [V3 Hv1]. apply Forall_cons in Hv1 as [V4 _].
    set (g2 := mkGame d2 p2 _ _ _) in *.
    destruct (dealer_turn_run rnd fuel g2 c3 c4 Hok2 eq_refl V3 V4 Hfuel)
      as (ddrawn & d3 & p3 & Hdt & _).
    rewrite (bind_ret _ _ _ _ _ Hdt).
    set (g3 := mkGame d3 p3 _ _ _).
    destruct (determine_winner_run player_value
                (calculate_hand_value ([c3; c4] ++ ddrawn)) g3) as [Hw Hne].
    cbn zeta in Hw, Hne. rewrite (bind_ret _ _ _ _ _ Hw).
    eexists _, _, _. split; [reflexivity|].
    destruct (Spec.resolved _ _); cbn; tauto.
  - destruct Hexit as [-> _]. eexists _, _, _. split; [reflexivity|]. tauto.
Qed.



End RoundClaims.

Module Witnesses.
Import Random Utf8 Protocol Server Scenario.
Import DeckFacts CodecClaims DeckClaims HandClaims RoundClaims.

Lemma natural_game_ok : Deck.ok (deck natural_game).
Proof. unfold Deck.ok. apply (bool_decide_unpack _). vm_compute. exact I. Qed.


(** The dealer on 17 exactly does not draw. *)
Example dealer_stands_on_17 :
  let r := dealer_turn natural_tape 17 dealer_17_game in
  r.1 = Ret (Some 17) /\
  dealer_hand r.2 = [(10, SUIT_SPADE); (7, SUIT_HEART)] /\
  sent r.2 = [card_msg (7, SUIT_HEART)].
Proof. cbn zeta. split_and!; vm_compute; reflexivity. Qed.

(** The player hits on 10, draws the six of clubs, hits again, draws
    the nine of spades and is bust on 25: the loss is announced. *)
Example player_busts_on_25 :
  let r := player_turn natural_tape 10
             [decision_event DECISION_HIT; decision_event DECISION_HIT]
             player_10_game in
  r.1 = Ret (Return "loss", []) /\
  calculate_hand_value (player_hand r.2) = 25 /\
  sent r.2 = [card_msg (6, SUIT_CLUB); card_msg (9, SUIT_SPADE);
              result_msg RESULT_LOSS].
Proof. cbn zeta. split_and!; vm_compute; reflexivity. Qed.

(** The player stands on 19, the dealer draws from 12 to 21: loss. *)
Example dealer_wins_19_to_21 :
  let dealer := dealer_turn natural_tape 17 dealer_12_game in
  dealer.1 = Ret (Some 21) /\
  (determine_winner 19 21 dealer.2).1 = Ret "loss"%string /\
  sent (determine_winner 19 21 dealer.2).2
  = [card_msg (5, SUIT_SPADE); card_msg (9, SUIT_CLUB);
     result_msg RESULT_LOSS].
Proof. cbn zeta. split_and!; vm_compute; reflexivity. Qed.




Lemma codec_round_trip_witness :
  0 <= 12345 <= 65535 /\ 0 <= 5 <= 255 /\ 0 <= 0 <= 255 /\
  0 <= 1 <= 65535 /\ 0 <= 3 <= 255 /\
  valid_str (lit "Test Server") /\
  encode (lit "Test Server") = Ret (encoded (lit "Test Server")) /\
  (m ← create_offer_message 12345 (lit "Test Server"); parse_offer_message m)
    = Ret (Some (12345, lit "Test Server")).
Proof.
  assert (H1 : 0 <= 12345 <= 65535) by lia.
  assert (H2 : 0 <= 5 <= 255) by lia.
  assert (H3 : 0 <= 0 <= 255) by lia.
  assert (H4 : 0 <= 1 <= 65535) by lia.
  assert (H5 : 0 <= 3 <= 255) by lia.
  assert (H6 : valid_str (lit "Test Server")).
  { unfold valid_str. apply (bool_decide_unpack _). vm_compute. exact I. }
  assert (H7 : encode (lit "Test Server") = Ret (encoded (lit "Test Server")))
    by (vm_compute; reflexivity).
  destruct (codec_round_trip 12345 5 0 1 3 (lit "Test Server") _
              H1 H2 H3 H4 H5 H6 H7) as (Hoffer & _ & Hid & _).
  repeat (split; [assumption|]).
  rewrite Hid in Hoffer; [exact Hoffer | vm_compute; lia | vm_compute; discriminate].
Defined.

(** C6, as the specification has it, fails: the name "A\0" takes two
    bytes, and comes back as "A". *)
Lemma trailing_nul_counterexample :
  let name := [65; 0] in
  valid_str name /\
  (exists b, encode name = Ret b /\ (length b <= 32)%nat) /\
  (m ← create_offer_message 12345 name; parse_offer_message m)
    = Ret (Some (12345, [65])) /\
  (m ← create_offer_message 12345 name; parse_offer_message m)
    <> Ret (Some (12345, name)) /\
  (m ← create_request_message 5 name; parse_request_message m)
    = Ret (Some (5, [65])).
Proof.
  cbn zeta. split_and!.
  - unfold valid_str. apply (bool_decide_unpack _). vm_compute. exact I.
  - eexists. split; [vm_compute; reflexivity | vm_compute; lia].
  - vm_compute. reflexivity.
  - vm_compute. discriminate.
  - vm_compute. reflexivity.
Qed.

(** Eight bytes of a ServerCard message are rejected. *)
Lemma parse_rejects_malformed_witness :
  (length (take 8 (server_bytes 0 1 3)) < 9)%nat /\
  parse_server_payload (take 8 (server_bytes 0 1 3)) = Ret None.
Proof.
  assert (H : (length (take 8 (server_bytes 0 1 3)) < 9)%nat)
    by (vm_compute; lia).
  split; [exact H|].
  destruct (parse_rejects_malformed (take 8 (server_bytes 0 1 3)))
    as (_ & _ & _ & _ & Hserver).
  apply Hserver. left. exact H.
Defined.

(** A payload that says "Hello" is accepted, whatever follows it. *)
Lemma parse_checks_frame_only_witness :
  encodable (lit "Hello") /\ (utf8_len (lit "Hello") <= 5)%nat /\
  last (lit "Hello") <> Some 0 /\
  parse_client_payload (client_bytes (lit "Hello") ++ [xff; x00])
    = Ret (Some (lit "Hello")).
Proof.
  assert (H1 : encodable (lit "Hello")).
  { unfold encodable, encodable_char. apply (bool_decide_unpack _).
    vm_compute. exact I. }
  assert (H2 : (utf8_len (lit "Hello") <= 5)%nat) by (vm_compute; lia).
  assert (H3 : last (lit "Hello") <> Some 0) by (vm_compute; discriminate).
  split_and!; try assumption.
  destruct (parse_checks_frame_only [] [xff; x00]) as (_ & _ & _ & _ & _ & Hc).
  now apply Hc.
Defined.

Lemma deck_deals_each_card_once_witness :
  exists l,
    (Deck.draws natural_tape 52 51 (Deck.reset natural_tape 0 (Deck.mk [])).1).1.1
    = map Some l /\ NoDup l /\ length l = 52%nat.
Proof.
  pose proof (deck_deals_each_card_once natural_tape 0 (Deck.mk [])) as H.
  destruct (Deck.reset natural_tape 0 (Deck.mk [])) as [d0 p0] eqn:E0.
  assert (p0 = 51%nat) as -> by (apply (f_equal snd) in E0; vm_compute in E0; congruence).
  cbn [fst snd] in *.
  destruct (Deck.draws natural_tape 52 51 d0) as [[dealt d1] p1].
  destruct (Deck.draw natural_tape p1 d1) as [[c53 d2] p2].
  destruct H as (l & Hl & Hlen & Hnd & _).
  exists l. cbn [fst]. split_and!; assumption.
Defined.

Lemma draw_never_none_witness :
  (Deck.draw natural_tape 0 (Deck.mk [])).1.1 <> None.
Proof.
  destruct (draw_never_none natural_tape 0 [] (Deck.mk [])) as (_ & H & _).
  exact H.
Defined.

End Witnesses.

Module CodecMore.
Import Utf8 Struct Protocol BytesFacts Utf8Facts DecoderFacts NameFacts
       ProtocolFacts CodecFacts CodecClaims.

(** ** Sizes *)

Lemma pack_uint_length n v x : pack_uint n v = Ret x -> length x = n.
Proof.
  unfold pack_uint. destruct (_ && _); [|discriminate].
  intros [= <-]. apply length_be_encode.
Qed.

Lemma pad_name_length name field :
  pad_name name = Ret field -> length field = NAME_SIZE.
Proof.
  unfold pad_name. destruct (encode name) as [e|]; [|discriminate].
  cbn [mbind exc_bind Exc.bind].
  destruct (Nat.ltb_spec NAME_SIZE (length e)); intros [= <-].
  - rewrite length_take. lia.
  - apply length_ljust. lia.
Qed.

Ltac bind_inv H :=
  repeat match type of H with
    | (mbind _ ?m) = Ret _ =>
        let x := fresh "x" in
        let E := fresh "E" in
        destruct m as [x|] eqn:E; [|discriminate H];
        cbn [mbind exc_bind Exc.bind] in H
    end.

(** Whatever the arguments, a message that a [create_] function
    returns has the size of its format: 39, 38, 10 and 9 bytes. *)
Theorem created_messages_have_fixed_size
    (tcp_port num_rounds result rank suit : Z) (name decision : str)
    (m : bytes) :
  (create_offer_message tcp_port name = Ret m -> length m = 39%nat) /\
  (create_request_message num_rounds name = Ret m -> length m = 38%nat) /\
  (create_client_payload decision = Ret m -> length m = 10%nat) /\
  (create_server_payload result rank suit = Ret m -> length m = 9%nat).
Proof.
  split_and!; intros H.
  - unfold create_offer_message, pack_IBH in H. bind_inv H.
    injection H as <-. bind_inv E. injection E as <-.
    rewrite !length_app, (pack_uint_length _ _ _ E1), (pack_uint_length _ _ _ E2),
      (pack_uint_length _ _ _ E3), (pad_name_length _ _ E0). reflexivity.
  - unfold create_request_message, pack_IBB in H. bind_inv H.
    injection H as <-. bind_inv E. injection E as <-.
    rewrite !length_app, (pack_uint_length _ _ _ E1), (pack_uint_length _ _ _ E2),
      (pack_uint_length _ _ _ E3), (pad_name_length _ _ E0). reflexivity.
  - unfold create_client_payload, pack_IB in H. bind_inv H.
    injection H as <-. bind_inv E0. injection E0 as <-.
    rewrite !length_app, (pack_uint_length _ _ _ E1), (pack_uint_length _ _ _ E2).
    rewrite length_ljust by (rewrite length_take; lia). reflexivity.
  - unfold create_server_payload, pack_IBBHB in H. bind_inv H.
    injection H as <-.
    rewrite !length_app, (pack_uint_length _ _ _ E), (pack_uint_length _ _ _ E0),
      (pack_uint_length _ _ _ E1), (pack_uint_length _ _ _ E2),
      (pack_uint_length _ _ _ E3). reflexivity.
Qed.

(** ** When the encoders raise *)

Lemma encode_returns_iff s :
  valid_str s ->
  returns (encode s) <-> Forall (fun ch => is_surrogate ch = false) s.
Proof.
  intros Hv. split.
  - intros [b Hb]. pose proof (encodable_of_encode s b Hv Hb) as He.
    eapply Forall_impl; [exact He|]. now intros ch [_ ?].
  - intros Hs. exists (encoded s). apply encode_ret.
    unfold encodable, encodable_char. unfold valid_str in Hv.
    rewrite Forall_forall in Hv, Hs |- *. intros ch Hin. split; auto.
Qed.

Lemma pack_uint_returns_iff n v :
  returns (pack_uint n v) <-> 0 <= v < 256 ^ Z.of_nat n.
Proof.
  split.
  - intros [x Hx]. destruct (decide (0 <= v < 256 ^ Z.of_nat n)); [assumption|].
    rewrite pack_uint_raise in Hx by assumption. discriminate.
  - intros Hv. rewrite pack_uint_ret by assumption. now eexists.
Qed.

Lemma pad_name_returns_iff name : returns (pad_name name) <-> returns (encode name).
Proof.
  unfold pad_name. destruct (encode name) as [e|]; cbn [mbind exc_bind Exc.bind].
  - split; intros _; [now eexists|]. destruct (_ <? _)%nat; now eexists.
  - tauto.
Qed.

(** [create_server_payload] returns exactly when each field fits its
    width, and otherwise raises [struct.error]; the other three return
    exactly when their number fits and [str.encode] accepts the string,
    which for a [str] means that it holds no surrogate. *)
Theorem create_returns_iff
    (tcp_port num_rounds result rank suit : Z) (name decision : str)
    (Hname : valid_str name) (Hdecision : valid_str decision) :
  (returns (create_server_payload result rank suit) <->
   0 <= result <= 255 /\ 0 <= rank <= 65535 /\ 0 <= suit <= 255) /\
  (~ returns (create_server_payload result rank suit) ->
   create_server_payload result rank suit = Raise StructError) /\
  (returns (create_offer_message tcp_port name) <->
   0 <= tcp_port <= 65535
   /\ Forall (fun ch => is_surrogate ch = false) name) /\
  (returns (create_request_message num_rounds name) <->
   0 <= num_rounds <= 255
   /\ Forall (fun ch => is_surrogate ch = false) name) /\
  (returns (create_client_payload decision) <->
   Forall (fun ch => is_surrogate ch = false) decision).
Proof.
  assert (Hm : pack_uint 4 MAGIC_COOKIE = Ret (be_encode 4 MAGIC_COOKIE))
    by (apply pack_uint_ret; vm_compute; split; congruence).
  assert (Ht : forall t, 0 <= t <= 4 -> pack_uint 1 t = Ret (be_encode 1 t))
    by (intros t Ht; apply pack_uint_ret;
        change (256 ^ Z.of_nat 1) with 256; lia).
  split_and!.
  - split.
    + intros [m Hm']. unfold create_server_payload, pack_IBBHB in Hm'.
      bind_inv Hm'.
      pose proof (proj1 (pack_uint_returns_iff 1 result) (ex_intro _ _ E1)).
      pose proof (proj1 (pack_uint_returns_iff 2 rank) (ex_intro _ _ E2)).
      pose proof (proj1 (pack_uint_returns_iff 1 suit) (ex_intro _ _ E3)).
      change (256 ^ Z.of_nat 1) with 256 in *.
      change (256 ^ Z.of_nat 2) with 65536 in *. lia.
    + intros (Hr & Hk & Hs). rewrite create_server_payload_ret by assumption.
      now eexists.
  - intros Hno.
    unfold create_server_payload, pack_IBBHB.
    rewrite Hm, (Ht MSG_TYPE_PAYLOAD) by (unfold MSG_TYPE_PAYLOAD; lia).
    cbn [mbind exc_bind Exc.bind].
    destruct (decide (0 <= result < 256 ^ Z.of_nat 1)) as [Hr|Hr];
      [rewrite (pack_uint_ret 1 result Hr)
      | now rewrite (pack_uint_raise 1 result Hr)].
    destruct (decide (0 <= rank < 256 ^ Z.of_nat 2)) as [Hk|Hk];
      [rewrite (pack_uint_ret 2 rank Hk)
      | now rewrite (pack_uint_raise 2 rank Hk)].
    destruct (decide (0 <= suit < 256 ^ Z.of_nat 1)) as [Hs|Hs];
      [rewrite (pack_uint_ret 1 suit Hs)
      | now rewrite (pack_uint_raise 1 suit Hs)].
    exfalso. apply Hno.
    change (256 ^ Z.of_nat 1) with 256 in *.
    change (256 ^ Z.of_nat 2) with 65536 in *.
    rewrite create_server_payload_ret by lia. now eexists.
  - rewrite <- (encode_returns_iff name Hname), <- pad_name_returns_iff.
    unfold create_offer_message, pack_IBH.
    rewrite Hm, (Ht MSG_TYPE_OFFER) by (unfold MSG_TYPE_OFFER; lia).
    cbn [mbind exc_bind Exc.bind].
    split.
    + intros [m Hm']. bind_inv Hm'. bind_inv E.
      pose proof (proj1 (pack_uint_returns_iff 2 tcp_port) (ex_intro _ _ E1)).
      change (256 ^ Z.of_nat 1) with 256 in *.
      change (256 ^ Z.of_nat 2) with 65536 in *.
      split; [lia | now eexists].
    + intros [Hp [f Hf]].
      rewrite pack_uint_ret
        by (change (256 ^ Z.of_nat 1) with 256;
            change (256 ^ Z.of_nat 2) with 65536; lia).
      rewrite Hf. now eexists.
  - rewrite <- (encode_returns_iff name Hname), <- pad_name_returns_iff.
    unfold create_request_message, pack_IBB.
    rewrite Hm, (Ht MSG_TYPE_REQUEST) by (unfold MSG_TYPE_REQUEST; lia).
    cbn [mbind exc_bind Exc.bind].
    split.
    + intros [m Hm']. bind_inv Hm'. bind_inv E.
      pose proof (proj1 (pack_uint_returns_iff 1 num_rounds) (ex_intro _ _ E1)).
      change (256 ^ Z.of_nat 1) with 256 in *.
      change (256 ^ Z.of_nat 2) with 65536 in *.
      split; [lia | now eexists].
    + intros [Hp [f Hf]].
      rewrite pack_uint_ret
        by (change (256 ^ Z.of_nat 1) with 256;
            change (256 ^ Z.of_nat 2) with 65536; lia).
      rewrite Hf. now eexists.
  - rewrite <- (encode_returns_iff decision Hdecision).
    unfold create_client_payload, pack_IB.
    destruct (encode decision) as [e|]; cbn [mbind exc_bind Exc.bind].
    + rewrite Hm, (Ht MSG_TYPE_PAYLOAD) by (unfold MSG_TYPE_PAYLOAD; lia).
      split; intros _; now eexists.
    + split; intros [? ?]; discriminate.
Qed.

(** ** One parser on another's message *)

Lemma framed_tag size tag tag' rest :
  tag <> tag' -> ~ framed size tag' ((MAGIC_BYTES ++ [tag]) ++ rest).
Proof. intros Hne (_ & _ & Ht). cbn in Ht. congruence. Qed.

(** An offer is no request and a request no offer, and neither parser
    of a discovery message takes a payload, whatever follows the
    message in the buffer. The two payloads are told apart by their
    length only: a client payload is a server payload to
    [parse_server_payload], and a server payload followed by one more
    byte is a client payload to [parse_client_payload]. *)
Theorem parsers_on_other_messages
    (tcp_port num_rounds result rank suit : Z) (name decision : str)
    (extra : bytes) (x : byte) :
  parse_request_message (offer_bytes tcp_port name ++ extra) = Ret None /\
  parse_offer_message (request_bytes num_rounds name ++ extra) = Ret None /\
  parse_offer_message (client_bytes decision ++ extra) = Ret None /\
  parse_request_message (server_bytes result rank suit ++ extra) = Ret None /\
  parse_client_payload (server_bytes result rank suit) = Ret None /\
  parse_client_payload (server_bytes result rank suit ++ x :: extra)
    <> Ret None /\
  parse_server_payload (client_bytes decision ++ extra) <> Ret None.
Proof.
  split_and!.
  - rewrite parse_request_message_eq. unfold offer_bytes.
    rewrite <- !app_assoc, (app_assoc MAGIC_BYTES).
    rewrite bool_decide_eq_false_2; [reflexivity | now apply framed_tag].
  - rewrite parse_offer_message_eq. unfold request_bytes.
    rewrite <- !app_assoc, (app_assoc MAGIC_BYTES).
    rewrite bool_decide_eq_false_2; [reflexivity | now apply framed_tag].
  - rewrite parse_offer_message_eq. unfold client_bytes.
    rewrite <- !app_assoc, (app_assoc MAGIC_BYTES).
    rewrite bool_decide_eq_false_2; [reflexivity | now apply framed_tag].
  - rewrite parse_request_message_eq. unfold server_bytes.
    rewrite <- !app_assoc, (app_assoc MAGIC_BYTES).
    rewrite bool_decide_eq_false_2; [reflexivity | now apply framed_tag].
  - rewrite parse_client_payload_eq.
    rewrite bool_decide_eq_false_2; [reflexivity|].
    intros (Hl & _). unfold server_bytes in Hl.
    rewrite !length_app, !length_be_encode in Hl. simpl in Hl. lia.
  - rewrite parse_client_payload_eq. unfold server_bytes.
    rewrite <- !app_assoc, (app_assoc MAGIC_BYTES).
    rewrite bool_decide_eq_true_2; [discriminate|].
    apply framed_prefix. rewrite !length_app, !length_be_encode. simpl. lia.
  - rewrite parse_server_payload_eq. unfold client_bytes.
    rewrite <- !app_assoc, (app_assoc MAGIC_BYTES).
    rewrite bool_decide_eq_true_2; [discriminate|].
    apply framed_prefix. rewrite !length_app, length_field. simpl. lia.
Qed.

(** ** What survives a name field *)

Lemma fit_prefix n s : fit n s `prefix_of` s.
Proof.
  revert n. induction s as [|ch s IH]; intros n; cbn [fit].
  - reflexivity.
  - destruct (_ <=? _)%nat; [now apply prefix_cons | apply prefix_nil].
Qed.

Lemma rstrip_prefix {A} `{EqDecision A} (c : A) (l : list A) :
  rstrip c l `prefix_of` l.
Proof.
  induction l as [|x l IH] using rev_ind; [reflexivity|].
  destruct (decide (x = c)) as [->|Hne].
  - rewrite rstrip_snoc_eq. etransitivity; [exact IH | now apply prefix_app_r].
  - now rewrite rstrip_snoc_ne.
Qed.

Lemma field_trip_prefix n s : field_trip n s `prefix_of` s.
Proof.
  unfold field_trip. destruct (_ || _).
  - etransitivity; [apply rstrip_prefix | apply fit_prefix].
  - apply fit_prefix.
Qed.

Lemma utf8_len_app s t : utf8_len (s ++ t) = (utf8_len s + utf8_len t)%nat.
Proof.
  induction s as [|ch s IH]; [reflexivity|].
  rewrite <- app_comm_cons, !utf8_len_cons, IH. lia.
Qed.

Lemma field_trip_len n s : (utf8_len (field_trip n s) <= n)%nat.
Proof.
  unfold field_trip. pose proof (fit_len n s) as Hf. destruct (_ || _); [|exact Hf].
  destruct (rstrip_prefix 0 (fit n s)) as [k Hk].
  rewrite Hk, utf8_len_app in Hf. lia.
Qed.

(** A name comes out of a name field as a prefix of what went in, and
    whole exactly when its encoding takes at most 32 bytes and it does
    not end in U+0000. *)
Theorem name_survives_iff (name : str) (b : bytes)
    (Hname : valid_str name) (Hb : encode name = Ret b) :
  exists field,
    pad_name name = Ret field /\ length field = 32%nat
    /\ unpad_name field `prefix_of` name
    /\ (unpad_name field = name <->
        (length b <= 32)%nat /\ last name <> Some 0).
Proof.
  pose proof (encodable_of_encode name b Hname Hb) as Hs.
  pose proof (encode_length name b Hname Hb) as Hlen.
  exists (ljust NAME_SIZE x00 (take NAME_SIZE (encoded name))).
  split; [now apply pad_name_ret|]. split; [apply length_field|].
  unfold unpad_name. rewrite field_decode by assumption.
  split; [apply field_trip_prefix|]. split.
  - intros Heq. pose proof (field_trip_len NAME_SIZE name) as Hl.
    rewrite Heq in Hl. split; [unfold NAME_SIZE in Hl; lia|].
    intros Hlast. unfold field_trip in Heq.
    rewrite fit_all in Heq by assumption.
    destruct (Nat.leb_spec (utf8_len name) NAME_SIZE); [|lia]. cbn [orb] in Heq.
    apply last_Some in Hlast as [l' ->].
    rewrite rstrip_snoc_eq in Heq.
    pose proof (rstrip_prefix 0 l') as [k Hk].
    apply (f_equal length) in Heq. rewrite Hk in Heq at 2.
    rewrite !length_app in Heq. simpl in Heq. lia.
  - intros [Hfit Hlast]. apply field_trip_id; [unfold NAME_SIZE; lia | assumption].
Qed.

End CodecMore.

Module HandMore.
Import Protocol HandFacts.

(** The loop of the client's [calculate_hand_value] in closed form: it
    takes 10 as many times as there are aces, or as it takes to come
    down to 21, whichever is less. *)
Lemma adjust_aces_closed n total :
  Client.adjust_aces n total
  = total - 10 * Z.min (Z.of_nat n) (Z.max 0 ((total - 12) / 10)).
Proof.
  revert total. induction n as [|n IH]; intros total; cbn [Client.adjust_aces].
  - destruct (21 <? total); lia.
  - destruct (Z.ltb_spec 21 total) as [Hgt|Hle].
    + rewrite IH.
      replace ((total - 12) / 10) with ((total - 10 - 12) / 10 + 1)
        by (rewrite <- Z.div_add by lia; f_equal; lia).
      assert (0 <= (total - 10 - 12) / 10) by (apply Z.div_pos; lia).
      lia.
    + assert ((total - 12) / 10 <= 0).
      { apply Z.lt_succ_r. apply Z.div_lt_upper_bound; lia. }
      lia.
Qed.

Lemma sum_Permutation (l l' : list Z) :
  l ≡ₚ l' -> Server.sum l = Server.sum l'.
Proof.
  unfold Server.sum. induction 1; cbn [foldr]; lia.
Qed.

(** The two sides' counts of one hand, whatever the cards: the client's
    is the server's less 10 for each ace that has to count as 1, so it
    is never more, it is the same exactly when the server's count is at
    most 21 or the hand has no ace, and it is over 21 exactly when the
    hand is over 21 with every ace counted as 1. *)
Theorem client_value_closed_form (hand : list card) :
  let s := Server.calculate_hand_value hand in
  let a := Z.of_nat (Spec.aces hand) in
  Client.calculate_hand_value hand
  = s - 10 * Z.min a (Z.max 0 ((s - 12) / 10)) /\
  s - 10 * a <= Client.calculate_hand_value hand <= s /\
  (Client.calculate_hand_value hand = s <-> s <= 21 \/ a = 0) /\
  (21 < Client.calculate_hand_value hand <-> 21 < s - 10 * a).
Proof.
  cbn zeta.
  assert (Hc : Client.calculate_hand_value hand
               = Server.calculate_hand_value hand
                 - 10 * Z.min (Z.of_nat (Spec.aces hand))
                     (Z.max 0 ((Server.calculate_hand_value hand - 12) / 10))).
  { unfold Client.calculate_hand_value, Server.calculate_hand_value.
    rewrite aces_count. apply adjust_aces_closed. }
  rewrite Hc.
  set (s := Server.calculate_hand_value hand).
  set (a := Z.of_nat (Spec.aces hand)).
  assert (Ha : 0 <= a) by (unfold a; lia).
  assert (Hq : s <= 21 -> (s - 12) / 10 <= 0).
  { intros ?. apply Z.lt_succ_r. apply Z.div_lt_upper_bound; lia. }
  assert (Hp : 21 < s -> 1 <= (s - 12) / 10 /\
                         10 * ((s - 12) / 10) <= s - 12 < 10 * ((s - 12) / 10) + 10).
  { intros ?. pose proof (Z.div_mod (s - 12) 10 ltac:(lia)).
    pose proof (Z.mod_pos_bound (s - 12) 10 ltac:(lia)). lia. }
  destruct (Z_le_gt_dec s 21) as [Hle|Hgt].
  - specialize (Hq Hle). split_and!; lia.
  - destruct (Hp ltac:(lia)) as [H1 H2]. split_and!; lia.
Qed.

(** Neither count depends on the order of the cards in the hand. *)
Theorem hand_value_order_independent (hand hand' : list card)
    (Hperm : hand ≡ₚ hand') :
  Server.calculate_hand_value hand = Server.calculate_hand_value hand' /\
  Client.calculate_hand_value hand = Client.calculate_hand_value hand'.
Proof.
  assert (Hs : Server.calculate_hand_value hand
               = Server.calculate_hand_value hand').
  { unfold Server.calculate_hand_value. apply sum_Permutation.
    now apply fmap_Permutation. }
  split; [exact Hs|].
  unfold Client.calculate_hand_value.
  unfold Server.calculate_hand_value in Hs. rewrite Hs.
  f_equal. apply Permutation_length. now rewrite Hperm.
Qed.

(** The client's test for a blackjack, [player_value == 21] on the two
    cards of the deal, holds exactly for an ace with a ten, a jack, a
    queen or a king; and the client never sees more than 21 on two
    cards, where the server counts two aces as 22. *)
Theorem client_blackjack_iff (c1 c2 : card)
    (H1 : Deck.valid_card c1) (H2 : Deck.valid_card c2) :
  (Client.calculate_hand_value [c1; c2] = 21 <->
   (c1.1 = 1 /\ 10 <= c2.1) \/ (10 <= c1.1 /\ c2.1 = 1)) /\
  Client.calculate_hand_value [c1; c2] <= 21 /\
  (21 < Server.calculate_hand_value [c1; c2] <-> c1.1 = 1 /\ c2.1 = 1).
Proof.
  destruct c1 as [r1 s1], c2 as [r2 s2].
  destruct H1 as [H1 _], H2 as [H2 _]. cbn [fst] in *.
  assert (Hv : forall r, 1 <= r <= 13 ->
                 (r = 1 -> get_card_value r = 11) /\
                 (r <> 1 -> 2 <= get_card_value r <= 10
                            /\ (10 <= r <-> get_card_value r = 10))).
  { intros r Hr. unfold get_card_value.
    destruct (Z.eqb_spec r 1); [split; [reflexivity | tauto]|].
    destruct (Z.leb_spec 11 r); split; intros; try tauto; lia. }
  destruct (Hv r1 H1) as [Ha1 Hn1], (Hv r2 H2) as [Ha2 Hn2].
  unfold Client.calculate_hand_value, Server.calculate_hand_value, Server.sum.
  rewrite adjust_aces_closed.
  cbn [map foldr]. rewrite !filter_cons, filter_nil. cbn [fst].
  set (v1 := get_card_value r1) in *. set (v2 := get_card_value r2) in *.
  rewrite Z.add_0_r.
  destruct (decide (r1 = 1)) as [E1|N1], (decide (r2 = 1)) as [E2|N2];
    cbn [length];
    try specialize (Ha1 E1); try specialize (Ha2 E2);
    try specialize (Hn1 N1); try specialize (Hn2 N2);
    Z.div_mod_to_equations; lia.
Qed.

End HandMore.

Module DeckMore.
Import Random RandomFacts DeckFacts.

#[global] Instance op_eq_dec : EqDecision Deck.op.
Proof. solve_decision. Defined.

(** A list of distinct cards of the pack holds at most 52 of them. *)
Lemma pack_length (l : list card) :
  NoDup l -> Forall Deck.valid_card l -> (length l <= 52)%nat.
Proof.
  intros Hnd Hv. rewrite <- fresh_cards_length.
  apply submseteq_length, NoDup_submseteq; [assumption|].
  intros c Hc. apply fresh_cards_all.
  rewrite Forall_forall in Hv. now apply Hv.
Qed.

Section WithTape.
Variable rnd : tape.

Lemma reset_pack pos d :
  exists cs, Deck.reset rnd pos d = (Deck.mk cs, (pos + 51)%nat)
             /\ NoDup cs /\ Forall Deck.valid_card cs /\ length cs = 52%nat.
Proof.
  destruct (reset_spec rnd pos d) as (cs & -> & Hp).
  exists cs. split_and!; [reflexivity | | |].
  - rewrite Hp. apply fresh_cards_NoDup.
  - rewrite Hp. apply fresh_cards_valid.
  - rewrite Hp. apply fresh_cards_length.
Qed.

(** One [draw]: the card on top leaves a deck that has cards, without
    a shuffle; an empty deck is shuffled first, for 51 numbers of the
    tape. Either way the card dealt is a card of the pack that is no
    longer in the deck. *)
Lemma draw_pack pos d :
  NoDup (Deck.cards d) -> Deck.ok d ->
  exists c rest k,
    Deck.draw rnd pos d = (Some c, Deck.mk rest, (pos + 51 * k)%nat)
    /\ Deck.valid_card c /\ (c ∉ rest)
    /\ NoDup rest /\ Forall Deck.valid_card rest
    /\ (Deck.cards d <> [] -> Deck.cards d = rest ++ [c] /\ k = 0%nat)
    /\ (Deck.cards d = [] -> length rest = 51%nat /\ k = 1%nat).
Proof.
  destruct d as [cs]. unfold Deck.ok. cbn [Deck.cards]. intros Hnd Hok.
  destruct cs as [|c l _] using rev_ind.
  - destruct (draw_empty rnd pos) as (l & c & -> & Hp).
    pose proof fresh_cards_NoDup as Hn. rewrite <- Hp in Hn.
    pose proof fresh_cards_valid as Hv. rewrite <- Hp in Hv.
    apply NoDup_app in Hn as (Hn & Hd & _).
    apply Forall_app in Hv as [Hl Hc]. apply Forall_inv in Hc.
    exists c, l, 1%nat. split_and!; try assumption.
    + first [reflexivity | f_equal; lia].
    + intros Hin. apply (Hd c Hin). apply list_elem_of_here.
    + intros H. now contradiction H.
    + intros _. apply Permutation_length in Hp.
      rewrite length_app, fresh_cards_length in Hp. simpl in Hp.
      split; [lia | reflexivity].
  - rewrite draw_snoc.
    apply NoDup_app in Hnd as (Hn & Hd & _).
    apply Forall_app in Hok as [Hl Hc]. apply Forall_inv in Hc.
    exists c, l, 0%nat. split_and!; try assumption.
    + first [reflexivity | f_equal; lia].
    + intros Hin. apply (Hd c Hin). apply list_elem_of_here.
    + intros _. now split.
    + intros H. destruct l; discriminate H.
Qed.

End WithTape.

(** Whatever sequence of [draw] and [reset] calls a deck of distinct
    cards of the pack goes through, it stays one, of at most 52 cards;
    every [draw] deals a card of the pack; and the tape is read 51
    numbers at a time, once for each shuffle. *)
Theorem deck_stays_a_pack (rnd : tape) (ops : list Deck.op) (pos : nat)
    (d : Deck.t) (Hnodup : NoDup (Deck.cards d)) (Hok : Deck.ok d) :
  exists dealt d' k,
    Deck.run rnd ops pos d = (map Some dealt, d', (pos + 51 * k)%nat)
    /\ length dealt = length (filter (fun o => o = Deck.OpDraw) ops)
    /\ Forall Deck.valid_card dealt
    /\ NoDup (Deck.cards d') /\ Deck.ok d'
    /\ (length (Deck.cards d') <= 52)%nat
    /\ (length (filter (fun o => o = Deck.OpReset) ops) <= k)%nat.
Proof.
  revert pos d Hnodup Hok.
  induction ops as [|o ops IH]; intros pos d Hnodup Hok.
  - exists [], d, 0%nat. cbn [Deck.run map length filter].
    split_and!; try done.
    + first [reflexivity | f_equal; lia].
    + now apply pack_length.
  - destruct o; cbn [Deck.run].
    + destruct (draw_pack rnd pos d Hnodup Hok)
        as (c & rest & k & -> & Hc & _ & Hn & Hv & _).
      destruct (IH (pos + 51 * k)%nat (Deck.mk rest) Hn Hv)
        as (dealt & d' & k' & -> & Hlen & Hdealt & Hn' & Hok' & Hl & Hk).
      exists (c :: dealt), d', (k + k')%nat.
      rewrite filter_cons_True by reflexivity.
      rewrite filter_cons_False by discriminate.
      cbn [map length]. split_and!; try assumption.
      * first [reflexivity | f_equal; lia].
      * now rewrite Hlen.
      * now constructor.
      * lia.
    + destruct (reset_pack rnd pos d) as (cs & -> & Hn & Hv & _).
      destruct (IH (pos + 51)%nat (Deck.mk cs) Hn Hv)
        as (dealt & d' & k' & -> & Hlen & Hdealt & Hn' & Hok' & Hl & Hk).
      exists dealt, d', (S k').
      rewrite filter_cons_False by discriminate.
      rewrite filter_cons_True by reflexivity.
      cbn [length]. split_and!; try assumption.
      * first [reflexivity | f_equal; lia].
      * lia.
Qed.

End DeckMore.

Module RoundMore.
Import Random Protocol Server Trace.
Import BytesFacts CodecFacts DeckFacts ServerFacts RoundFacts RoundClaims.

Lemma hits_nil : hits [] = 0%nat.
Proof. reflexivity. Qed.

Lemma hits_cons ev evs :
  hits (ev :: evs)
  = ((if decide (receive_decision ev = Some DECISION_HIT) then 1 else 0)
     + hits evs)%nat.
Proof.
  unfold hits. rewrite filter_cons.
  now destruct (decide (receive_decision ev = Some DECISION_HIT)).
Qed.

Lemma hits_app evs1 evs2 : hits (evs1 ++ evs2) = (hits evs1 + hits evs2)%nat.
Proof. unfold hits. now rewrite filter_app, length_app. Qed.

Lemma stand_is_no_hit : DECISION_STAND <> DECISION_HIT.
Proof. discriminate. Qed.

Section WithTape.
Variable rnd : tape.

(** ** The player's turn, receive by receive *)

(** The turn reads the events [consumed] and leaves the rest. It
    deals one card for each "Hittt" among them, each on a hand that
    was worth 21 or less. It is left on "Stand", which is then the
    last event read; on a bust, with the closing message "loss"; or
    on a failed receive, the last event read or the time-out on an
    exhausted queue, with no closing message. *)
Lemma player_turn_trace inbox g :
  Deck.ok (deck g) ->
  exists exit consumed inbox' drawn d pos tail,
    let hand := player_hand g ++ drawn in
    inbox = consumed ++ inbox'
    /\ player_turn rnd (calculate_hand_value (player_hand g)) inbox g
       = (Ret (exit, inbox'),
          mkGame d pos hand (dealer_hand g)
                 (sent g ++ map card_msg drawn ++ tail))
    /\ Forall Deck.valid_card drawn /\ Deck.ok d
    /\ length drawn = hits consumed
    /\ (forall k, (0 < k < length drawn)%nat ->
          calculate_hand_value (player_hand g ++ take k drawn) <= 21)
    /\ match exit with
       | Break player_value =>
           player_value = calculate_hand_value hand /\ tail = []
           /\ (drawn <> [] -> calculate_hand_value hand <= 21)
           /\ exists before ev,
                consumed = before ++ [ev]
                /\ receive_decision ev = Some DECISION_STAND
       | Return result =>
           result = "loss"%string
           /\ ((tail = []
                /\ (drawn <> [] -> calculate_hand_value hand <= 21)
                /\ ((consumed = inbox /\ inbox' = []
                     /\ Forall (fun ev => receive_decision ev <> None)
                               consumed)
                    \/ exists before ev,
                         consumed = before ++ [ev]
                         /\ receive_decision ev = None))
               \/ (tail = [result_msg RESULT_LOSS]
                   /\ 21 < calculate_hand_value hand
                   /\ exists before ev,
                        consumed = before ++ [ev]
                        /\ receive_decision ev = Some DECISION_HIT))
       end.
Proof.
  revert g. induction inbox as [|ev rest IH]; intros g Hok.
  - exists (Return "loss"), [], [], [], (deck g), (rpos g), [].
    cbn [player_turn map app]. cbn zeta. rewrite !app_nil_r.
    destruct g; cbn [deck rpos player_hand dealer_hand sent] in *.
    split_and!; try done.
    all: try (cbn [length]; lia).
    left. split_and!; try done. left. split_and!; done.
  - cbn [player_turn].
    destruct (receive_decision ev) as [decision|] eqn:Hev.
    2:{ exists (Return "loss"), [ev], rest, [], (deck g), (rpos g), [].
        cbn [map app]. cbn zeta. rewrite !app_nil_r.
        destruct g; cbn [deck rpos player_hand dealer_hand sent] in *.
        split_and!; try done.
        all: try (rewrite hits_cons, Hev, decide_False by discriminate;
                  reflexivity).
        all: try (cbn [length]; lia).
        left. split_and!; try done. right. now exists [], ev. }
    destruct (decide (decision = DECISION_STAND)) as [->|Hns].
    { exists (Break (calculate_hand_value (player_hand g))), [ev], rest, [],
        (deck g), (rpos g), [].
      cbn [map app]. cbn zeta. rewrite !app_nil_r.
      destruct g; cbn [deck rpos player_hand dealer_hand sent] in *.
      split_and!; try done.
      all: try (rewrite hits_cons, Hev, decide_False;
                [reflexivity | intros [= H]; now apply stand_is_no_hit]).
      all: try (cbn [length]; lia).
      now exists [], ev. }
    destruct (decide (decision = DECISION_HIT)) as [->|Hnh].
    2:{ destruct (IH g Hok)
          as (exit & consumed & inbox' & drawn & d & pos & tail
              & Hin & Hrun & Hv & Hd & Hlen & Hpre & Hexit).
        exists exit, (ev :: consumed), inbox', drawn, d, pos, tail.
        cbn zeta in *. split_and!; try assumption.
        - now rewrite Hin.
        - rewrite hits_cons, Hev, decide_False; [exact Hlen|].
          intros [= H]. now apply Hnh.
        - destruct exit as [pv|res].
          + destruct Hexit as (Hpv & Ht & Hle & before & ev' & Hc & He).
            split_and!; try assumption.
            exists (ev :: before), ev'. now rewrite Hc.
          + destruct Hexit as [Hres Hcases]. split; [assumption|].
            destruct Hcases as [(Ht & Hle & Hc)|(Ht & Hb & before & ev' & Hc & He)].
            * left. split_and!; try assumption.
              destruct Hc as [(Hc & Hi & Hall)|(before & ev' & Hc & He)].
              -- left. subst inbox'. rewrite app_nil_r in Hin. subst consumed.
                 split_and!; try done.
                 apply List.Forall_cons; [|assumption]. now rewrite Hev.
              -- right. exists (ev :: before), ev'. now rewrite Hc.
            * right. split_and!; try assumption.
              exists (ev :: before), ev'. now rewrite Hc. }
    destruct (draw_card_run rnd g Hok) as (c & d & pos & Hdraw & Hc & Hd).
    rewrite (bind_ret _ _ _ _ _ Hdraw).
    unfold append_player, modify, mbind at 1, M_bind at 1.
    cbn [deck rpos player_hand dealer_hand sent].
    rewrite (bind_ret _ _ _ _ _ (send_card_valid _ _ Hc)).
    cbn [deck rpos player_hand dealer_hand sent].
    unfold gets, mbind at 1, M_bind at 1. cbn [player_hand].
    set (g1 := mkGame d pos (player_hand g ++ [c]) (dealer_hand g)
                      (sent g ++ [card_msg c])).
    destruct (Z.ltb_spec 21 (calculate_hand_value (player_hand g ++ [c])))
      as [Hbust|Hfine].
    + rewrite (bind_ret _ _ _ _ _ (send_result RESULT_LOSS g1 ltac:(unfold RESULT_LOSS; lia))).
      exists (Return "loss"), [ev], rest, [c], d, pos, [result_msg RESULT_LOSS].
      unfold g1. cbn [deck rpos player_hand dealer_hand sent map].
      rewrite <- !app_assoc. cbn [app]. cbn zeta.
      split_and!; try done.
      all: try (apply List.Forall_cons; [assumption | apply List.Forall_nil]).
      all: try (rewrite hits_cons, Hev, decide_True by reflexivity;
                reflexivity).
      all: try (cbn [length]; lia).
      right. split_and!; try done. now exists [], ev.
    + destruct (IH g1 Hd)
        as (exit & consumed & inbox' & drawn & d' & pos' & tail
            & Hin & Hrun & Hv & Hok' & Hlen & Hpre & Hexit).
      exists exit, (ev :: consumed), inbox', (c :: drawn), d', pos', tail.
      cbn zeta in Hrun, Hexit, Hpre |- *. unfold g1 in Hrun, Hexit, Hpre.
      cbn [dealer_hand player_hand sent] in Hrun, Hexit, Hpre.
      rewrite <- app_assoc in Hexit. cbn [app] in Hexit.
      assert (Hval : drawn <> [] \/ drawn = [] ->
                     c :: drawn <> [] ->
                     (drawn <> [] ->
                      calculate_hand_value (player_hand g ++ c :: drawn) <= 21) ->
                     calculate_hand_value (player_hand g ++ c :: drawn) <= 21).
      { intros [Hne | ->] _ H; [now apply H|]. exact Hfine. }
      assert (Hdec : drawn <> [] \/ drawn = [])
        by (destruct drawn; [now right | now left]).
      split_and!.
      * now rewrite Hin.
      * fold g1 in Hrun. rewrite Hrun. cbn [map].
        now rewrite <- !app_assoc.
      * now apply List.Forall_cons.
      * exact Hok'.
      * rewrite hits_cons, Hev, decide_True by reflexivity.
        cbn [length]. now rewrite Hlen.
      * intros [|k] Hk; [lia|]. cbn [take].
        destruct k as [|k].
        -- rewrite take_0. exact Hfine.
        -- specialize (Hpre (S k)). rewrite <- app_assoc in Hpre.
           apply Hpre. cbn [length] in Hk. lia.
      * destruct exit as [pv|res].
        -- destruct Hexit as (Hpv & Ht & Hle & before & ev' & Hc' & He).
           split_and!; try assumption.
           ++ intros Hne. now apply Hval.
           ++ exists (ev :: before), ev'. now rewrite Hc'.
        -- destruct Hexit as [Hres Hcases]. split; [assumption|].
           destruct Hcases as [(Ht & Hle & Hc')|(Ht & Hb & before & ev' & Hc' & He)].
           ++ left. split_and!; try assumption.
              { intros Hne. now apply Hval. }
              destruct Hc' as [(Hc' & Hi & Hall)|(before & ev' & Hc' & He)].
              ** left. subst inbox'. rewrite app_nil_r in Hin. subst consumed.
                 split_and!; try done.
                 apply List.Forall_cons; [|assumption]. now rewrite Hev.
              ** right. exists (ev :: before), ev'. now rewrite Hc'.
           ++ right. split_and!; try assumption.
              exists (ev :: before), ev'. now rewrite Hc'.
Qed.

(** ** The dealer's turn *)

Lemma dealer_turn_full fuel g c1 c2 :
  Deck.ok (deck g) -> dealer_hand g = [c1; c2] ->
  Deck.valid_card c1 -> Deck.valid_card c2 -> (17 <= fuel)%nat ->
  exists drawn d pos,
    dealer_turn rnd fuel g
    = (Ret (Some (calculate_hand_value ([c1; c2] ++ drawn))),
       mkGame d pos (player_hand g) ([c1; c2] ++ drawn)
              (sent g ++ card_msg c2 :: map card_msg drawn))
    /\ Forall Deck.valid_card drawn /\ Deck.ok d
    /\ 17 <= calculate_hand_value ([c1; c2] ++ drawn).
Proof.
  intros Hdeck Hhand Hc1 Hc2 Hfuel.
  rewrite (dealer_turn_reveal rnd fuel g c1 c2 Hhand Hc2).
  set (g1 := mkGame _ _ _ _ _).
  destruct (dealer_loop_run rnd fuel g1 Hdeck
              (two_cards_fuel fuel c1 c2 Hc1 Hc2 Hfuel))
    as (drawn & d & pos & Hrun & Hv & Hok & H17 & _).
  exists drawn, d, pos. cbn zeta in Hrun, H17. unfold g1 in Hrun, H17 |- *.
  cbn [dealer_hand player_hand sent] in Hrun, H17. rewrite Hrun.
  rewrite <- app_assoc. split_and!; done.
Qed.

(** ** One round, whichever way it goes *)

(** The round deals [c1], [c2] to the player and [c3], [c4] to the
    dealer, and sends the first three. It ends in the player's turn,
    the dealer's second card unsent, or goes through the dealer's
    turn and the comparison. *)
Lemma play_round_run fuel inbox g :
  Deck.ok (deck g) -> (17 <= fuel)%nat ->
  exists c1 c2 c3 c4 consumed inbox' pdrawn d pos,
    let phand := [c1; c2] ++ pdrawn in
    Forall Deck.valid_card [c1; c2; c3; c4]
    /\ Forall Deck.valid_card pdrawn /\ Deck.ok d
    /\ inbox = consumed ++ inbox'
    /\ length pdrawn = hits consumed
    /\ ((exists tail,
           play_round rnd fuel inbox g
           = (Ret (Some "loss"%string, inbox'),
              mkGame d pos phand [c3; c4]
                     (sent g ++ map card_msg ([c1; c2; c3] ++ pdrawn) ++ tail))
           /\ (tail = []
               \/ (tail = [result_msg RESULT_LOSS]
                   /\ 21 < calculate_hand_value phand
                   /\ consumed <> [])))
        \/ (exists ddrawn,
              let dhand := [c3; c4] ++ ddrawn in
              let o := Spec.resolved (calculate_hand_value phand)
                                     (calculate_hand_value dhand) in
              play_round rnd fuel inbox g
              = (Ret (Some (Spec.name o), inbox'),
                 mkGame d pos phand dhand
                        (sent g
                         ++ map card_msg ([c1; c2; c3] ++ pdrawn ++ c4 :: ddrawn)
                         ++ [result_msg (Spec.code o)]))
              /\ Forall Deck.valid_card ddrawn
              /\ 17 <= calculate_hand_value dhand
              /\ o <> Spec.not_over
              /\ consumed <> [])).
Proof.
  intros Hdeck Hfuel.
  destruct (initial_deal_run rnd g Hdeck)
    as (c1 & c2 & c3 & c4 & d1 & p1 & Hdeal & Hv1 & Hok1).
  set (g1 := mkGame d1 p1 [c1; c2] [c3; c4] _) in *.
  destruct (player_turn_trace inbox g1 Hok1)
    as (exit & consumed & inbox' & pdrawn & d2 & p2 & tail
        & Hin & Hturn & Hv2 & Hok2 & Hlen & _ & Hexit).
  cbn zeta in Hturn, Hexit.
  change (player_hand g1) with [c1; c2] in Hturn, Hexit.
  change (dealer_hand g1) with [c3; c4] in Hturn.
  change (sent g1) with (sent g ++ [card_msg c1; card_msg c2; card_msg c3])
    in Hturn.
  unfold play_round. rewrite (bind_ret _ _ _ _ _ Hdeal).
  rewrite (bind_ret _ _ _ _ _ Hturn).
  destruct exit as [player_value | result].
  - destruct Hexit as (-> & -> & _ & before & ev & Hc & _).
    pose proof Hv1 as Hv1'.
    apply Forall_cons in Hv1' as [_ Hv1']. apply Forall_cons in Hv1' as [_ Hv1'].
    apply Forall_cons in Hv1' as [V3 Hv1']. apply Forall_cons in Hv1' as [V4 _].
    set (g2 := mkGame d2 p2 _ _ _) in *.
    destruct (dealer_turn_full fuel g2 c3 c4 Hok2 eq_refl V3 V4 Hfuel)
      as (ddrawn & d3 & p3 & Hdt & Hv3 & Hok3 & H17).
    rewrite (bind_ret _ _ _ _ _ Hdt).
    set (g3 := mkGame d3 p3 _ _ _).
    destruct (determine_winner_run
                (calculate_hand_value ([c1; c2] ++ pdrawn))
                (calculate_hand_value ([c3; c4] ++ ddrawn)) g3) as [Hw Hne].
    cbn zeta in Hw, Hne. rewrite (bind_ret _ _ _ _ _ Hw).
    exists c1, c2, c3, c4, consumed, inbox', pdrawn, d3, p3. cbn zeta.
    split_and!; try assumption.
    right. exists ddrawn. cbn zeta.
    split_and!; try assumption.
    + unfold mret, M_ret, g3, g2. cbn [deck rpos player_hand dealer_hand sent].
      f_equal. f_equal. rewrite ?app_nil_r, ?map_app. cbn [map app].
      rewrite <- ?app_assoc. reflexivity.
    + rewrite Hc. now destruct before.
  - destruct Hexit as [-> Hcases].
    exists c1, c2, c3, c4, consumed, inbox', pdrawn, d2, p2. cbn zeta.
    split_and!; try assumption.
    left. exists tail. split.
    + unfold mret, M_ret. f_equal. f_equal. rewrite ?map_app. cbn [map app].
      rewrite <- ?app_assoc. reflexivity.
    + destruct Hcases as [(Ht & _)|(Ht & Hb & before & ev & Hc & _)].
      * now left.
      * right. split_and!; try assumption. rewrite Hc. now destruct before.
Qed.

End WithTape.

Lemma length_server_bytes result rank suit :
  length (server_bytes result rank suit) = 9%nat.
Proof.
  unfold server_bytes. rewrite !length_app, !length_be_encode. reflexivity.
Qed.

Lemma sent_sizes (dealt : list card) (closing : list bytes) :
  Forall (fun m => exists result, m = result_msg result) closing ->
  Forall (fun m : bytes => length m = 9%nat) (map card_msg dealt ++ closing).
Proof.
  intros Hc. apply Forall_app. split.
  - apply Forall_forall. intros m Hm. apply list_elem_of_fmap in Hm as (c & -> & _).
    apply length_server_bytes.
  - eapply Forall_impl; [exact Hc|]. intros m [r ->]. apply length_server_bytes.
Qed.

(** A round on a deck of cards of the pack always returns. It reads
    the events [consumed], deals the player two cards and one more for
    each "Hittt" read, and sends 9-byte messages only: first the cards
    [dealt], then at most one closing message. A round that ends in
    the player's turn returns "loss"; it has sent the player's cards
    and the dealer's first, the second stays unsent, and the closing
    message is missing unless the player went over 21. A round that
    goes on has sent every card of both hands once, and closes with
    the outcome of comparing them. *)
Theorem play_round_trace (rnd : tape) (fuel : nat)
    (inbox : list recv_event) (g : Game)
    (Hdeck : Deck.ok (deck g)) (Hfuel : (17 <= fuel)%nat) :
  exists result consumed inbox' g' dealt closing,
    play_round rnd fuel inbox g = (Ret (Some result, inbox'), g')
    /\ inbox = consumed ++ inbox'
    /\ sent g' = sent g ++ map card_msg dealt ++ closing
    /\ Forall (fun m : bytes => length m = 9%nat) (map card_msg dealt ++ closing)
    /\ Forall Deck.valid_card dealt
    /\ Deck.ok (deck g')
    /\ length (player_hand g') = (2 + hits consumed)%nat
    /\ ((result = "loss"%string
         /\ length (dealer_hand g') = 2%nat
         /\ dealt ≡ₚ player_hand g' ++ take 1 (dealer_hand g')
         /\ (closing = []
             \/ (closing = [result_msg RESULT_LOSS]
                 /\ 21 < calculate_hand_value (player_hand g'))))
        \/ (let o := Spec.resolved (calculate_hand_value (player_hand g'))
                                   (calculate_hand_value (dealer_hand g')) in
            result = Spec.name o
            /\ closing = [result_msg (Spec.code o)]
            /\ o <> Spec.not_over
            /\ dealt ≡ₚ player_hand g' ++ dealer_hand g'
            /\ 17 <= calculate_hand_value (dealer_hand g'))).
Proof.
  destruct (play_round_run rnd fuel inbox g Hdeck Hfuel)
    as (c1 & c2 & c3 & c4 & consumed & inbox' & pdrawn & d & pos
        & Hv & Hvp & Hok & Hin & Hlen & Hcases).
  cbn zeta in Hcases.
  pose proof Hv as Hv'.
  apply Forall_cons in Hv' as [V1 Hv']. apply Forall_cons in Hv' as [V2 Hv'].
  apply Forall_cons in Hv' as [V3 Hv']. apply Forall_cons in Hv' as [V4 _].
  destruct Hcases as [(tail & Hrun & Htail)|(ddrawn & Hrun & Hvd & H17 & Hne & _)].
  - exists "loss"%string, consumed, inbox'.
    eexists _, ([c1; c2; c3] ++ pdrawn), tail.
    split; [exact Hrun|]. cbn [deck rpos player_hand dealer_hand sent].
    split_and!; try done.
    + apply sent_sizes. destruct Htail as [-> | (-> & _)].
      * apply List.Forall_nil.
      * apply List.Forall_cons; [now eexists | apply List.Forall_nil].
    + cbn [app]. repeat (apply List.Forall_cons; [assumption|]). exact Hvp.
    + rewrite length_app, Hlen. reflexivity.
    + left. split_and!; try done.
      * cbn [app take]. do 2 apply perm_skip. apply Permutation_cons_append.
      * destruct Htail as [-> | (-> & Hb & _)]; [now left | right; now split].
  - cbn zeta in Hrun.
    eexists _, consumed, inbox'.
    eexists _, ([c1; c2; c3] ++ pdrawn ++ c4 :: ddrawn), _.
    split; [exact Hrun|]. cbn [deck rpos player_hand dealer_hand sent].
    split_and!; try done.
    + apply sent_sizes. apply List.Forall_cons; [now eexists | apply List.Forall_nil].
    + cbn [app]. repeat (apply List.Forall_cons; [assumption|]).
      apply Forall_app. split; [exact Hvp|]. now apply List.Forall_cons.
    + rewrite length_app, Hlen. reflexivity.
    + right. cbn zeta. split_and!; try done.
      cbn [app]. do 2 apply perm_skip.
      apply (Permutation_middle pdrawn (c4 :: ddrawn) c3).
Qed.




End RoundMore.

Module DecoderMore.
Import Utf8 Struct Protocol BytesFacts Utf8Facts DecoderFacts NameFacts
       ProtocolFacts CodecFacts CodecMore.

(** ** From well-formed bytes back to the character *)

Ltac zc :=
  repeat match goal with
    | |- context [?a <? ?b] => destruct (Z.ltb_spec a b); try lia
    | |- context [?a <=? ?b] => destruct (Z.leb_spec a b); try lia
    end.

Ltac byte_back b :=
  match goal with
  | |- context [byte_of_Z ?v] =>
      replace (byte_of_Z v) with b
        by (symmetry; etransitivity; [|apply (byte_of_Z_of_byte b)];
            f_equal; Z.div_mod_to_equations; lia)
  end.

Lemma char_bytes_1 b :
  Z_of_byte b < 0x80 ->
  encodable_char (Z_of_byte b) /\ char_bytes (Z_of_byte b) = [b].
Proof.
  intros H. pose proof (Z_of_byte_range b). split.
  - split; [lia|]. unfold is_surrogate. zc; reflexivity.
  - unfold char_bytes. zc. now rewrite byte_of_Z_of_byte.
Qed.

Lemma char_bytes_2 b1 b2 :
  0xC2 <= Z_of_byte b1 < 0xE0 -> 0x80 <= Z_of_byte b2 < 0xC0 ->
  let ch := Z_of_byte b1 * 64 + Z_of_byte b2 - 12416 in
  encodable_char ch /\ char_bytes ch = [b1; b2].
Proof.
  intros H1 H2 ch. subst ch. split.
  - split; [lia|]. unfold is_surrogate. zc; reflexivity.
  - unfold char_bytes. zc. byte_back b1. byte_back b2. reflexivity.
Qed.

Lemma char_bytes_3 b1 b2 b3 :
  0xE0 <= Z_of_byte b1 < 0xF0 ->
  0x80 <= Z_of_byte b2 < 0xC0 -> 0x80 <= Z_of_byte b3 < 0xC0 ->
  (Z_of_byte b1 = 0xE0 -> 0xA0 <= Z_of_byte b2) ->
  (Z_of_byte b1 = 0xED -> Z_of_byte b2 < 0xA0) ->
  let ch := Z_of_byte b1 * 4096 + Z_of_byte b2 * 64 + Z_of_byte b3 - 925824 in
  encodable_char ch /\ char_bytes ch = [b1; b2; b3].
Proof.
  intros H1 H2 H3 Hlo Hhi ch. subst ch. split.
  - split; [lia|]. unfold is_surrogate. zc; reflexivity.
  - unfold char_bytes. zc. byte_back b1. byte_back b2. byte_back b3.
    reflexivity.
Qed.

Lemma char_bytes_4 b1 b2 b3 b4 :
  0xF0 <= Z_of_byte b1 < 0xF5 ->
  0x80 <= Z_of_byte b2 < 0xC0 -> 0x80 <= Z_of_byte b3 < 0xC0 ->
  0x80 <= Z_of_byte b4 < 0xC0 ->
  (Z_of_byte b1 = 0xF0 -> 0x90 <= Z_of_byte b2) ->
  (Z_of_byte b1 = 0xF4 -> Z_of_byte b2 < 0x90) ->
  let ch := Z_of_byte b1 * 262144 + Z_of_byte b2 * 4096 + Z_of_byte b3 * 64
            + Z_of_byte b4 - 63447168 in
  encodable_char ch /\ char_bytes ch = [b1; b2; b3; b4].
Proof.
  intros H1 H2 H3 H4 Hlo Hhi ch. subst ch. split.
  - split; [lia|]. unfold is_surrogate. zc; reflexivity.
  - unfold char_bytes. zc. byte_back b1. byte_back b2. byte_back b3.
    byte_back b4. reflexivity.
Qed.

(** ** The decoder, step by step *)

Section Induction.
Variable P : bytes -> str -> Prop.
Hypothesis Hnil : P [] [].
Hypothesis Hdrop :
  forall pre r out, pre <> [] -> P r out -> P (pre ++ r) out.
Hypothesis Hchar :
  forall ch r out,
    encodable_char ch -> P r out -> P (char_bytes ch ++ r) (ch :: out).

Ltac use_IH IH := apply IH; cbn [length] in *; lia.

Ltac drop_some IH :=
  match goal with
  | |- P ?b [] =>
      rewrite <- (app_nil_r b); apply Hdrop; [discriminate | exact Hnil]
  | |- P (?b1 :: ?r) (decode_ignore ?r) =>
      apply (Hdrop [b1] r); [discriminate | use_IH IH]
  | |- P (?b1 :: ?b2 :: ?r) (decode_ignore ?r) =>
      apply (Hdrop [b1; b2] r); [discriminate | use_IH IH]
  | |- P (?b1 :: ?b2 :: ?b3 :: ?r) (decode_ignore ?r) =>
      apply (Hdrop [b1; b2; b3] r); [discriminate | use_IH IH]
  end.

Ltac one_char IH :=
  match goal with
  | |- P (?b1 :: ?r) (?X :: decode_ignore ?r) =>
      destruct (char_bytes_1 b1 ltac:(lia)) as [He Hb];
      change (b1 :: r) with ([b1] ++ r); rewrite <- Hb;
      apply Hchar; [exact He | use_IH IH]
  | |- P (?b1 :: ?b2 :: ?r) (?X :: decode_ignore ?r) =>
      destruct (char_bytes_2 b1 b2 ltac:(lia) ltac:(lia)) as [He Hb];
      replace X with (Z_of_byte b1 * 64 + Z_of_byte b2 - 12416) by lia;
      change (b1 :: b2 :: r) with ([b1; b2] ++ r); rewrite <- Hb;
      apply Hchar; [exact He | use_IH IH]
  | |- P (?b1 :: ?b2 :: ?b3 :: ?r) (?X :: decode_ignore ?r) =>
      destruct (char_bytes_3 b1 b2 b3 ltac:(lia) ltac:(lia) ltac:(lia)
                  ltac:(lia) ltac:(lia)) as [He Hb];
      replace X with (Z_of_byte b1 * 4096 + Z_of_byte b2 * 64
                      + Z_of_byte b3 - 925824) by lia;
      change (b1 :: b2 :: b3 :: r) with ([b1; b2; b3] ++ r); rewrite <- Hb;
      apply Hchar; [exact He | use_IH IH]
  | |- P (?b1 :: ?b2 :: ?b3 :: ?b4 :: ?r) (?X :: decode_ignore ?r) =>
      destruct (char_bytes_4 b1 b2 b3 b4 ltac:(lia) ltac:(lia) ltac:(lia)
                  ltac:(lia) ltac:(lia) ltac:(lia)) as [He Hb];
      replace X with (Z_of_byte b1 * 262144 + Z_of_byte b2 * 4096
                      + Z_of_byte b3 * 64 + Z_of_byte b4 - 63447168) by lia;
      change (b1 :: b2 :: b3 :: b4 :: r) with ([b1; b2; b3; b4] ++ r);
      rewrite <- Hb;
      apply Hchar; [exact He | use_IH IH]
  end.

(** Decoding with [errors='ignore'] goes through the data from left
    to right and, at each step, either drops some bytes or takes the
    encoding of one character and yields that character. *)
Lemma decode_ignore_rel (b : bytes) : P b (decode_ignore b).
Proof.
  assert (H : forall n (b : bytes), (length b <= n)%nat -> P b (decode_ignore b)).
  { clear b. induction n as [|n IH]; intros b Hl.
    - destruct b; [exact Hnil | cbn [length] in Hl; lia].
    - assert (IH' : forall b' : bytes, (length b' <= n)%nat ->
                                       P b' (decode_ignore b')) by exact IH.
      clear IH.
      destruct b as [|b1 r1]; [exact Hnil|].
      pose proof (Z_of_byte_range b1).
      destruct r1 as [|b2 r2].
      { decode_step; first [drop_some IH' | one_char IH']. }
      pose proof (Z_of_byte_range b2).
      destruct r2 as [|b3 r3].
      { decode_step; first [drop_some IH' | one_char IH']. }
      pose proof (Z_of_byte_range b3).
      destruct r3 as [|b4 r4].
      { decode_step; first [drop_some IH' | one_char IH']. }
      pose proof (Z_of_byte_range b4).
      decode_step; first [drop_some IH' | one_char IH']. }
  apply (H (length b)). lia.
Qed.

End Induction.

(** ** What comes out of the decoder *)

Lemma decode_ignore_encodable (b : bytes) : encodable (decode_ignore b).
Proof.
  apply (decode_ignore_rel (fun _ out => encodable out)).
  - constructor.
  - auto.
  - intros ch r out Hch Hout. now constructor.
Qed.

Lemma decode_ignore_sublist (b : bytes) :
  encoded (decode_ignore b) `sublist_of` b.
Proof.
  apply (decode_ignore_rel (fun b out => encoded out `sublist_of` b)).
  - constructor.
  - intros pre r out _ H. now apply sublist_inserts_l.
  - intros ch r out _ H. cbn [map concat]. now apply sublist_app.
Qed.

Lemma decode_ignore_len (b : bytes) :
  (utf8_len (decode_ignore b) <= length b)%nat.
Proof.
  rewrite <- length_enc. apply sublist_length, decode_ignore_sublist.
Qed.

Lemma sublist_full {A} (l1 l2 : list A) :
  l1 `sublist_of` l2 -> (length l2 <= length l1)%nat -> l1 = l2.
Proof.
  induction 1 as [|x l1 l2 _ IH|x l1 l2 Hs _]; intros Hl.
  - reflexivity.
  - cbn [length] in Hl. f_equal. apply IH. lia.
  - apply sublist_length in Hs. cbn [length] in Hl. lia.
Qed.

Lemma rstrip_full {A} `{EqDecision A} (c : A) (l : list A) :
  (length l <= length (rstrip c l))%nat -> rstrip c l = l.
Proof.
  intros Hl. destruct (rstrip_prefix c l) as [k Hk].
  assert (k = []) as ->.
  { apply (f_equal length) in Hk. rewrite length_app in Hk.
    destruct k; [reflexivity | cbn [length] in Hk; lia]. }
  now rewrite app_nil_r in Hk.
Qed.

Lemma rstrip_last {A} `{EqDecision A} (c : A) (l : list A) :
  last (rstrip c l) <> Some c.
Proof.
  induction l as [|x l IH] using rev_ind; [discriminate|].
  destruct (decide (x = c)) as [->|Hne].
  - now rewrite rstrip_snoc_eq.
  - rewrite rstrip_snoc_ne by assumption. rewrite last_snoc. congruence.
Qed.

Lemma rstrip_idem {A} `{EqDecision A} (c : A) (l : list A) :
  rstrip c (rstrip c l) = rstrip c l.
Proof. apply rstrip_id, rstrip_last. Qed.

Lemma utf8_len_le_field n s :
  (utf8_len s <= n)%nat -> field_trip n s = rstrip 0 s.
Proof.
  intros Hn. unfold field_trip. rewrite fit_all by assumption.
  destruct (Nat.leb_spec (utf8_len s) n); [reflexivity | lia].
Qed.

(** The last byte of an encoding is zero only for U+0000. *)
Lemma last_encoded s :
  encodable s -> last (encoded s) = Some x00 <-> last s = Some 0.
Proof.
  intros Hs. destruct s as [|ch s _] using rev_ind; [easy|].
  apply Forall_app in Hs as [_ Hch]. apply Forall_inv in Hch.
  rewrite map_app, concat_app. cbn [map concat]. rewrite app_nil_r.
  rewrite last_snoc.
  destruct (decide (ch = 0)) as [->|Hnz].
  - change (char_bytes 0) with [x00]. now rewrite last_snoc.
  - destruct (last_char_bytes ch Hch Hnz) as (l & b & -> & Hb).
    rewrite app_assoc, last_snoc. split; congruence.
Qed.

(** Whatever bytes a name field holds, [unpad_name] returns a string
    that [str.encode] accepts; its encoding is what is left of the
    field when some bytes are dropped, so it is no longer than the
    field; and nothing but the zero padding is dropped exactly when
    the rest of the field is well-formed UTF-8. *)
Theorem unpad_name_output (field : bytes) :
  let name := unpad_name field in
  encodable name
  /\ encode name = Ret (encoded name)
  /\ encoded name `sublist_of` field
  /\ (utf8_len name <= length field)%nat
  /\ (encoded name = rstrip x00 field
      <-> exists s, encodable s /\ rstrip x00 field = encoded s).
Proof.
  cbn zeta. unfold unpad_name.
  pose proof (decode_ignore_encodable (rstrip x00 field)) as He.
  pose proof (decode_ignore_sublist (rstrip x00 field)) as Hs.
  assert (Hp : rstrip x00 field `sublist_of` field).
  { destruct (rstrip_prefix x00 field) as [k Hk]. rewrite Hk at 2.
    now apply sublist_inserts_r. }
  split_and!.
  - exact He.
  - now apply encode_ret.
  - now transitivity (rstrip x00 field).
  - rewrite <- length_enc. apply sublist_length. now transitivity (rstrip x00 field).
  - split.
    + intros Heq. eexists. split; [exact He | now symmetry].
    + intros (s & Hse & ->).
      rewrite <- (app_nil_r (encoded s)) at 1.
      rewrite decode_concat by assumption. cbn [decode_ignore].
      now rewrite app_nil_r.
Qed.

Lemma be_decode_fits (l : bytes) (n : nat) :
  length l = n -> 0 <= be_decode l <= 256 ^ Z.of_nat n - 1.
Proof. intros <-. pose proof (be_decode_range l). lia. Qed.

Lemma be_encode_field (l : bytes) (n : nat) :
  length l = n -> be_encode n (be_decode l) = l.
Proof. intros <-. apply be_encode_decode. Qed.

Lemma slice_split i j k (l : bytes) :
  (i <= j <= k)%nat -> slice i k l = slice i j l ++ slice j k l.
Proof.
  intros Hijk. unfold slice.
  replace (k - i)%nat with ((j - i) + (k - j))%nat by lia.
  rewrite <- take_take_drop. f_equal. rewrite drop_drop. do 2 f_equal. lia.
Qed.

(** What a parser returns can be sent again: the [create_] function
    of the same message returns on the parsed fields. For the server's
    payload it gives back the first 9 bytes of the data; for the other
    three the new message parses to the same fields, less the U+0000
    the string ended in. *)
Theorem parsed_fields_can_be_sent_again (data : bytes) :
  (forall tcp_port name,
      parse_offer_message data = Ret (Some (tcp_port, name)) ->
      exists m, create_offer_message tcp_port name = Ret m
                /\ parse_offer_message m = Ret (Some (tcp_port, rstrip 0 name)))
  /\ (forall num_rounds name,
        parse_request_message data = Ret (Some (num_rounds, name)) ->
        exists m, create_request_message num_rounds name = Ret m
                  /\ parse_request_message m
                     = Ret (Some (num_rounds, rstrip 0 name)))
  /\ (forall decision,
        parse_client_payload data = Ret (Some decision) ->
        exists m, create_client_payload decision = Ret m
                  /\ parse_client_payload m = Ret (Some (rstrip 0 decision)))
  /\ (forall result rank suit,
        parse_server_payload data = Ret (Some (result, rank, suit)) ->
        create_server_payload result rank suit = Ret (take 9 data)).
Proof.
  split_and!.
  - intros tcp_port name. rewrite parse_offer_message_eq.
    destruct (decide (framed 39 x02 data)) as [Hf|Hf];
      [rewrite bool_decide_eq_true_2 by assumption
      |rewrite bool_decide_eq_false_2 by assumption; discriminate].
    intros [= <- <-]. destruct Hf as (Hl & _).
    pose proof (be_decode_fits (slice 5 7 data) 2
                  ltac:(rewrite length_slice; lia)) as Hp.
    change (256 ^ Z.of_nat 2 - 1) with 65535 in Hp.
    pose proof (decode_ignore_encodable (rstrip x00 (slice 7 39 data))) as He.
    eexists. split; [now apply create_offer_message_ret|].
    rewrite <- (app_nil_r (offer_bytes _ _)).
    rewrite parse_offer_bytes by assumption. do 3 f_equal.
    apply utf8_len_le_field.
    etransitivity; [apply decode_ignore_len|].
    etransitivity; [apply prefix_length, rstrip_prefix|].
    rewrite length_slice by lia. unfold NAME_SIZE. lia.
  - intros num_rounds name. rewrite parse_request_message_eq.
    destruct (decide (framed 38 x03 data)) as [Hf|Hf];
      [rewrite bool_decide_eq_true_2 by assumption
      |rewrite bool_decide_eq_false_2 by assumption; discriminate].
    intros [= <- <-]. destruct Hf as (Hl & _).
    pose proof (be_decode_fits (slice 5 6 data) 1
                  ltac:(rewrite length_slice; lia)) as Hp.
    change (256 ^ Z.of_nat 1 - 1) with 255 in Hp.
    pose proof (decode_ignore_encodable (rstrip x00 (slice 6 38 data))) as He.
    eexists. split; [now apply create_request_message_ret|].
    rewrite <- (app_nil_r (request_bytes _ _)).
    rewrite parse_request_bytes by assumption. do 3 f_equal.
    apply utf8_len_le_field.
    etransitivity; [apply decode_ignore_len|].
    etransitivity; [apply prefix_length, rstrip_prefix|].
    rewrite length_slice by lia. unfold NAME_SIZE. lia.
  - intros decision. rewrite parse_client_payload_eq.
    destruct (decide (framed 10 x04 data)) as [Hf|Hf];
      [rewrite bool_decide_eq_true_2 by assumption
      |rewrite bool_decide_eq_false_2 by assumption; discriminate].
    intros [= <-]. destruct Hf as (Hl & _).
    pose proof (decode_ignore_encodable (rstrip x00 (slice 5 10 data))) as He.
    eexists. split; [now apply create_client_payload_ret|].
    rewrite <- (app_nil_r (client_bytes _)).
    rewrite parse_client_bytes by assumption. do 2 f_equal.
    apply utf8_len_le_field.
    etransitivity; [apply decode_ignore_len|].
    etransitivity; [apply prefix_length, rstrip_prefix|].
    rewrite length_slice by lia. lia.
  - intros result rank suit. rewrite parse_server_payload_eq.
    destruct (decide (framed 9 x04 data)) as [Hf|Hf];
      [rewrite bool_decide_eq_true_2 by assumption
      |rewrite bool_decide_eq_false_2 by assumption; discriminate].
    intros [= <- <- <-]. destruct Hf as (Hl & Hm & Ht).
    pose proof (be_decode_fits (slice 5 6 data) 1
                  ltac:(rewrite length_slice; lia)) as H1.
    pose proof (be_decode_fits (slice 6 8 data) 2
                  ltac:(rewrite length_slice; lia)) as H2.
    pose proof (be_decode_fits (slice 8 9 data) 1
                  ltac:(rewrite length_slice; lia)) as H3.
    change (256 ^ Z.of_nat 1 - 1) with 255 in *.
    change (256 ^ Z.of_nat 2 - 1) with 65535 in *.
    rewrite create_server_payload_ret by assumption. f_equal.
    unfold server_bytes.
    rewrite !be_encode_field by (rewrite length_slice; lia).
    rewrite <- slice_0, (slice_split 0 4 9), (slice_split 4 5 9),
      (slice_split 5 6 9), (slice_split 6 8 9) by lia.
    rewrite slice_0, Hm, (slice_one 4 data x04 Ht).
    now rewrite <- !app_assoc.
Qed.

End DecoderMore.

Module DecisionMore.
Import Utf8 Struct Protocol Server BytesFacts Utf8Facts DecoderFacts NameFacts
       ProtocolFacts CodecFacts CodecMore DecoderMore.

(** [receive_decision] on data that arrived. *)
Lemma receive_decision_data (data : bytes) :
  receive_decision (RecvData data)
  = if bool_decide (framed 10 x04 data)
    then Some (decode_ignore (rstrip x00 (slice 5 10 data)))
    else None.
Proof.
  destruct data as [|b data].
  - rewrite bool_decide_eq_false_2; [reflexivity|].
    intros (Hl & _). cbn [length] in Hl. lia.
  - cbn [receive_decision]. now rewrite parse_client_payload_eq.
Qed.

(** The server is left without a decision exactly when the receive
    times out or fails, or brings data that are no 10 bytes with the
    magic cookie and the payload tag in front; the end of the stream,
    no data at all, is one such case. Any framed message is a
    decision: the text that its last five bytes decode to, whatever
    they are. *)
Theorem receive_decision_none_iff (ev : recv_event) :
  (receive_decision ev = None
   <-> forall data, ev = RecvData data -> ~ framed 10 x04 data)
  /\ (forall data,
        ev = RecvData data -> framed 10 x04 data ->
        exists decision,
          receive_decision ev = Some decision
          /\ decision = decode_ignore (rstrip x00 (slice 5 10 data))
          /\ encodable decision /\ (utf8_len decision <= 5)%nat).
Proof.
  split.
  - destruct ev as [data| |].
    + rewrite receive_decision_data. split.
      * intros Hn data' [= <-] Hf.
        rewrite bool_decide_eq_true_2 in Hn by assumption. discriminate.
      * intros Hall. rewrite bool_decide_eq_false_2; [reflexivity|].
        now apply Hall.
    + split; [discriminate | reflexivity].
    + split; [discriminate | reflexivity].
  - intros data -> Hf. rewrite receive_decision_data.
    rewrite bool_decide_eq_true_2 by assumption.
    eexists. split_and!; [reflexivity | reflexivity | |].
    + apply decode_ignore_encodable.
    + etransitivity; [apply decode_ignore_len|].
      etransitivity; [apply prefix_length, rstrip_prefix|].
      destruct Hf as (Hl & _). rewrite length_slice by lia. lia.
Qed.

(** A decision whose encoding takes all five bytes of the field, as
    "Hittt" and "Stand" do, is received from one byte string only:
    the server does not take a damaged field for it. *)
Theorem decision_needs_exact_bytes (data : bytes) (decision : str)
    (Hfull : utf8_len decision = 5%nat) :
  receive_decision (RecvData data) = Some decision
  <-> framed 10 x04 data /\ encodable decision
      /\ slice 5 10 data = encoded decision /\ last decision <> Some 0.
Proof.
  rewrite receive_decision_data. split.
  - destruct (decide (framed 10 x04 data)) as [Hf|Hf];
      [rewrite bool_decide_eq_true_2 by assumption
      |rewrite bool_decide_eq_false_2 by assumption; discriminate].
    intros [= Hd]. pose proof Hf as (Hl & _).
    set (f := slice 5 10 data) in *.
    assert (Hlf : length f = 5%nat) by (unfold f; rewrite length_slice; lia).
    pose proof (decode_ignore_encodable (rstrip x00 f)) as He.
    pose proof (decode_ignore_sublist (rstrip x00 f)) as Hs.
    rewrite Hd in He, Hs.
    pose proof (prefix_length _ _ (rstrip_prefix x00 f)) as Hp.
    assert (Hr : encoded decision = rstrip x00 f).
    { apply sublist_full; [exact Hs|]. rewrite length_enc. lia. }
    assert (Hrf : rstrip x00 f = f).
    { apply rstrip_full. rewrite <- Hr, length_enc. lia. }
    split_and!; try assumption.
    + now rewrite <- Hrf.
    + rewrite <- last_encoded by assumption. rewrite Hr. apply rstrip_last.
  - intros (Hf & He & Hs & Hlast).
    rewrite bool_decide_eq_true_2 by assumption. f_equal.
    rewrite Hs, rstrip_id by (now rewrite last_encoded).
    rewrite <- (app_nil_r (encoded decision)).
    rewrite decode_concat by assumption. cbn [decode_ignore]. apply app_nil_r.
Qed.

End DecisionMore.

Module SessionMore.
Import Random Protocol Server Session.
Import BytesFacts ProtocolFacts CodecFacts DeckFacts ServerFacts RoundMore.




End SessionMore.

Module ClientFacts.
Import Random Protocol Server Scenario Trace.
Import BytesFacts ProtocolFacts CodecFacts DeckFacts ServerFacts RoundFacts
       HandFacts HandMore RoundClaims RoundMore.

(** The event that brings the decision of the user to the server. *)
Abbreviation choice_event ch := (decision_event (ClientGame.decision_of ch)).
Abbreviation choice_msg ch := (client_bytes (ClientGame.decision_of ch)).

(** ** The two ends of the connection *)

Lemma receive_decision_choice ch :
  receive_decision (choice_event ch) = Some (ClientGame.decision_of ch).
Proof. destruct ch; vm_compute; reflexivity. Qed.

Lemma create_choice ch :
  create_client_payload (ClientGame.decision_of ch) = Ret (choice_msg ch).
Proof. destruct ch; vm_compute; reflexivity. Qed.

Lemma receive_card_bytes result rank suit :
  0 <= result <= 255 -> 0 <= rank <= 65535 -> 0 <= suit <= 255 ->
  ClientGame.receive_card (RecvData (server_bytes result rank suit))
  = Some (result, rank, suit).
Proof.
  intros Hr Hk Hs.
  pose proof (parse_server_bytes result rank suit [] Hr Hk Hs) as Hp.
  rewrite app_nil_r in Hp.
  destruct (server_bytes result rank suit) as [|b l] eqn:E.
  - apply (f_equal length) in E. unfold server_bytes in E.
    rewrite !length_app, !length_be_encode in E. discriminate.
  - cbn [ClientGame.receive_card]. now rewrite Hp.
Qed.

Lemma receive_card_msg c :
  Deck.valid_card c ->
  ClientGame.receive_card (RecvData (card_msg c)) = Some (RESULT_NOT_OVER, c.1, c.2).
Proof.
  intros [Hr Hs]. apply receive_card_bytes; unfold RESULT_NOT_OVER; lia.
Qed.

Lemma receive_result_msg result :
  0 <= result <= 255 ->
  ClientGame.receive_card (RecvData (result_msg result)) = Some (result, 0, 0).
Proof. intros. apply receive_card_bytes; lia. Qed.

(** ** Hands without an ace *)

Lemma no_ace_value hand :
  no_ace hand ->
  Client.calculate_hand_value hand = Server.calculate_hand_value hand.
Proof.
  intros Hn. unfold Client.calculate_hand_value, Server.calculate_hand_value.
  assert (filter (fun '(rank, _) => rank = 1) hand = []) as ->.
  { induction Hn as [|[rank suit] hand Hc _ IH]; [reflexivity|].
    rewrite filter_cons. cbn [fst] in Hc.
    destruct (decide (rank = 1)); [contradiction | exact IH]. }
  cbn [length Client.adjust_aces]. now destruct (21 <? _).
Qed.

Lemma valid_hand_shows hand :
  Forall Deck.valid_card hand -> ClientGame.format_hand_raises hand = false.
Proof.
  induction 1 as [|[rank suit] hand [_ Hs] _ IH]; [reflexivity|].
  unfold ClientGame.format_hand_raises in *. cbn [existsb]. rewrite IH, orb_false_r.
  cbn [snd] in Hs.
  assert (suit = 0 \/ suit = 1 \/ suit = 2 \/ suit = 3) as Hsuit by lia.
  destruct Hsuit as [-> | [-> | [-> | ->]]]; reflexivity.
Qed.

(** ** One pass of the client's loops *)

Lemma player_loop_waits inbox s :
  ClientGame.format_hand_raises (ClientGame.player_hand s) = false ->
  Client.calculate_hand_value (ClientGame.player_hand s) <= 21 ->
  ClientGame.player_loop [] inbox s = (ClientGame.Leave ClientGame.Waits, [], inbox, s).
Proof.
  intros Hf Hv. cbn [ClientGame.player_loop]. rewrite Hf.
  destruct (Z.ltb_spec 21 (Client.calculate_hand_value (ClientGame.player_hand s)));
    [lia | reflexivity].
Qed.

Lemma player_loop_bust choices ev inbox s :
  ClientGame.format_hand_raises (ClientGame.player_hand s) = false ->
  21 < Client.calculate_hand_value (ClientGame.player_hand s) ->
  ClientGame.player_loop choices (ev :: inbox) s
  = (ClientGame.Leave (ClientGame.Returns true), choices, inbox, ClientGame.add_loss s).
Proof.
  intros Hf Hv. destruct choices; cbn [ClientGame.player_loop ClientGame.recv]; rewrite Hf;
    (destruct (Z.ltb_spec 21 (Client.calculate_hand_value (ClientGame.player_hand s)));
     [reflexivity | lia]).
Qed.

Lemma player_loop_stand choices inbox s :
  ClientGame.format_hand_raises (ClientGame.player_hand s) = false ->
  Client.calculate_hand_value (ClientGame.player_hand s) <= 21 ->
  ClientGame.player_loop (ClientGame.Stand :: choices) inbox s
  = (ClientGame.Break, choices, inbox, ClientGame.sendall (choice_msg ClientGame.Stand) s).
Proof.
  intros Hf Hv. cbn [ClientGame.player_loop]. rewrite Hf.
  destruct (Z.ltb_spec 21 (Client.calculate_hand_value (ClientGame.player_hand s)));
    [lia|].
  rewrite create_choice. cbn [ClientGame.decision_of].
  now rewrite decide_True by reflexivity.
Qed.

Lemma player_loop_hit choices c inbox s :
  ClientGame.format_hand_raises (ClientGame.player_hand s) = false ->
  Client.calculate_hand_value (ClientGame.player_hand s) <= 21 ->
  Deck.valid_card c ->
  ClientGame.player_loop (ClientGame.Hit :: choices) (RecvData (card_msg c) :: inbox) s
  = ClientGame.player_loop choices inbox
      (ClientGame.append_player c (ClientGame.sendall (choice_msg ClientGame.Hit) s)).
Proof.
  intros Hf Hv Hc. cbn [ClientGame.player_loop]. rewrite Hf.
  destruct (Z.ltb_spec 21 (Client.calculate_hand_value (ClientGame.player_hand s)));
    [lia|].
  rewrite create_choice. cbn [ClientGame.decision_of].
  rewrite decide_False by discriminate.
  cbn [ClientGame.recv]. rewrite (receive_card_msg c Hc).
  destruct Hc as [Hr _].
  destruct (Z.eqb_spec c.1 0); [lia|].
  destruct c; reflexivity.
Qed.

Lemma dealer_loop_result result inbox s :
  0 <= result <= 255 ->
  ClientGame.dealer_loop (RecvData (result_msg result) :: inbox) s
  = (ClientGame.Result result, inbox, s).
Proof.
  intros Hr. cbn [ClientGame.dealer_loop].
  now rewrite (receive_result_msg result Hr).
Qed.

Lemma dealer_loop_card c inbox s :
  Deck.valid_card c ->
  ClientGame.format_hand_raises (ClientGame.dealer_hand s ++ [c]) = false ->
  ClientGame.dealer_loop (RecvData (card_msg c) :: inbox) s
  = let s' := ClientGame.append_dealer c s in
    if 17 <=? Client.calculate_hand_value (ClientGame.dealer_hand s ++ [c])
    then match ClientGame.recv inbox with
         | (None, inbox') => (ClientGame.Stop (ClientGame.Returns false), inbox', s')
         | (Some (result, _, _), inbox') => (ClientGame.Result result, inbox', s')
         end
    else ClientGame.dealer_loop inbox s'.
Proof.
  intros Hc Hf. cbn [ClientGame.dealer_loop]. rewrite (receive_card_msg c Hc).
  destruct Hc as [Hr _]. destruct (Z.eqb_spec c.1 0); [lia|].
  destruct c as [rank suit]. cbn [fst snd].
  cbn [ClientGame.append_dealer ClientGame.dealer_hand]. rewrite Hf.
  cbn zeta.
  destruct (17 <=? _); [|reflexivity].
  destruct (ClientGame.recv inbox) as [[[[? ?] ?]|] ?]; reflexivity.
Qed.

(** The client's loop for the dealer's cards, on the messages of the
    server's: the cards [drawn], each on a hand worth less than 17,
    then the result. *)
Lemma client_dealer_loop drawn : forall dhand s later code,
  ClientGame.dealer_hand s = dhand ->
  Forall Deck.valid_card dhand -> Forall Deck.valid_card drawn ->
  no_ace (dhand ++ drawn) ->
  (forall k, (k < length drawn)%nat ->
     calculate_hand_value (dhand ++ take k drawn) < 17) ->
  17 <= calculate_hand_value (dhand ++ drawn) ->
  0 <= code <= 255 ->
  ClientGame.dealer_loop
    (map RecvData (map card_msg drawn ++ [result_msg code]) ++ later) s
  = (ClientGame.Result code, later,
     ClientGame.mk (ClientGame.player_hand s) (dhand ++ drawn)
       (ClientGame.wins s) (ClientGame.losses s) (ClientGame.ties s)
       (ClientGame.sent s)).
Proof.
  induction drawn as [|c rest IH];
    intros dhand s later code Hhand Hvd Hvr Hna Hpre H17 Hcode.
  - cbn [map app]. rewrite dealer_loop_result by assumption.
    rewrite app_nil_r. destruct s; cbn in Hhand |- *. now subst.
  - apply Forall_cons in Hvr as [Hc Hvr].
    assert (Hvd' : Forall Deck.valid_card (dhand ++ [c])).
    { apply Forall_app. split; [assumption|]. now apply List.Forall_cons. }
    assert (Hna' : no_ace (dhand ++ [c])).
    { unfold no_ace in *. rewrite (cons_middle c dhand rest), app_assoc in Hna.
      now apply Forall_app in Hna as [? _]. }
    cbn [map app]. rewrite dealer_loop_card;
      [|assumption | rewrite Hhand; now apply valid_hand_shows].
    cbn zeta. rewrite Hhand, (no_ace_value _ Hna').
    destruct (Z.leb_spec 17 (calculate_hand_value (dhand ++ [c]))) as [Hge|Hlt].
    + assert (rest = []) as ->.
      { destruct rest as [|c' rest]; [reflexivity|].
        specialize (Hpre 1%nat ltac:(cbn [length]; lia)).
        cbn [take] in Hpre. lia. }
      cbn [map app ClientGame.recv].
      rewrite (receive_result_msg code Hcode).
      destruct s; cbn in Hhand |- *. now subst.
    + rewrite (IH (dhand ++ [c]) _ later code); try assumption.
      * rewrite <- app_assoc. destruct s; reflexivity.
      * cbn. now rewrite Hhand.
      * unfold no_ace in *. now rewrite <- app_assoc.
      * intros k Hk. specialize (Hpre (S k) ltac:(cbn [length]; lia)).
        cbn [take] in Hpre. now rewrite <- app_assoc.
      * now rewrite <- app_assoc.
Qed.

(** The deal as the client receives it. *)
Lemma client_deal c1 c2 c3 choices inbox s :
  Deck.valid_card c1 -> Deck.valid_card c2 -> Deck.valid_card c3 ->
  ClientGame.play_round choices
    (RecvData (card_msg c1) :: RecvData (card_msg c2)
     :: RecvData (card_msg c3) :: inbox) s
  = ClientGame.after_deal choices inbox
      (ClientGame.mk [c1; c2] [c3] (ClientGame.wins s) (ClientGame.losses s)
         (ClientGame.ties s) (ClientGame.sent s)).
Proof.
  intros H1 H2 H3. unfold ClientGame.play_round. cbn [ClientGame.recv].
  rewrite !receive_card_msg by assumption.
  destruct c1, c2, c3. reflexivity.
Qed.

(** The client's count of a result and the server's. *)
Lemma count_result_code (o : Spec.outcome) s :
  o <> Spec.not_over ->
  let s' := ClientGame.count_result (Spec.code o) s in
  mkStats (ClientGame.wins s') (ClientGame.losses s') (ClientGame.ties s')
  = count (Spec.name o)
      (mkStats (ClientGame.wins s) (ClientGame.losses s) (ClientGame.ties s))
  /\ ClientGame.player_hand s' = ClientGame.player_hand s
  /\ ClientGame.dealer_hand s' = ClientGame.dealer_hand s
  /\ ClientGame.sent s' = ClientGame.sent s.
Proof. destruct o; [contradiction| | |]; intros _; now cbn. Qed.

Section WithTape.
Variable rnd : tape.

(** ** The player's turn on both sides *)

(** The server reads the decisions the user will take; the client
    reads the messages the server sends on them. On a hand that
    holds no ace the two loops go the same way. *)
Lemma joint_player_turn choices : forall g,
  Deck.ok (deck g) ->
  Forall Deck.valid_card (player_hand g) ->
  exists exit consumed choices' drawn d pos tail,
    choices = consumed ++ choices'
    /\ player_turn rnd (calculate_hand_value (player_hand g))
         (map (fun ch => choice_event ch) choices) g
       = (Ret (exit, map (fun ch => choice_event ch) choices'),
          mkGame d pos (player_hand g ++ drawn) (dealer_hand g)
                 (sent g ++ map card_msg drawn ++ tail))
    /\ Forall Deck.valid_card drawn /\ Deck.ok d
    /\ (no_ace (player_hand g ++ drawn) ->
        calculate_hand_value (player_hand g) <= 21 ->
        forall s later,
          ClientGame.player_hand s = player_hand g ->
          let s1 :=
            ClientGame.mk (player_hand g ++ drawn) (ClientGame.dealer_hand s)
              (ClientGame.wins s) (ClientGame.losses s) (ClientGame.ties s)
              (ClientGame.sent s ++ map (fun ch => choice_msg ch) consumed) in
          let run :=
            ClientGame.player_loop choices
              (map RecvData (map card_msg drawn ++ tail) ++ later) s in
          match exit with
          | Break player_value =>
              player_value = calculate_hand_value (player_hand g ++ drawn)
              /\ tail = []
              /\ run = (ClientGame.Break, choices', later, s1)
          | Return result =>
              result = "loss"%string
              /\ ((tail = [result_msg RESULT_LOSS]
                   /\ 21 < calculate_hand_value (player_hand g ++ drawn)
                   /\ run = (ClientGame.Leave (ClientGame.Returns true),
                             choices', later, ClientGame.add_loss s1))
                  \/ (tail = [] /\ choices' = []
                      /\ run = (ClientGame.Leave ClientGame.Waits,
                                [], later, s1)))
          end).
Proof.
  induction choices as [|ch rest IH]; intros g Hok Hvalid.
  - exists (Return "loss"), [], [], [], (deck g), (rpos g), [].
    cbn [player_turn map app]. rewrite !app_nil_r.
    split_and!; try done.
    + destruct g; reflexivity.
    + intros Hna Hle s later Hhand. cbn zeta. cbn [map app].
      rewrite ?app_nil_r. split; [reflexivity|]. right.
      split_and!; try done.
      rewrite player_loop_waits.
      * destruct s; cbn [ClientGame.player_hand] in Hhand; subst;
          reflexivity.
      * rewrite Hhand. now apply valid_hand_shows.
      * rewrite Hhand, no_ace_value by assumption. exact Hle.
  - cbn [map player_turn]. rewrite receive_decision_choice.
    destruct ch; cbn [ClientGame.decision_of].
    + (* Hit *)
      rewrite decide_False by discriminate.
      rewrite decide_True by reflexivity.
      destruct (draw_card_run rnd g Hok) as (c & d & pos & Hdraw & Hc & Hd).
      rewrite (bind_ret _ _ _ _ _ Hdraw).
      unfold append_player, modify, mbind at 1, M_bind at 1.
      cbn [deck rpos player_hand dealer_hand sent].
      rewrite (bind_ret _ _ _ _ _ (send_card_valid _ _ Hc)).
      cbn [deck rpos player_hand dealer_hand sent].
      unfold gets, mbind at 1, M_bind at 1. cbn [player_hand].
      set (g1 := mkGame d pos (player_hand g ++ [c]) (dealer_hand g)
                        (sent g ++ [card_msg c])).
      assert (Hvalid' : Forall Deck.valid_card (player_hand g1)).
      { unfold g1. cbn [player_hand]. apply Forall_app. split; [assumption|].
        now apply List.Forall_cons. }
      destruct (Z.ltb_spec 21 (calculate_hand_value (player_hand g ++ [c])))
        as [Hbust|Hfine].
      * rewrite (bind_ret _ _ _ _ _ (send_result RESULT_LOSS g1 ltac:(unfold RESULT_LOSS; lia))).
        exists (Return "loss"), [ClientGame.Hit], rest, [c], d, pos,
          [result_msg RESULT_LOSS].
        unfold g1. cbn [deck rpos player_hand dealer_hand sent map].
        rewrite <- !app_assoc. cbn [app].
        split_and!; try done.
        { apply List.Forall_cons; [assumption | apply List.Forall_nil]. }
        intros Hna Hle s later Hhand. cbn zeta. split; [reflexivity|]. left.
        split_and!; try done.
        set (s' := ClientGame.append_player c
                     (ClientGame.sendall (choice_msg ClientGame.Hit) s)).
        assert (Hhand' : ClientGame.player_hand s' = player_hand g ++ [c])
          by (unfold s'; cbn; now rewrite Hhand).
        assert (Hshow : ClientGame.format_hand_raises (ClientGame.player_hand s) = false)
          by (rewrite Hhand; now apply valid_hand_shows).
        assert (Hv0 : Client.calculate_hand_value (ClientGame.player_hand s) <= 21).
        { rewrite Hhand, no_ace_value; [exact Hle|].
          now apply Forall_app in Hna as [? _]. }
        cbn [map app]. rewrite player_loop_hit by assumption. fold s'.
        rewrite player_loop_bust.
        -- unfold s'. destruct s; cbn in Hhand |- *. subst. reflexivity.
        -- rewrite Hhand'. now apply valid_hand_shows.
        -- rewrite Hhand'. now rewrite no_ace_value.
      * destruct (IH g1 Hd Hvalid')
          as (exit & consumed & choices' & drawn & d' & pos' & tail
              & Hin & Hrun & Hv & Hok' & Hclient).
        exists exit, (ClientGame.Hit :: consumed), choices', (c :: drawn),
          d', pos', tail.
        unfold g1 in Hrun, Hclient.
        cbn [dealer_hand player_hand sent] in Hrun, Hclient.
        rewrite <- !app_assoc in Hrun, Hclient. cbn [app] in Hrun, Hclient.
        split_and!.
        -- now rewrite Hin.
        -- fold g1 in Hrun. rewrite Hrun. cbn [map].
           now rewrite <- !app_assoc.
        -- now apply List.Forall_cons.
        -- exact Hok'.
        -- intros Hna Hle s later Hhand.
           set (s' := ClientGame.append_player c
                        (ClientGame.sendall (choice_msg ClientGame.Hit) s)).
           assert (Hhand' : ClientGame.player_hand s' = player_hand g ++ [c])
             by (unfold s'; cbn; now rewrite Hhand).
           specialize (Hclient Hna Hfine s' later Hhand').
           cbn zeta in Hclient |- *.
           assert (Hshow : ClientGame.format_hand_raises (ClientGame.player_hand s) = false)
             by (rewrite Hhand; now apply valid_hand_shows).
           assert (Hv0 : Client.calculate_hand_value (ClientGame.player_hand s) <= 21).
           { rewrite Hhand, no_ace_value; [exact Hle|].
             now apply Forall_app in Hna as [? _]. }
           cbn [map app]. rewrite player_loop_hit by assumption. fold s'.
           change (ClientGame.dealer_hand s') with (ClientGame.dealer_hand s)
             in Hclient.
           change (ClientGame.wins s') with (ClientGame.wins s) in Hclient.
           change (ClientGame.losses s') with (ClientGame.losses s) in Hclient.
           change (ClientGame.ties s') with (ClientGame.ties s) in Hclient.
           change (ClientGame.sent s')
             with (ClientGame.sent s ++ [choice_msg ClientGame.Hit])
             in Hclient.
           rewrite <- !app_assoc in Hclient. cbn [app] in Hclient.
           exact Hclient.
    + (* Stand *)
      rewrite decide_True by reflexivity.
      exists (Break (calculate_hand_value (player_hand g))),
        [ClientGame.Stand], rest, [], (deck g), (rpos g), [].
      cbn [map app]. rewrite !app_nil_r.
      split_and!; try done.
      * destruct g; reflexivity.
      * intros Hna Hle s later Hhand. cbn zeta. cbn [map app].
        rewrite ?app_nil_r. split_and!; try done.
        rewrite player_loop_stand.
        -- destruct s; cbn in Hhand |- *. subst. reflexivity.
        -- rewrite Hhand. now apply valid_hand_shows.
        -- rewrite Hhand, no_ace_value by assumption. exact Hle.
Qed.

(** The dealer's turn on the server, with what the client needs to
    know of it. *)
Lemma dealer_turn_steps fuel g c1 c2 :
  Deck.ok (deck g) -> dealer_hand g = [c1; c2] ->
  Deck.valid_card c1 -> Deck.valid_card c2 -> (17 <= fuel)%nat ->
  exists drawn d pos,
    dealer_turn rnd fuel g
    = (Ret (Some (calculate_hand_value ([c1; c2] ++ drawn))),
       mkGame d pos (player_hand g) ([c1; c2] ++ drawn)
              (sent g ++ card_msg c2 :: map card_msg drawn))
    /\ Forall Deck.valid_card drawn /\ Deck.ok d
    /\ 17 <= calculate_hand_value ([c1; c2] ++ drawn)
    /\ (forall k, (k < length drawn)%nat ->
          calculate_hand_value ([c1; c2] ++ take k drawn) < 17).
Proof.
  intros Hdeck Hhand Hc1 Hc2 Hfuel.
  rewrite (dealer_turn_reveal rnd fuel g c1 c2 Hhand Hc2).
  set (g1 := mkGame _ _ _ _ _).
  destruct (dealer_loop_run rnd fuel g1 Hdeck
              (two_cards_fuel fuel c1 c2 Hc1 Hc2 Hfuel))
    as (drawn & d & pos & Hrun & Hv & Hok & H17 & Hpre).
  exists drawn, d, pos. cbn zeta in Hrun, H17.
  unfold g1 in Hrun, H17, Hpre |- *.
  cbn [dealer_hand player_hand sent] in Hrun, H17, Hpre. rewrite Hrun.
  rewrite <- app_assoc. split_and!; done.
Qed.

End WithTape.

End ClientFacts.

Module ClientMore.
Import Random Protocol Server Scenario Trace.
Import BytesFacts ProtocolFacts CodecFacts DeckFacts ServerFacts RoundFacts
       HandFacts HandMore RoundClaims RoundMore ClientFacts.

Ltac flat :=
  repeat progress
    (rewrite ?map_app; rewrite <- ?app_assoc; cbn [map app]).

Ltac flat_in H :=
  repeat progress
    (rewrite ?map_app in H; rewrite <- ?app_assoc in H; cbn [map app] in H).

Lemma no_ace_two c1 c2 :
  Deck.valid_card c1 -> Deck.valid_card c2 -> no_ace [c1; c2] ->
  calculate_hand_value [c1; c2] <= 20.
Proof.
  intros [H1 _] [H2 _] Hna.
  apply Forall_cons in Hna as [N1 Hna]. apply Forall_cons in Hna as [N2 _].
  change [c1; c2] with ([c1] ++ [c2]).
  rewrite calculate_hand_value_app, !calculate_hand_value_single.
  unfold get_card_value.
  destruct (Z.eqb_spec c1.1 1); [contradiction|].
  destruct (Z.eqb_spec c2.1 1); [contradiction|].
  destruct (Z.leb_spec 11 c1.1), (Z.leb_spec 11 c2.1); lia.
Qed.

(** A round seen from both ends. The server plays it on the decisions
    the user will take, in the order the client sends them; the client
    plays it on the messages the server sends. If no ace is dealt, the
    client reads every message of the round and returns [True], has
    sent the decisions the server read and no other, holds the
    player's hand the server holds, and has counted the result the
    server returned. The one other way out is a user who does not
    answer: the server, timed out, has returned "loss" and the client,
    which has counted nothing, still waits. *)
Theorem client_agrees_with_server (rnd : tape) (fuel : nat)
    (choices : list ClientGame.choice) (g : Game)
    (Hdeck : Deck.ok (deck g)) (Hfuel : (17 <= fuel)%nat) :
  exists result consumed choices' g' new,
    choices = consumed ++ choices'
    /\ play_round rnd fuel (map (fun ch => choice_event ch) choices) g
       = (Ret (Some result, map (fun ch => choice_event ch) choices'), g')
    /\ sent g' = sent g ++ new
    /\ (no_ace (player_hand g' ++ dealer_hand g') ->
        forall s later,
          let run :=
            ClientGame.play_round choices (map RecvData new ++ later) s in
          (exists s',
              run = (ClientGame.Returns true, choices', later, s')
              /\ mkStats (ClientGame.wins s') (ClientGame.losses s')
                         (ClientGame.ties s')
                 = count result
                     (mkStats (ClientGame.wins s) (ClientGame.losses s)
                              (ClientGame.ties s))
              /\ ClientGame.player_hand s' = player_hand g'
              /\ (ClientGame.dealer_hand s' = dealer_hand g'
                  \/ (result = "loss"%string
                      /\ ClientGame.dealer_hand s' = take 1 (dealer_hand g')))
              /\ ClientGame.sent s'
                 = ClientGame.sent s ++ map (fun ch => choice_msg ch) consumed)
          \/ (choices' = [] /\ result = "loss"%string
              /\ exists s',
                   run = (ClientGame.Waits, [], later, s')
                   /\ ClientGame.wins s' = ClientGame.wins s
                   /\ ClientGame.losses s' = ClientGame.losses s
                   /\ ClientGame.ties s' = ClientGame.ties s)).
Proof.
  destruct (initial_deal_run rnd g Hdeck)
    as (c1 & c2 & c3 & c4 & d1 & p1 & Hdeal & Hv1 & Hok1).
  pose proof Hv1 as Hv1'.
  apply Forall_cons in Hv1' as [V1 Hv1']. apply Forall_cons in Hv1' as [V2 Hv1'].
  apply Forall_cons in Hv1' as [V3 Hv1']. apply Forall_cons in Hv1' as [V4 _].
  set (g1 := mkGame d1 p1 [c1; c2] [c3; c4] _) in *.
  assert (Hv12 : Forall Deck.valid_card (player_hand g1)).
  { unfold g1. cbn [player_hand].
    repeat (apply List.Forall_cons; [assumption|]). apply List.Forall_nil. }
  destruct (joint_player_turn rnd choices g1 Hok1 Hv12)
    as (exit & consumed & choices' & pdrawn & d2 & p2 & tail
        & Hin & Hturn & Hvp & Hok2 & Hclient).
  change (player_hand g1) with [c1; c2] in Hturn, Hclient.
  change (dealer_hand g1) with [c3; c4] in Hturn.
  change (sent g1) with (sent g ++ [card_msg c1; card_msg c2; card_msg c3])
    in Hturn.
  unfold play_round. rewrite (bind_ret _ _ _ _ _ Hdeal).
  rewrite (bind_ret _ _ _ _ _ Hturn).
  assert (Hvph : Forall Deck.valid_card ([c1; c2] ++ pdrawn)).
  { apply Forall_app. split; [exact Hv12 | exact Hvp]. }
  destruct exit as [player_value | result].
  - (* the player stood *)
    set (g2 := mkGame d2 p2 _ _ _) in *.
    destruct (dealer_turn_steps rnd fuel g2 c3 c4 Hok2 eq_refl V3 V4 Hfuel)
      as (ddrawn & d3 & p3 & Hdt & Hvd & Hok3 & H17 & Hpre).
    rewrite (bind_ret _ _ _ _ _ Hdt).
    set (g3 := mkGame d3 p3 _ _ _).
    destruct (determine_winner_run player_value
                (calculate_hand_value ([c3; c4] ++ ddrawn)) g3) as [Hw Hne].
    cbn zeta in Hw, Hne. rewrite (bind_ret _ _ _ _ _ Hw).
    set (o := Spec.resolved player_value
                (calculate_hand_value ([c3; c4] ++ ddrawn))) in *.
    exists (Spec.name o), consumed, choices'.
    eexists _, ([card_msg c1; card_msg c2; card_msg c3]
                ++ (map card_msg pdrawn ++ tail)
                ++ card_msg c4 :: map card_msg ddrawn
                ++ [result_msg (Spec.code o)]).
    split; [exact Hin|]. split; [reflexivity|].
    cbn [deck rpos player_hand dealer_hand sent].
    split.
    { unfold g3, g2. cbn [sent]. rewrite <- !app_assoc. reflexivity. }
    intros Hna s later. cbn zeta. left.
    apply Forall_app in Hna as [Hnap Hnad].
    assert (Hna12 : no_ace [c1; c2]) by (now apply Forall_app in Hnap as [? _]).
    pose proof (no_ace_two c1 c2 V1 V2 Hna12) as H20.
    set (s0 := ClientGame.mk [c1; c2] [c3] (ClientGame.wins s)
                 (ClientGame.losses s) (ClientGame.ties s) (ClientGame.sent s)).
    set (later' := map RecvData (card_msg c4 :: map card_msg ddrawn
                                 ++ [result_msg (Spec.code o)]) ++ later).
    destruct (Hclient Hnap ltac:(lia) s0 later' eq_refl) as (Hpv & -> & Hloop).
    cbn [map app]. rewrite client_deal by assumption. fold s0.
    unfold ClientGame.after_deal.
    change (ClientGame.player_hand s0) with [c1; c2].
    rewrite (no_ace_value _ Hna12).
    destruct (Z.eqb_spec (calculate_hand_value [c1; c2]) 21) as [E|_]; [lia|].
    unfold later' in Hloop. flat. flat_in Hloop.
    rewrite Hloop.
    unfold ClientGame.dealer_turn. cbn [ClientGame.recv].
    rewrite (receive_card_msg c4 V4).
    set (s1 := ClientGame.append_dealer (c4.1, c4.2) _).
    assert (Hd1 : ClientGame.dealer_hand s1 = [c3; c4])
      by (unfold s1, s0; destruct c4; reflexivity).
    assert (Hv34 : Forall Deck.valid_card [c3; c4]).
    { repeat (apply List.Forall_cons; [assumption|]). apply List.Forall_nil. }
    rewrite Hd1, (valid_hand_shows _ Hv34).
    pose proof (client_dealer_loop ddrawn [c3; c4] s1 later (Spec.code o)
                  Hd1 Hv34 Hvd Hnad Hpre H17
                  ltac:(destruct o; cbn; lia)) as Hdl.
    rewrite map_app in Hdl. cbn [map] in Hdl. rewrite <- app_assoc in Hdl.
    cbn [app] in Hdl. rewrite Hdl.
    cbn [ClientGame.player_hand ClientGame.dealer_hand].
    change (ClientGame.player_hand s1) with ([c1; c2] ++ pdrawn).
    assert (Hshd : ClientGame.format_hand_raises ([c3; c4] ++ ddrawn) = false)
      by (apply valid_hand_shows, Forall_app; now split).
    pose proof (valid_hand_shows _ Hvph) as Hshp.
    cbn [app] in Hshd, Hshp |- *.
    rewrite Hshp, Hshd.
    cbn [orb].
    eexists. split; [reflexivity|].
    match goal with
    | |- context [ClientGame.count_result _ ?st] =>
        destruct (count_result_code o st Hne) as (Hcount & Hph & Hdh & Hsent)
    end.
    cbn zeta in Hcount, Hph, Hdh, Hsent.
    split_and!.
    + exact Hcount.
    + rewrite Hph. reflexivity.
    + left. rewrite Hdh. reflexivity.
    + rewrite Hsent. reflexivity.
  - (* the round ended in the player's turn *)
    exists result, consumed, choices'.
    eexists _, ([card_msg c1; card_msg c2; card_msg c3]
                ++ map card_msg pdrawn ++ tail).
    split; [exact Hin|]. split; [reflexivity|].
    cbn [deck rpos player_hand dealer_hand sent].
    split; [now rewrite <- !app_assoc|].
    intros Hna s later. cbn zeta.
    apply Forall_app in Hna as [Hnap Hnad].
    assert (Hna12 : no_ace [c1; c2]) by (now apply Forall_app in Hnap as [? _]).
    pose proof (no_ace_two c1 c2 V1 V2 Hna12) as H20.
    set (s0 := ClientGame.mk [c1; c2] [c3] (ClientGame.wins s)
                 (ClientGame.losses s) (ClientGame.ties s) (ClientGame.sent s)).
    destruct (Hclient Hnap ltac:(lia) s0 later eq_refl) as (-> & Hcases).
    cbn [map app]. rewrite client_deal by assumption. fold s0.
    unfold ClientGame.after_deal.
    change (ClientGame.player_hand s0) with [c1; c2].
    rewrite (no_ace_value _ Hna12).
    destruct (Z.eqb_spec (calculate_hand_value [c1; c2]) 21) as [E|_]; [lia|].
    destruct Hcases as [(-> & Hbust & Hloop)|(-> & -> & Hloop)].
    + left. rewrite Hloop. eexists. split; [reflexivity|].
      cbn. split_and!; try done. right. now split.
    + right. split_and!; try done. rewrite Hloop.
      eexists. split; [reflexivity|]. now cbn.
Qed.

End ClientMore.

Module ClientBook.
Import Random Protocol Server Scenario Trace.
Import BytesFacts ProtocolFacts CodecFacts ClientFacts.

(** One receive takes at most the first event of the queue. *)
Lemma recv_reads inbox :
  exists read, inbox = read ++ (ClientGame.recv inbox).2
               /\ (length read <= 1)%nat.
Proof.
  destruct inbox as [|ev rest].
  - exists []. split; [reflexivity | cbn; lia].
  - exists [ev]. split; [reflexivity | cbn; lia].
Qed.

Ltac leaf :=
  split_and!;
  try solve
    [ done
    | cbn; rewrite ?app_nil_r; done
    | now left
    | right; now split
    | intros; discriminate
    | intros e [= <-]; now left
    | intros e [= <-]; right; now split ].

(** The player's turn of the client on any queue of receives: it
    sends one message for each answer it takes from the user, touches
    no counter but that of the losses, which it raises by one only
    when the round then returns [True], and leaves on a [KeyError]
    only over a hand that cannot be shown. *)
Lemma player_loop_book choices : forall inbox s,
  exists consumed read,
    let '(exit, choices', inbox', s') :=
      ClientGame.player_loop choices inbox s in
    choices = consumed ++ choices'
    /\ inbox = read ++ inbox'
    /\ ClientGame.sent s'
       = ClientGame.sent s ++ map (fun ch => choice_msg ch) consumed
    /\ ClientGame.dealer_hand s' = ClientGame.dealer_hand s
    /\ ClientGame.wins s' = ClientGame.wins s
    /\ ClientGame.ties s' = ClientGame.ties s
    /\ (ClientGame.losses s' = ClientGame.losses s
        \/ (ClientGame.losses s' = ClientGame.losses s + 1
            /\ exit = ClientGame.Leave (ClientGame.Returns true)))
    /\ (forall e, exit <> ClientGame.Leave
                           (ClientGame.Raises (ClientGame.CodecError e)))
    /\ (exit = ClientGame.Leave (ClientGame.Raises ClientGame.KeyError) ->
        ClientGame.format_hand_raises (ClientGame.player_hand s') = true)
    /\ (exit = ClientGame.Leave ClientGame.Waits -> choices' = []).
Proof.
  induction choices as [|ch rest IH]; intros inbox s.
  - cbn [ClientGame.player_loop].
    destruct (ClientGame.format_hand_raises (ClientGame.player_hand s)) eqn:Hf.
    { exists [], []. leaf. }
    destruct (21 <? _).
    + destruct (recv_reads inbox) as (read & Hread & _).
      destruct (ClientGame.recv inbox) as [card_data inbox'].
      exists [], read. cbn [snd] in Hread. leaf.
    + exists [], []. leaf.
  - cbn [ClientGame.player_loop].
    destruct (ClientGame.format_hand_raises (ClientGame.player_hand s)) eqn:Hf.
    { exists [], []. leaf. }
    destruct (21 <? _).
    { destruct (recv_reads inbox) as (read & Hread & _).
      destruct (ClientGame.recv inbox) as [card_data inbox'].
      exists [], read. cbn [snd] in Hread. leaf. }
    rewrite create_choice.
    destruct (decide (ClientGame.decision_of ch = DECISION_STAND)).
    { exists [ch], []. leaf. }
    destruct (recv_reads inbox) as (read & Hread & _).
    destruct (ClientGame.recv inbox) as [card_data inbox'].
    cbn [snd] in Hread.
    destruct card_data as [[[result rank] suit]|].
    2:{ exists [ch], read. leaf. }
    destruct (rank =? 0).
    { exists [ch], read. destruct (result =? RESULT_LOSS); leaf. }
    destruct (IH inbox'
                (ClientGame.append_player (rank, suit)
                   (ClientGame.sendall (choice_msg ch) s)))
      as (consumed & read' & Hrec).
    destruct (ClientGame.player_loop rest inbox' _)
      as [[[exit choices'] inbox''] s'].
    destruct Hrec as (Hc & Hi & Hs & Hd & Hw & Ht & Hl & He & Hk & Hwt).
    exists (ch :: consumed), (read ++ read').
    cbn [ClientGame.append_player ClientGame.sendall ClientGame.sent
         ClientGame.dealer_hand ClientGame.wins ClientGame.ties
         ClientGame.losses] in Hs, Hd, Hw, Ht, Hl.
    split_and!; try done.
    + now rewrite Hc.
    + now rewrite Hread, Hi, app_assoc.
    + rewrite Hs, <- app_assoc. reflexivity.
Qed.

(** The client's loop for the dealer's cards touches no counter, sends
    nothing, and is left before the result only by returning [False]
    or on a [KeyError]. *)
Lemma dealer_loop_book inbox : forall s,
  exists read,
    let '(exit, inbox', s') := ClientGame.dealer_loop inbox s in
    inbox = read ++ inbox'
    /\ ClientGame.sent s' = ClientGame.sent s
    /\ ClientGame.player_hand s' = ClientGame.player_hand s
    /\ ClientGame.wins s' = ClientGame.wins s
    /\ ClientGame.losses s' = ClientGame.losses s
    /\ ClientGame.ties s' = ClientGame.ties s
    /\ (forall e, exit = ClientGame.Stop e ->
          e = ClientGame.Returns false
          \/ (e = ClientGame.Raises ClientGame.KeyError
              /\ ClientGame.format_hand_raises (ClientGame.dealer_hand s')
                 = true)).
Proof.
  induction inbox as [|ev rest IH]; intros s.
  - exists []. cbn [ClientGame.dealer_loop]. leaf.
  - cbn [ClientGame.dealer_loop].
    destruct (ClientGame.receive_card ev) as [[[result rank] suit]|].
    2:{ exists [ev]. leaf. }
    destruct (rank =? 0).
    { exists [ev]. leaf. }
    cbn zeta.
    destruct (ClientGame.format_hand_raises _) eqn:Hf.
    { exists [ev]. leaf. }
    destruct (17 <=? _).
    + destruct (recv_reads rest) as (read & Hread & _).
      destruct (ClientGame.recv rest) as [card_data inbox'].
      cbn [snd] in Hread.
      exists (ev :: read).
      destruct card_data as [[[result' rank'] suit']|]; leaf;
        now rewrite Hread.
    + destruct (IH (ClientGame.append_dealer (rank, suit) s)) as (read & Hrec).
      destruct (ClientGame.dealer_loop rest _) as [[exit inbox'] s'].
      destruct Hrec as (Hi & Hs & Hp & Hw & Hl & Ht & He).
      exists (ev :: read). split_and!; try done. now rewrite Hi.
Qed.

Ltac book :=
  split_and!;
  try solve
    [ done
    | cbn; rewrite ?app_nil_r; done
    | cbn; lia
    | intros; discriminate
    | intros H; now contradiction H
    | now rewrite app_assoc ].

Lemma dealer_turn_book choices inbox s :
  exists read,
    let '(e, choices', inbox', s') :=
      ClientGame.dealer_turn choices inbox s in
    choices' = choices
    /\ inbox = read ++ inbox'
    /\ ClientGame.sent s' = ClientGame.sent s
    /\ ClientGame.wins s <= ClientGame.wins s'
    /\ ClientGame.losses s <= ClientGame.losses s'
    /\ ClientGame.ties s <= ClientGame.ties s'
    /\ ClientGame.wins s' + ClientGame.losses s' + ClientGame.ties s'
       <= ClientGame.wins s + ClientGame.losses s + ClientGame.ties s + 1
    /\ (e <> ClientGame.Returns true ->
        ClientGame.wins s' = ClientGame.wins s
        /\ ClientGame.losses s' = ClientGame.losses s
        /\ ClientGame.ties s' = ClientGame.ties s)
    /\ (forall x, e <> ClientGame.Raises (ClientGame.CodecError x))
    /\ (e = ClientGame.Raises ClientGame.KeyError ->
        ClientGame.format_hand_raises (ClientGame.player_hand s')
        || ClientGame.format_hand_raises (ClientGame.dealer_hand s') = true)
    /\ e <> ClientGame.Waits.
Proof.
  unfold ClientGame.dealer_turn.
  destruct (recv_reads inbox) as (read & Hread & _).
  destruct (ClientGame.recv inbox) as [card_data inbox1].
  cbn [snd] in Hread.
  destruct card_data as [[[result rank] suit]|]; [|exists read; book].
  destruct (ClientGame.format_hand_raises
              (ClientGame.dealer_hand
                 (ClientGame.append_dealer (rank, suit) s))) eqn:Hf.
  { exists read. book. intros _. rewrite Hf. apply orb_true_r. }
  destruct (dealer_loop_book inbox1 (ClientGame.append_dealer (rank, suit) s))
    as (read' & Hrec).
  destruct (ClientGame.dealer_loop inbox1 _) as [[exit inbox2] s2].
  destruct Hrec as (Hi & Hs & Hp & Hw & Hl & Ht & He).
  cbn [ClientGame.append_dealer ClientGame.sent ClientGame.player_hand
       ClientGame.wins ClientGame.losses ClientGame.ties] in Hs, Hp, Hw, Hl, Ht.
  exists (read ++ read'). rewrite Hread, Hi.
  destruct exit as [result'|e].
  - destruct (_ || _) eqn:Hshow.
    + book; lia.
    + unfold ClientGame.count_result.
      destruct (result' =? RESULT_WIN); [book; cbn; lia|].
      destruct (result' =? RESULT_LOSS); [book; cbn; lia|].
      destruct (result' =? RESULT_TIE); book; cbn; lia.
  - destruct (He e eq_refl) as [-> | [-> Hk]]; book; try lia.
    intros _. rewrite Hk. apply orb_true_r.
Qed.

(** A round of the client on any queue of receives and any answers:
    what it takes, what it sends and what it counts. *)
Lemma play_round_book (choices : list ClientGame.choice)
    (inbox : list recv_event) (s : ClientGame.t) :
  exists consumed read,
    let '(e, choices', inbox', s') :=
      ClientGame.play_round choices inbox s in
    choices = consumed ++ choices'
    /\ inbox = read ++ inbox'
    /\ ClientGame.sent s'
       = ClientGame.sent s ++ map (fun ch => choice_msg ch) consumed
    /\ ClientGame.wins s <= ClientGame.wins s'
    /\ ClientGame.losses s <= ClientGame.losses s'
    /\ ClientGame.ties s <= ClientGame.ties s'
    /\ ClientGame.wins s' + ClientGame.losses s' + ClientGame.ties s'
       <= ClientGame.wins s + ClientGame.losses s + ClientGame.ties s + 1
    /\ (e <> ClientGame.Returns true ->
        ClientGame.wins s' = ClientGame.wins s
        /\ ClientGame.losses s' = ClientGame.losses s
        /\ ClientGame.ties s' = ClientGame.ties s)
    /\ (forall x, e <> ClientGame.Raises (ClientGame.CodecError x))
    /\ (e = ClientGame.Raises ClientGame.KeyError ->
        ClientGame.format_hand_raises (ClientGame.player_hand s')
        || ClientGame.format_hand_raises (ClientGame.dealer_hand s') = true)
    /\ (e = ClientGame.Waits -> choices' = []).
Proof.
  unfold ClientGame.play_round.
  destruct (recv_reads inbox) as (r1 & Hr1 & _).
  destruct (ClientGame.recv inbox) as [card1 inbox1]. cbn [snd] in Hr1.
  destruct card1 as [[[res1 rank1] suit1]|]; [|exists [], r1; book].
  destruct (recv_reads inbox1) as (r2 & Hr2 & _).
  destruct (ClientGame.recv inbox1) as [card2 inbox2]. cbn [snd] in Hr2.
  destruct card2 as [[[res2 rank2] suit2]|];
    [|exists [], (r1 ++ r2); rewrite Hr1, Hr2; book].
  destruct (recv_reads inbox2) as (r3 & Hr3 & _).
  destruct (ClientGame.recv inbox2) as [card3 inbox3]. cbn [snd] in Hr3.
  destruct card3 as [[[res3 rank3] suit3]|];
    [|exists [], (r1 ++ r2 ++ r3); rewrite Hr1, Hr2, Hr3, !app_assoc; book].
  set (s0 := ClientGame.append_dealer _ _).
  assert (Hs0 : ClientGame.sent s0 = ClientGame.sent s
                /\ ClientGame.wins s0 = ClientGame.wins s
                /\ ClientGame.losses s0 = ClientGame.losses s
                /\ ClientGame.ties s0 = ClientGame.ties s) by now unfold s0.
  destruct Hs0 as (S0 & W0 & L0 & T0).
  unfold ClientGame.after_deal.
  destruct (_ =? 21).
  { destruct (recv_reads inbox3) as (r4 & Hr4 & _).
    destruct (ClientGame.recv inbox3) as [card4 inbox4]. cbn [snd] in Hr4.
    exists [], (r1 ++ r2 ++ r3 ++ r4).
    rewrite Hr1, Hr2, Hr3, Hr4, <- !app_assoc.
    destruct card4 as [[[res4 rank4] suit4]|];
      [destruct (res4 =? RESULT_WIN)|]; book; cbn; lia. }
  destruct (player_loop_book choices inbox3 s0) as (consumed & r4 & Hrec).
  destruct (ClientGame.player_loop choices inbox3 s0)
    as [[[exit choices1] inbox4] s1].
  destruct Hrec as (Hc & Hi & Hs & Hd & Hw & Ht & Hl & He & Hk & Hwt).
  rewrite S0 in Hs. rewrite W0 in Hw. rewrite T0 in Ht. rewrite L0 in Hl.
  destruct exit as [|e].
  - destruct Hl as [Hl | [_ [=]]].
    destruct (dealer_turn_book choices1 inbox4 s1) as (r5 & Hrec).
    destruct (ClientGame.dealer_turn choices1 inbox4 s1)
      as [[[e choices2] inbox5] s2].
    destruct Hrec as (-> & Hi5 & Hs5 & Hw5 & Hl5 & Ht5 & Hsum & Hsame & Hce
                      & Hke & Hnw).
    exists consumed, (r1 ++ r2 ++ r3 ++ r4 ++ r5).
    rewrite Hr1, Hr2, Hr3, Hi, Hi5, <- !app_assoc.
    split_and!; try done; try lia.
    + now rewrite Hs5.
    + intros Hne. destruct (Hsame Hne) as (? & ? & ?). split_and!; congruence.
  - exists consumed, (r1 ++ r2 ++ r3 ++ r4).
    rewrite Hr1, Hr2, Hr3, Hi, <- !app_assoc.
    split_and!; try done; try lia.
    + intros Hne. destruct Hl as [Hl | [_ [= ->]]]; [now split_and! | contradiction].
    + intros x ->. now apply (He x).
    + intros ->. rewrite Hk by reflexivity. reflexivity.
    + intros ->. now apply Hwt.
Qed.

(** What a round does to the client, whatever arrives and whatever
    the user answers. It takes the answers [consumed] and sends one
    10-byte message for each, nothing else; it reads the receives
    [read]; it never lowers a counter and raises at most one of them,
    by one, and only if it returns [True]. No exception of the codec
    leaves it; a [KeyError] does only when a hand holds a card whose
    suit is not in [SUIT_COLORS]; and it waits for the user only when
    no answer is left. *)
Theorem client_round_bookkeeping (choices : list ClientGame.choice)
    (inbox : list recv_event) (s : ClientGame.t) :
  exists consumed read,
    let '(e, choices', inbox', s') :=
      ClientGame.play_round choices inbox s in
    choices = consumed ++ choices'
    /\ inbox = read ++ inbox'
    /\ ClientGame.sent s'
       = ClientGame.sent s ++ map (fun ch => choice_msg ch) consumed
    /\ Forall (fun m : bytes => length m = 10%nat)
              (map (fun ch => choice_msg ch) consumed)
    /\ ClientGame.wins s <= ClientGame.wins s'
    /\ ClientGame.losses s <= ClientGame.losses s'
    /\ ClientGame.ties s <= ClientGame.ties s'
    /\ ClientGame.wins s' + ClientGame.losses s' + ClientGame.ties s'
       <= ClientGame.wins s + ClientGame.losses s + ClientGame.ties s + 1
    /\ (e <> ClientGame.Returns true ->
        ClientGame.wins s' = ClientGame.wins s
        /\ ClientGame.losses s' = ClientGame.losses s
        /\ ClientGame.ties s' = ClientGame.ties s)
    /\ (forall x, e <> ClientGame.Raises (ClientGame.CodecError x))
    /\ (e = ClientGame.Raises ClientGame.KeyError ->
        ClientGame.format_hand_raises (ClientGame.player_hand s')
        || ClientGame.format_hand_raises (ClientGame.dealer_hand s') = true)
    /\ (e = ClientGame.Waits -> choices' = []).
Proof.
  destruct (play_round_book choices inbox s) as (consumed & read & Hbook).
  exists consumed, read.
  destruct (ClientGame.play_round choices inbox s)
    as [[[e choices'] inbox'] s'].
  destruct Hbook as (Hc & Hi & Hs & Hw & Hl & Ht & Hsum & Hsame & Hce
                     & Hke & Hwt).
  split_and!; try assumption.
  apply Forall_forall. intros m Hm.
  apply list_elem_of_fmap in Hm as (ch & -> & _). now destruct ch.
Qed.

End ClientBook.

Module MoreWitnesses.
Import Random Utf8 Protocol Server Session Scenario Trace Table.
Import DeckFacts ClientFacts Witnesses.
Import CodecMore HandMore DeckMore RoundMore DecoderMore DecisionMore
       SessionMore ClientMore ClientBook.

Lemma ace_free_game_ok : Deck.ok (deck ace_free_game).
Proof. unfold Deck.ok. apply (bool_decide_unpack _). vm_compute. exact I. Qed.

Lemma create_returns_iff_witness :
  valid_str (lit "Test Server") /\ valid_str DECISION_HIT /\
  returns (create_offer_message 12345 (lit "Test Server")) /\
  returns (create_client_payload DECISION_HIT) /\
  ~ returns (create_request_message 256 (lit "Test Server")).
Proof.
  assert (H1 : valid_str (lit "Test Server")).
  { unfold valid_str. apply (bool_decide_unpack _). vm_compute. exact I. }
  assert (H2 : valid_str DECISION_HIT).
  { unfold valid_str. apply (bool_decide_unpack _). vm_compute. exact I. }
  destruct (create_returns_iff 12345 256 0 1 3 (lit "Test Server")
              DECISION_HIT H1 H2) as (_ & _ & Ho & Hr & Hc).
  split_and!; try assumption.
  - apply Ho. split; [lia|]. apply (bool_decide_unpack _). vm_compute. exact I.
  - apply Hc. apply (bool_decide_unpack _). vm_compute. exact I.
  - intros H. apply Hr in H as [? _]. lia.
Defined.

Lemma name_survives_iff_witness :
  valid_str (lit "Test Server") /\
  encode (lit "Test Server") = Ret (encoded (lit "Test Server")) /\
  exists field,
    pad_name (lit "Test Server") = Ret field
    /\ unpad_name field = lit "Test Server".
Proof.
  assert (H1 : valid_str (lit "Test Server")).
  { unfold valid_str. apply (bool_decide_unpack _). vm_compute. exact I. }
  assert (H2 : encode (lit "Test Server") = Ret (encoded (lit "Test Server")))
    by (vm_compute; reflexivity).
  destruct (name_survives_iff (lit "Test Server") _ H1 H2)
    as (field & Hp & _ & _ & Hiff).
  split_and!; try assumption.
  exists field. split; [assumption|]. apply Hiff.
  split; [vm_compute; lia | vm_compute; discriminate].
Defined.

Lemma hand_value_order_independent_witness :
  [(1, SUIT_SPADE); (10, SUIT_DIAMOND)] ≡ₚ [(10, SUIT_DIAMOND); (1, SUIT_SPADE)]
  /\ Client.calculate_hand_value [(1, SUIT_SPADE); (10, SUIT_DIAMOND)]
     = Client.calculate_hand_value [(10, SUIT_DIAMOND); (1, SUIT_SPADE)].
Proof.
  assert (H : [(1, SUIT_SPADE); (10, SUIT_DIAMOND)]
              ≡ₚ [(10, SUIT_DIAMOND); (1, SUIT_SPADE)]) by apply perm_swap.
  split; [exact H|].
  exact (proj2 (hand_value_order_independent _ _ H)).
Defined.

Lemma client_blackjack_iff_witness :
  Deck.valid_card (1, SUIT_SPADE) /\ Deck.valid_card (13, SUIT_HEART) /\
  Client.calculate_hand_value [(1, SUIT_SPADE); (13, SUIT_HEART)] = 21.
Proof.
  assert (H1 : Deck.valid_card (1, SUIT_SPADE))
    by (vm_compute; intuition discriminate).
  assert (H2 : Deck.valid_card (13, SUIT_HEART))
    by (vm_compute; intuition discriminate).
  destruct (client_blackjack_iff _ _ H1 H2) as (Hiff & _).
  split_and!; try assumption.
  apply Hiff. left. cbn. lia.
Defined.

Lemma deck_stays_a_pack_witness :
  NoDup (Deck.cards (Deck.mk [])) /\ Deck.ok (Deck.mk []) /\
  exists dealt d' k,
    Deck.run natural_tape [Deck.OpDraw; Deck.OpReset; Deck.OpDraw] 0
             (Deck.mk [])
    = (map Some dealt, d', (0 + 51 * k)%nat)
    /\ length dealt = 2%nat /\ NoDup (Deck.cards d').
Proof.
  assert (H1 : NoDup (Deck.cards (Deck.mk []))) by constructor.
  assert (H2 : Deck.ok (Deck.mk [])) by constructor.
  destruct (deck_stays_a_pack natural_tape
              [Deck.OpDraw; Deck.OpReset; Deck.OpDraw] 0 _ H1 H2)
    as (dealt & d' & k & Hrun & Hlen & _ & Hnd & _).
  split_and!; try assumption.
  exists dealt, d', k. split_and!; assumption.
Defined.

Lemma play_round_trace_witness :
  Deck.ok (deck natural_game) /\ (17 <= 17)%nat /\
  exists result consumed inbox' g' dealt closing,
    play_round natural_tape 17 [decision_event DECISION_STAND] natural_game
    = (Ret (Some result, inbox'), g')
    /\ [decision_event DECISION_STAND] = consumed ++ inbox'
    /\ sent g' = sent natural_game ++ map card_msg dealt ++ closing.
Proof.
  assert (H2 : (17 <= 17)%nat) by lia.
  destruct (play_round_trace natural_tape 17 [decision_event DECISION_STAND]
              natural_game natural_game_ok H2)
    as (result & consumed & inbox' & g' & dealt & closing
        & Hrun & Hin & Hsent & _).
  split_and!; [exact natural_game_ok | exact H2 |].
  exists result, consumed, inbox', g', dealt, closing. split_and!; assumption.
Defined.



Lemma decision_needs_exact_bytes_witness :
  utf8_len DECISION_HIT = 5%nat /\
  receive_decision (decision_event DECISION_HIT) = Some DECISION_HIT.
Proof.
  assert (H : utf8_len DECISION_HIT = 5%nat) by reflexivity.
  split; [exact H|].
  apply (decision_needs_exact_bytes _ _ H).
  split_and!.
  - apply (bool_decide_unpack _). vm_compute. exact I.
  - apply (bool_decide_unpack _). vm_compute. exact I.
  - vm_compute. reflexivity.
  - vm_compute. discriminate.
Defined.


(** On the table without aces the user hits on 16, stands on 20 and
    the dealer goes bust on 22: the client, fed the server's seven
    messages, counts the win. *)
Lemma client_agrees_with_server_witness :
  Deck.ok (deck ace_free_game) /\ (17 <= 17)%nat /\
  let server :=
    play_round natural_tape 17
      [decision_event DECISION_HIT; decision_event DECISION_STAND]
      ace_free_game in
  server.1 = Ret (Some "win"%string, []) /\
  exists s',
    ClientGame.play_round [ClientGame.Hit; ClientGame.Stand]
      (map RecvData (sent server.2)) new_client
    = (ClientGame.Returns true, [], [], s')
    /\ ClientGame.wins s' = 1.
Proof.
  assert (H2 : (17 <= 17)%nat) by lia.
  split; [exact ace_free_game_ok|]. split; [exact H2|]. cbn zeta.
  destruct (client_agrees_with_server natural_tape 17
              [ClientGame.Hit; ClientGame.Stand] ace_free_game
              ace_free_game_ok H2)
    as (result & consumed & choices' & g' & new & Hin & Hrun & Hsent & Hclient).
  cbn [map ClientGame.decision_of] in Hrun.
  assert (Hserver :
            (play_round natural_tape 17
               [decision_event DECISION_HIT; decision_event DECISION_STAND]
               ace_free_game).1 = Ret (Some "win"%string, []))
    by (vm_compute; reflexivity).
  split; [exact Hserver|].
  rewrite Hrun in Hserver |- *. cbn [fst snd] in Hserver |- *.
  injection Hserver as -> Hrest.
  assert (choices' = []) as -> by (destruct choices'; [reflexivity | discriminate]).
  change (sent ace_free_game) with (@nil bytes) in Hsent. cbn [app] in Hsent.
  rewrite Hsent.
  assert (Hna : no_ace (player_hand g' ++ dealer_hand g')).
  { apply (f_equal snd) in Hrun. cbn [snd] in Hrun. rewrite <- Hrun.
    unfold no_ace. apply (bool_decide_unpack _). vm_compute. exact I. }
  destruct (Hclient Hna new_client []) as [(s' & Hc & Hcount & _)|(_ & [=] & _)].
  rewrite app_nil_r in Hc.
  exists s'. split; [exact Hc|].
  injection Hcount as Hw _ _. exact Hw.
Defined.

End MoreWitnesses.

Module ClientSession.
Import Random Protocol Server Scenario Trace.
Import BytesFacts ProtocolFacts CodecFacts HandMore ClientFacts ClientBook.

(** The loop over the rounds of the client: what it takes, sends and
    counts after [rounds] more rounds. *)
Lemma play_rounds_book (rounds : nat) : forall choices inbox s,
  exists consumed read,
    let '(e, choices', inbox', s') :=
      ClientGame.play_rounds rounds choices inbox s in
    choices = consumed ++ choices'
    /\ inbox = read ++ inbox'
    /\ ClientGame.sent s'
       = ClientGame.sent s ++ map (fun ch => choice_msg ch) consumed
    /\ ClientGame.wins s <= ClientGame.wins s'
    /\ ClientGame.losses s <= ClientGame.losses s'
    /\ ClientGame.ties s <= ClientGame.ties s'
    /\ ClientGame.wins s' + ClientGame.losses s' + ClientGame.ties s'
       <= ClientGame.wins s + ClientGame.losses s + ClientGame.ties s
          + Z.of_nat rounds
    /\ (e <> ClientGame.Returns true ->
        ClientGame.wins s' + ClientGame.losses s' + ClientGame.ties s'
        < ClientGame.wins s + ClientGame.losses s + ClientGame.ties s
          + Z.of_nat rounds)
    /\ (forall x, e <> ClientGame.Raises (ClientGame.CodecError x))
    /\ (e = ClientGame.Waits -> choices' = []).
Proof.
  induction rounds as [|rounds IH]; intros choices inbox s.
  - exists [], []. cbn [ClientGame.play_rounds].
    split_and!; try done; try lia.
    cbn. now rewrite app_nil_r.
  - cbn [ClientGame.play_rounds].
    destruct (play_round_book choices inbox s) as (c1 & r1 & Hbook).
    destruct (ClientGame.play_round choices inbox s)
      as [[[e choices1] inbox1] s1].
    destruct Hbook as (Hc & Hi & Hs & Hw & Hl & Ht & Hsum & Hsame & Hce
                       & _ & Hwt).
    assert (Hstop : e <> ClientGame.Returns true ->
              exists consumed read,
                choices = consumed ++ choices1
                /\ inbox = read ++ inbox1
                /\ ClientGame.sent s1
                   = ClientGame.sent s
                     ++ map (fun ch => choice_msg ch) consumed
                /\ ClientGame.wins s <= ClientGame.wins s1
                /\ ClientGame.losses s <= ClientGame.losses s1
                /\ ClientGame.ties s <= ClientGame.ties s1
                /\ ClientGame.wins s1 + ClientGame.losses s1
                   + ClientGame.ties s1
                   <= ClientGame.wins s + ClientGame.losses s
                      + ClientGame.ties s + Z.of_nat (S rounds)
                /\ (e <> ClientGame.Returns true ->
                    ClientGame.wins s1 + ClientGame.losses s1
                    + ClientGame.ties s1
                    < ClientGame.wins s + ClientGame.losses s
                      + ClientGame.ties s + Z.of_nat (S rounds))
                /\ (forall x, e <> ClientGame.Raises (ClientGame.CodecError x))
                /\ (e = ClientGame.Waits -> choices1 = [])).
    { intros Hne. exists c1, r1. destruct (Hsame Hne) as (Ew & El & Et).
      split_and!; try assumption; try lia. }
    destruct e as [[|]| |x]; try (apply Hstop; discriminate).
    clear Hstop.
    destruct (IH choices1 inbox1 s1) as (c2 & r2 & Hrest).
    destruct (ClientGame.play_rounds rounds choices1 inbox1 s1)
      as [[[e choices2] inbox2] s2].
    destruct Hrest as (Hc2 & Hi2 & Hs2 & Hw2 & Hl2 & Ht2 & Hsum2 & Hlt2
                       & Hce2 & Hwt2).
    exists (c1 ++ c2), (r1 ++ r2).
    split_and!; try assumption; try lia.
    + now rewrite Hc, Hc2, app_assoc.
    + now rewrite Hi, Hi2, app_assoc.
    + now rewrite Hs2, Hs, map_app, app_assoc.
    + intros Hne. specialize (Hlt2 Hne). lia.
Qed.

(** The client's [play_all_rounds] on any queue of receives and any
    answers of the user. It sends one message for each answer it takes
    and nothing else, never lowers a counter, and counts at most
    [num_rounds] results: fewer when it does not return [True], and
    none, reading and sending nothing, when [num_rounds] is not
    positive. No exception of the codec leaves it, and it waits for
    the user only when no answer is left. *)
Theorem client_counts_at_most_the_rounds (num_rounds : Z)
    (choices : list ClientGame.choice) (inbox : list recv_event)
    (s : ClientGame.t) :
  exists consumed read,
    let '(e, choices', inbox', s') :=
      ClientGame.play_all_rounds num_rounds choices inbox s in
    choices = consumed ++ choices'
    /\ inbox = read ++ inbox'
    /\ ClientGame.sent s'
       = ClientGame.sent s ++ map (fun ch => choice_msg ch) consumed
    /\ ClientGame.wins s <= ClientGame.wins s'
    /\ ClientGame.losses s <= ClientGame.losses s'
    /\ ClientGame.ties s <= ClientGame.ties s'
    /\ ClientGame.wins s' + ClientGame.losses s' + ClientGame.ties s'
       <= ClientGame.wins s + ClientGame.losses s + ClientGame.ties s
          + Z.max 0 num_rounds
    /\ (e <> ClientGame.Returns true ->
        0 < num_rounds
        /\ ClientGame.wins s' + ClientGame.losses s' + ClientGame.ties s'
           < ClientGame.wins s + ClientGame.losses s + ClientGame.ties s
             + num_rounds)
    /\ (num_rounds <= 0 ->
        e = ClientGame.Returns true /\ consumed = [] /\ read = []
        /\ s' = s)
    /\ (forall x, e <> ClientGame.Raises (ClientGame.CodecError x))
    /\ (e = ClientGame.Waits -> choices' = []).
Proof.
  unfold ClientGame.play_all_rounds.
  destruct (Z.leb_spec num_rounds 0) as [Hle | Hpos].
  - replace (Z.to_nat num_rounds) with 0%nat by lia.
    exists [], []. cbn [ClientGame.play_rounds].
    split_and!; try done; try lia.
    cbn. now rewrite app_nil_r.
  - destruct (play_rounds_book (Z.to_nat num_rounds) choices inbox s)
      as (consumed & read & Hbook).
    exists consumed, read.
    destruct (ClientGame.play_rounds (Z.to_nat num_rounds) choices inbox s)
      as [[[e choices'] inbox'] s'].
    destruct Hbook as (Hc & Hi & Hs & Hw & Hl & Ht & Hsum & Hlt & Hce & Hwt).
    rewrite Z2Nat.id in Hsum, Hlt by lia.
    split_and!; try assumption; try lia.
    intros Hne. specialize (Hlt Hne). lia.
Qed.

(** A natural 21 on the client. When the two cards dealt to the
    player count 21 for the client, [play_round] asks the user nothing
    and sends nothing: it takes the next receive, whatever it is, for
    the result, counts a win only if that receive is a message whose
    result is [RESULT_WIN], touches no other counter, and returns
    [True]. *)
Theorem client_natural_21_sends_nothing (c1 c2 c3 : card)
    (choices : list ClientGame.choice) (later : list recv_event)
    (s : ClientGame.t)
    (V1 : Deck.valid_card c1) (V2 : Deck.valid_card c2)
    (V3 : Deck.valid_card c3)
    (H21 : Client.calculate_hand_value [c1; c2] = 21) :
  exists s',
    ClientGame.play_round choices
      (map RecvData [card_msg c1; card_msg c2; card_msg c3] ++ later) s
    = (ClientGame.Returns true, choices, tail later, s')
    /\ ClientGame.sent s' = ClientGame.sent s
    /\ ClientGame.player_hand s' = [c1; c2]
    /\ ClientGame.dealer_hand s' = [c3]
    /\ ClientGame.losses s' = ClientGame.losses s
    /\ ClientGame.ties s' = ClientGame.ties s
    /\ (ClientGame.wins s' = ClientGame.wins s
        \/ ClientGame.wins s' = ClientGame.wins s + 1)
    /\ (ClientGame.wins s' = ClientGame.wins s + 1
        <-> exists ev rest rank suit,
              later = ev :: rest
              /\ ClientGame.receive_card ev = Some (RESULT_WIN, rank, suit)).
Proof.
  cbn [map app]. rewrite client_deal by assumption.
  unfold ClientGame.after_deal. cbn [ClientGame.player_hand].
  rewrite H21. cbn [Z.eqb Pos.eqb].
  destruct later as [|ev rest]; cbn [ClientGame.recv tail].
  - eexists. split; [reflexivity|]. cbn.
    split_and!; try done; try (now left).
    split; [lia|]. now intros (? & ? & ? & ? & [=] & _).
  - destruct (ClientGame.receive_card ev) as [[[result rank] suit]|] eqn:Hev.
    + destruct (Z.eqb_spec result RESULT_WIN) as [-> | Hne].
      * eexists. split; [reflexivity|]. cbn.
        split_and!; try done; try (now right).
        split; [|reflexivity]. intros _. now exists ev, rest, rank, suit.
      * eexists. split; [reflexivity|]. cbn.
        split_and!; try done; try (now left).
        split; [lia|].
        intros (ev' & rest' & rank' & suit' & [= <- <-] & Hev').
        rewrite Hev in Hev'. congruence.
    + eexists. split; [reflexivity|]. cbn.
      split_and!; try done; try (now left).
      split; [lia|].
      intros (ev' & rest' & rank' & suit' & [= <- <-] & Hev').
      rewrite Hev in Hev'. discriminate.
Qed.

End ClientSession.

Module SessionJoint.
Import Utf8 Random Protocol Server Session.
Import BytesFacts NameFacts ProtocolFacts CodecFacts DeckFacts ServerFacts RoundMore
       SessionMore.



End SessionJoint.

Module DisplayFacts.
Import Protocol Display.

Ltac ranks r H :=
  assert (r = 1 \/ r = 2 \/ r = 3 \/ r = 4 \/ r = 5 \/ r = 6 \/ r = 7
          \/ r = 8 \/ r = 9 \/ r = 10 \/ r = 11 \/ r = 12 \/ r = 13)
    as H by lia;
  repeat (destruct H as [H | H]); subst r.

Ltac suits s H :=
  assert (s = 0 \/ s = 1 \/ s = 2 \/ s = 3) as H by lia;
  repeat (destruct H as [H | H]); subst s.

(** A key that is not in the dict gives the default. *)
Lemma get_rank_default (rank : Z) :
  ~ 1 <= rank <= 13 -> get RANK_NAMES rank (lit "?") = lit "?".
Proof.
  intros Hout. unfold get, RANK_NAMES. cbn [ClientGame.getitem].
  repeat match goal with
         | |- context [?k =? rank] =>
             destruct (Z.eqb_spec k rank); [lia|]
         end.
  reflexivity.
Qed.

Lemma get_suit_default (suit : Z) :
  ~ 0 <= suit <= 3 -> get SUIT_NAMES suit (lit "?") = lit "?".
Proof.
  intros Hout. unfold get, SUIT_NAMES. cbn [ClientGame.getitem].
  unfold SUIT_HEART, SUIT_DIAMOND, SUIT_CLUB, SUIT_SPADE.
  repeat match goal with
         | |- context [?k =? suit] =>
             destruct (Z.eqb_spec k suit); [lia|]
         end.
  reflexivity.
Qed.

(** The name of a rank of the pack is one or two characters, none of
    them a question mark or a space. *)
Lemma rank_name_shape (rank : Z) :
  1 <= rank <= 13 ->
  let name := get RANK_NAMES rank (lit "?") in
  (1 <= length name <= 2)%nat /\ ~ In 63 name /\ ~ In 32 name.
Proof.
  intros Hin. ranks rank H; vm_compute; (split_and!; [lia | lia | |]);
    intros Hq; repeat (destruct Hq as [Hq | Hq]; [discriminate|]);
    exact Hq.
Qed.

Lemma suit_name_shape (suit : Z) :
  0 <= suit <= 3 ->
  exists ch, get SUIT_NAMES suit (lit "?") = [ch] /\ ch <> 63 /\ ch <> 32.
Proof.
  intros Hin. suits suit H; eexists; (split; [reflexivity|]); split; discriminate.
Qed.

(** [format_card] is a prefix code on the pack: what follows a card
    in a text does not blur it. *)
Lemma format_card_cancel (c c' : card) (t t' : str) :
  Deck.valid_card c -> Deck.valid_card c' ->
  format_card c.1 c.2 ++ t = format_card c'.1 c'.2 ++ t' ->
  c = c' /\ t = t'.
Proof.
  destruct c as [r s], c' as [r' s']. intros [Hr Hs] [Hr' Hs'].
  cbn [fst snd] in *. unfold format_card. cbn zeta.
  assert (Hrank : get RANK_NAMES r (lit "?") ++ get SUIT_NAMES s (lit "?") ++ t
                  = get RANK_NAMES r' (lit "?")
                    ++ get SUIT_NAMES s' (lit "?") ++ t'
                  -> r = r'
                     /\ get SUIT_NAMES s (lit "?") ++ t
                        = get SUIT_NAMES s' (lit "?") ++ t').
  { clear Hs Hs'. ranks r H; ranks r' H';
      cbn -[SUIT_NAMES]; intros Heq;
      first [ split; [reflexivity|]; congruence | discriminate Heq ]. }
  rewrite <- !app_assoc. intros Heq.
  destruct (Hrank Heq) as [<- Hsuit]. clear Hrank Heq.
  suits s H; suits s' H'; cbn in Hsuit;
    first [ injection Hsuit as ->; split; reflexivity | discriminate Hsuit ].
Qed.

Lemma join_cons (sep x : str) (items : list str) :
  join sep (x :: items)
  = x ++ match items with [] => [] | _ :: _ => sep ++ join sep items end.
Proof. destruct items; cbn [join]; [now rewrite app_nil_r | reflexivity]. Qed.

Lemma format_card_length (rank suit : Z) :
  (2 <= length (format_card rank suit) <= 3)%nat.
Proof.
  unfold format_card. cbn zeta. rewrite length_app.
  assert (Hr : (1 <= length (get RANK_NAMES rank (lit "?")) <= 2)%nat).
  { destruct (decide (1 <= rank <= 13)) as [Hin | Hout].
    - apply (rank_name_shape rank Hin).
    - rewrite get_rank_default by assumption. cbn. lia. }
  assert (Hs : length (get SUIT_NAMES suit (lit "?")) = 1%nat).
  { destruct (decide (0 <= suit <= 3)) as [Hin | Hout].
    - destruct (suit_name_shape suit Hin) as (ch & -> & _). reflexivity.
    - rewrite get_suit_default by assumption. reflexivity. }
  lia.
Qed.

(** [format_card] never raises and never returns the empty text: it
    gives two or three characters for any two integers, and a
    question mark stands in the text exactly when the rank is not
    1..13 or the suit not 0..3. No text of a card holds a space. *)
Theorem format_card_marks_unknown (rank suit : Z) :
  (2 <= length (format_card rank suit) <= 3)%nat
  /\ (In 63 (format_card rank suit) <-> ~ Deck.valid_card (rank, suit))
  /\ ~ In 32 (format_card rank suit).
Proof.
  split; [apply format_card_length|].
  unfold format_card, Deck.valid_card. cbn [fst snd]. cbn zeta.
  destruct (decide (1 <= rank <= 13)) as [Hr | Hr];
    destruct (decide (0 <= suit <= 3)) as [Hs | Hs].
  - destruct (rank_name_shape rank Hr) as (_ & Hq & Hsp).
    destruct (suit_name_shape suit Hs) as (ch & -> & Hch & Hch').
    split; [split|].
    + intros Hin. apply in_app_or in Hin as [Hin | [Hin | []]];
        [contradiction | congruence].
    + intros Hn. exfalso. apply Hn. now split.
    + intros Hin. apply in_app_or in Hin as [Hin | [Hin | []]];
        [contradiction | congruence].
  - destruct (rank_name_shape rank Hr) as (_ & Hq & Hsp).
    rewrite get_suit_default by assumption.
    split; [split|].
    + intros _ [_ Hs']. contradiction.
    + intros _. apply in_or_app. right. now left.
    + intros Hin. apply in_app_or in Hin as [Hin | [Hin | []]];
        [contradiction | discriminate].
  - rewrite get_rank_default by assumption.
    split; [split|].
    + intros _ [Hr' _]. contradiction.
    + intros _. apply in_or_app. left. now left.
    + destruct (suit_name_shape suit Hs) as (ch & -> & Hch & Hch').
      intros [Hin | [Hin | []]]; [discriminate | congruence].
  - rewrite get_rank_default, get_suit_default by assumption.
    split; [split|].
    + intros _ [Hr' _]. contradiction.
    + intros _. now left.
    + intros [Hin | [Hin | []]]; discriminate.
Qed.

Lemma shown_hand_inj (hand : list card) : forall hand',
  Forall Deck.valid_card hand -> Forall Deck.valid_card hand' ->
  join (lit " ") (map (fun '(rank, suit) => format_card rank suit) hand)
  = join (lit " ") (map (fun '(rank, suit) => format_card rank suit) hand') ->
  hand = hand'.
Proof.
  induction hand as [|c hand IH]; intros [|c' hand'] Hv Hv' Heq.
  - reflexivity.
  - exfalso. cbn [map] in Heq. rewrite join_cons in Heq.
    destruct c' as [r s]. pose proof (format_card_length r s) as Hl.
    apply (f_equal (@length Z)) in Heq. rewrite length_app in Heq.
    cbn [length join] in Heq. lia.
  - exfalso. cbn [map] in Heq. rewrite join_cons in Heq.
    destruct c as [r s]. pose proof (format_card_length r s) as Hl.
    apply (f_equal (@length Z)) in Heq. rewrite length_app in Heq.
    cbn [length join] in Heq. lia.
  - apply Forall_cons in Hv as [Vc Hv]. apply Forall_cons in Hv' as [Vc' Hv'].
    cbn [map] in Heq. rewrite !join_cons in Heq.
    destruct c as [r s], c' as [r' s'].
    apply (format_card_cancel (r, s) (r', s')) in Heq as [-> Htail];
      try assumption.
    f_equal.
    destruct hand as [|d hand], hand' as [|d' hand']; cbn [map] in Htail.
    + reflexivity.
    + discriminate Htail.
    + discriminate Htail.
    + cbn [lit app] in Htail. injection Htail as Htail.
      now apply IH.
Qed.

(** The server's [format_hand] on hands of cards of the pack. Shown
    in full, the text tells the hand: two hands with the same text
    are the same cards in the same order. With [hide_second] a hand
    of two cards or more shows its first card and the card back only,
    so that two such hands have the same text exactly when their
    first cards are the same; a hand of fewer than two cards is shown
    in full either way. *)
Theorem shown_hand_identifies_cards (hand hand' : list card)
    (Hhand : Forall Deck.valid_card hand)
    (Hhand' : Forall Deck.valid_card hand') :
  (format_hand hand false = format_hand hand' false <-> hand = hand')
  /\ ((2 <= length hand)%nat -> (2 <= length hand')%nat ->
      (format_hand hand true = format_hand hand' true
       <-> head hand = head hand'))
  /\ ((length hand < 2)%nat ->
      format_hand hand true = format_hand hand false).
Proof.
  split_and!.
  - split; [|now intros ->].
    intros Heq. apply shown_hand_inj; try assumption.
    unfold format_hand in Heq.
    destruct hand as [|? [|? ?]], hand' as [|? [|? ?]]; exact Heq.
  - intros Hl Hl'.
    destruct hand as [|c [|d hand]]; cbn [length] in Hl; try lia.
    destruct hand' as [|c' [|d' hand']]; cbn [length] in Hl'; try lia.
    apply Forall_cons in Hhand as [Vc _].
    apply Forall_cons in Hhand' as [Vc' _].
    unfold format_hand. cbn [head]. rewrite !join_cons. split.
    + intros Heq. apply format_card_cancel in Heq as [-> _]; try assumption.
      reflexivity.
    + now intros [= ->].
  - intros Hl. destruct hand as [|c [|d hand]]; cbn [length] in Hl; try lia;
      reflexivity.
Qed.

End DisplayFacts.

Module SessionWitnesses.
Import Random Utf8 Protocol Server Session Scenario Trace Table Display.
Import ClientFacts Witnesses ClientSession SessionJoint DisplayFacts.

(** The ace of hearts and the king of spades: the client takes the
    next receive, the first card of the following round, for the
    result and counts nothing. *)
Lemma client_natural_21_sends_nothing_witness :
  Deck.valid_card (1, SUIT_HEART) /\ Deck.valid_card (13, SUIT_SPADE)
  /\ Deck.valid_card (5, SUIT_CLUB)
  /\ Client.calculate_hand_value [(1, SUIT_HEART); (13, SUIT_SPADE)] = 21
  /\ exists s',
       ClientGame.play_round [ClientGame.Stand]
         (map RecvData [card_msg (1, SUIT_HEART); card_msg (13, SUIT_SPADE);
                        card_msg (5, SUIT_CLUB)]
          ++ [RecvData (card_msg (7, SUIT_DIAMOND))]) new_client
       = (ClientGame.Returns true, [ClientGame.Stand], [], s')
       /\ ClientGame.sent s' = []
       /\ ClientGame.wins s' = 0.
Proof.
  assert (V1 : Deck.valid_card (1, SUIT_HEART)) by (vm_compute; intuition discriminate).
  assert (V2 : Deck.valid_card (13, SUIT_SPADE)) by (vm_compute; intuition discriminate).
  assert (V3 : Deck.valid_card (5, SUIT_CLUB)) by (vm_compute; intuition discriminate).
  assert (H21 : Client.calculate_hand_value [(1, SUIT_HEART); (13, SUIT_SPADE)]
                = 21) by reflexivity.
  split_and!; try assumption.
  destruct (client_natural_21_sends_nothing (1, SUIT_HEART) (13, SUIT_SPADE)
              (5, SUIT_CLUB) [ClientGame.Stand]
              [RecvData (card_msg (7, SUIT_DIAMOND))] new_client V1 V2 V3 H21)
    as (s' & Hrun & Hsent & _ & _ & _ & _ & [Hw | Hw] & Hiff).
  - exists s'. split_and!; assumption.
  - exfalso. apply Hiff in Hw as (ev & rest & rank & suit & [= <- <-] & Hev).
    vm_compute in Hev. discriminate Hev.
Defined.


Lemma shown_hand_identifies_cards_witness :
  Forall Deck.valid_card [(10, SUIT_DIAMOND); (1, SUIT_HEART)]
  /\ Forall Deck.valid_card [(10, SUIT_DIAMOND); (13, SUIT_SPADE)]
  /\ format_hand [(10, SUIT_DIAMOND); (1, SUIT_HEART)] false
     <> format_hand [(10, SUIT_DIAMOND); (13, SUIT_SPADE)] false
  /\ format_hand [(10, SUIT_DIAMOND); (1, SUIT_HEART)] true
     = format_hand [(10, SUIT_DIAMOND); (13, SUIT_SPADE)] true.
Proof.
  assert (H1 : Forall Deck.valid_card [(10, SUIT_DIAMOND); (1, SUIT_HEART)]).
  { apply (bool_decide_unpack _). vm_compute. exact I. }
  assert (H2 : Forall Deck.valid_card [(10, SUIT_DIAMOND); (13, SUIT_SPADE)]).
  { apply (bool_decide_unpack _). vm_compute. exact I. }
  destruct (shown_hand_identifies_cards _ _ H1 H2) as (Hfull & Hhide & _).
  split_and!; try assumption.
  - intros Heq. apply Hfull in Heq. discriminate Heq.
  - apply Hhide; [cbn; lia | cbn; lia | reflexivity].
Defined.

End SessionWitnesses.
